(** * Verification of the media engine core: video track ingest and MPEG-TS packetizer

    Shallow embedding of [track/video.go] (Annex-B / AVCC ingest, Flush, GOP
    bookkeeping, subscriber attach, the track of a codec not known yet) and
    of the memory TS writer ([WritePESPacket], [WriteAudioFrame],
    [WriteVideoFrame]).

    Bytes are integers in [0,256); Go's fixed-width integers are integers with
    their wrap-around written out. *)

From Stdlib Require Import ZArith List Bool Lia Arith Permutation.
From Stdlib Require String.
From Equations Require Import Equations.
Import ListNotations.

Local Open Scope Z_scope.

(** ** Bytes, buffers and fixed-width integers *)

Definition bytes := list Z.

(** [net.Buffers]: an ordered list of byte fragments. *)
Definition Buffers := list bytes.

Definition uint8 (x : Z) : Z := x mod 256.
Definition uint16 (x : Z) : Z := x mod 65536.
Definition uint32 (x : Z) : Z := x mod 4294967296.

Definition len {A} (l : list A) : Z := Z.of_nat (length l).

(** [util.SizeOfBuffers]: total byte count of a fragment list. *)
Definition SizeOfBuffers (b : Buffers) : Z := len (concat b).

(** Go's slice expressions [s[n:]] and [s[:n]] for in-range [n]. *)
Definition slice_from {A} (n : Z) (s : list A) : list A := skipn (Z.to_nat n) s.
Definition slice_to {A} (n : Z) (s : list A) : list A := firstn (Z.to_nat n) s.

(** ** [bytes.Cut] *)

(** [bytes.HasPrefix s sep]. *)
Fixpoint HasPrefix (s sep : bytes) {struct sep} : bool :=
  match sep, s with
  | [], _ => true
  | x :: sep', y :: s' => (x =? y) && HasPrefix s' sep'
  | _ :: _, [] => false
  end.

(** [bytes.Cut s sep]: slices [s] around the first instance of [sep];
    when [sep] does not occur it returns [s, nil, false]. *)
Fixpoint Cut (s sep : bytes) : bytes * bytes * bool :=
  match s with
  | [] => if HasPrefix [] sep then ([], [], true) else ([], [], false)
  | b :: t =>
      if HasPrefix s sep then ([], skipn (length sep) s, true)
      else let '(before, after, found) := Cut t sep in
           (b :: before, after, found)
  end.

(** Modelled from the spec: the start-code delimiters of package [codec],
    "3-byte and 4-byte forms" of the Annex-B start code. *)
Definition NALU_Delimiter1 : bytes := [0; 0; 1].
Definition NALU_Delimiter2 : bytes := [0; 0; 0; 1].

(** ** Frames ([common.AVFrame]) *)

(** A NALU is a fragment list ([NALUSlice] is [net.Buffers]). *)
Definition NALUSlice := Buffers.

(** A Go [nil] slice is the empty list: every append in the code adds at
    least one element, so [x == nil] is [x = []]. *)
Record AVFrame := mkAVFrame {
  SeqInTrack : Z;
  IFrame : bool;
  PTS : Z;
  DTS : Z;
  AVCC : Buffers;
  FLV : Buffers;
  Raw : list NALUSlice
}.

Definition is_nil {A} (l : list A) : bool :=
  match l with [] => true | _ => false end.

(** Modelled from the spec: [AVFrame.AppendRaw], [AVFrame.AppendAVCC] and
    [AVFrame.Reset] of package [common], which append to the raw NALU list,
    append to the memoized AVCC form, and clear the payload of a recycled
    slot. *)
Definition AppendRaw (v : AVFrame) (n : NALUSlice) : AVFrame :=
  mkAVFrame (SeqInTrack v) (IFrame v) (PTS v) (DTS v) (AVCC v) (FLV v) (Raw v ++ [n]).

Definition AppendAVCC (v : AVFrame) (b : Buffers) : AVFrame :=
  mkAVFrame (SeqInTrack v) (IFrame v) (PTS v) (DTS v) (AVCC v ++ b) (FLV v) (Raw v).

Definition Reset (v : AVFrame) : AVFrame :=
  mkAVFrame (SeqInTrack v) false (PTS v) (DTS v) [] [] [].

Definition set_PTS_DTS (v : AVFrame) (pts dts : Z) : AVFrame :=
  mkAVFrame (SeqInTrack v) (IFrame v) pts dts (AVCC v) (FLV v) (Raw v).

(** Modelled from the spec: [Media.WriteSlice], "appending each delimited
    span as a NALU slice to the Frame currently being assembled". *)
Definition WriteSlice (v : AVFrame) (n : NALUSlice) : AVFrame := AppendRaw v n.

(** ** Annex-B ingest *)

Definition inspect {A} (a : A) : {b | a = b} := exist _ a eq_refl.

(** The loops below end because what follows a found delimiter is shorter
    than what was searched. *)
Definition after_Cut_shorter (s sep : bytes) :
  sep <> [] -> forall before after,
  Cut s sep = (before, after, true) -> (length after < length s)%nat.
Proof.
  intros Hsep. induction s as [|x s IH]; intros bf af H.
  - destruct sep; [congruence | discriminate].
  - change (Cut (x :: s) sep) with
      (if HasPrefix (x :: s) sep then ([], skipn (length sep) (x :: s), true)
       else let '(b0, a0, f0) := Cut s sep in (x :: b0, a0, f0)) in H.
    destruct (HasPrefix (x :: s) sep).
    + inversion H; subst. destruct sep as [|y sep']; [congruence|].
      rewrite length_skipn. simpl. lia.
    + destruct (Cut s sep) as [[b0 a0] f0] eqn:C.
      inversion H; subst. specialize (IH _ _ eq_refl). simpl; lia.
Qed.

(** [writeAnnexBSlice]: the loop over the 3-byte delimiter. *)
Equations? writeAnnexBSlice (annexb : bytes) (v : AVFrame) : AVFrame
  by wf (length annexb) lt :=
  writeAnnexBSlice [] v := v;
  writeAnnexBSlice (b :: t) v with inspect (Cut (b :: t) NALU_Delimiter1) := {
    | exist _ (before, after, false) _ => WriteSlice v [b :: t]
    | exist _ (before, after, true) _ =>
        writeAnnexBSlice after
          (if is_nil before then v else WriteSlice v [before]) }.
Proof.
  eapply (after_Cut_shorter (b :: t) NALU_Delimiter1); [discriminate | exact e].
Qed.

(** [WriteAnnexB]: the loop over the 4-byte delimiter. *)
Equations? WriteAnnexB_loop (pts dts : Z) (frame : bytes) (v : AVFrame) : AVFrame
  by wf (length frame) lt :=
  WriteAnnexB_loop pts dts [] v := v;
  WriteAnnexB_loop pts dts (b :: t) v with inspect (Cut (b :: t) NALU_Delimiter2) := {
    | exist _ (before, after, false) _ =>
        let v' := writeAnnexBSlice (b :: t) v in
        if is_nil (Raw v') then v' else set_PTS_DTS v' pts dts
    | exist _ (before, after, true) _ =>
        WriteAnnexB_loop pts dts after
          (if is_nil before then v else writeAnnexBSlice before v) }.
Proof.
  eapply (after_Cut_shorter (b :: t) NALU_Delimiter2); [discriminate | exact e].
Qed.

Definition WriteAnnexB (pts dts : Z) (frame : bytes) (v : AVFrame) : AVFrame :=
  WriteAnnexB_loop pts dts frame v.

(** *** Delimiter-separated spans, as the specification words them

    One left-to-right pass over the input: a 4-byte start code, else a 3-byte
    start code, closes the span being read; empty spans are not NALUs. *)

Definition emit (cur : bytes) : list bytes :=
  if is_nil cur then [] else [cur].

Fixpoint spans_from (cur : bytes) (s : bytes) {struct s} : list bytes :=
  match s with
  | 0 :: 0 :: 0 :: 1 :: t => emit cur ++ spans_from [] t
  | 0 :: 0 :: 1 :: t => emit cur ++ spans_from [] t
  | b :: t => spans_from (cur ++ [b]) t
  | [] => emit cur
  end.

Definition spans (s : bytes) : list bytes := spans_from [] s.

(** The spans of an input that only knows the 3-byte start code. *)
Fixpoint spans1_from (cur : bytes) (s : bytes) {struct s} : list bytes :=
  match s with
  | 0 :: 0 :: 1 :: t => emit cur ++ spans1_from [] t
  | b :: t => spans1_from (cur ++ [b]) t
  | [] => emit cur
  end.

(** [occurs sep s]: the delimiter is found somewhere in [s]. *)
Definition occurs (sep s : bytes) : bool := snd (Cut s sep).

(** ** Big-endian integers ([util.PutBE], [util.ReadBE]) *)

(** Go's [int] is 64 bits wide, two's complement. *)
Definition int64 (x : Z) : Z := (x + 2 ^ 63) mod 2 ^ 64 - 2 ^ 63.

(** Modelled from the spec: [util.PutBE b num] fills the [n] bytes of [b]
    with [num] in big-endian order ("4-byte big-endian length"); byte [i] is
    [byte(num >> 8(n-i-1))]. *)
Fixpoint PutBE (n : nat) (num : Z) : bytes :=
  match n with
  | O => []
  | S k => uint8 (Z.shiftr num (8 * Z.of_nat k)) :: PutBE k num
  end.

(** Modelled from the spec: [util.ReadBE[int] b] reads the bytes of [b] as a
    big-endian integer, summed in Go's 64-bit [int]. *)
Definition BE (b : bytes) : Z := fold_left (fun acc x => acc * 256 + x) b 0.
Definition ReadBE (b : bytes) : Z := int64 (BE b).

(** ** AVCC ingest *)

(** What a call leaves behind: a value, a run-time panic (slice bounds out of
    range), or a loop that never ends. *)
Inductive result (A : Type) : Type :=
| Ok (a : A)
| Panic
| Diverge.
Arguments Ok {A} a.
Arguments Panic {A}.
Arguments Diverge {A}.

(** The lines [Stream.Error] writes. *)
Inductive LogEvent : Type :=
| WriteAVCC_error (length nalulenSize endpos : Z).

(** Modelled from the spec: [Media.WriteAVCC] of package [track], which
    reads the "5-byte frame header (1 flag byte encoding codec id + frame
    type, 3-byte composition-time offset)", keeps the input as the frame's
    AVCC form and stamps the timestamps (milliseconds on the 90 kHz clock,
    the inverse of the division by 90 in [Flush]); it does not touch the raw
    NALUs.  Reading the header of an input shorter than 5 bytes panics. *)
Definition Media_WriteAVCC (ts : Z) (frame : bytes) (v : AVFrame) : result AVFrame :=
  if len frame <? 5 then Panic
  else
    let cts := BE (firstn 3 (skipn 2 frame)) in
    Ok (mkAVFrame (SeqInTrack v) (IFrame v)
          (uint32 ((ts + cts) * 90)) (uint32 (ts * 90))
          (AVCC v ++ [frame]) (FLV v) (Raw v)).

(** The loop of [WriteAVCC] over the bytes after the frame header. *)
Equations? WriteAVCC_loop (nalulenSize : Z) (nalus : bytes)
    (st : AVFrame * list LogEvent) : result (AVFrame * list LogEvent)
  by wf (length nalus) lt :=
  WriteAVCC_loop nalulenSize nalus st with inspect (len nalus >? nalulenSize) := {
    | exist _ false _ => Ok st
    | exist _ true _ with inspect (nalulenSize <? 0) := {
      | exist _ true _ => Panic
      | exist _ false _ with
          inspect (len nalus >=? int64 (ReadBE (slice_to nalulenSize nalus) + nalulenSize)) := {
        | exist _ false _ =>
            Ok (fst st,
                snd st ++ [WriteAVCC_error (len nalus) nalulenSize
                   (int64 (ReadBE (slice_to nalulenSize nalus) + nalulenSize))])
        | exist _ true _ with
            inspect (int64 (ReadBE (slice_to nalulenSize nalus) + nalulenSize) <? nalulenSize) := {
          | exist _ true _ => Panic
          | exist _ false _ with
              inspect (int64 (ReadBE (slice_to nalulenSize nalus) + nalulenSize) <=? 0) := {
            | exist _ true _ => Diverge
            | exist _ false _ =>
                let endpos := int64 (ReadBE (slice_to nalulenSize nalus) + nalulenSize) in
                WriteAVCC_loop nalulenSize (slice_from endpos nalus)
                  (AppendRaw (fst st)
                     [slice_from nalulenSize (slice_to endpos nalus)],
                   snd st) } } } } }.
Proof.
  unfold slice_from, len in *. rewrite length_skipn.
  destruct nalus; [simpl in *; lia|cbn [length]; lia].
Qed.

(** [Video.WriteAVCC]. *)
Definition WriteAVCC (nalulenSize : Z) (ts : Z) (frame : bytes)
    (st : AVFrame * list LogEvent) : result (AVFrame * list LogEvent) :=
  match Media_WriteAVCC ts frame (fst st) with
  | Ok v => WriteAVCC_loop nalulenSize (slice_from 5 frame) (v, snd st)
  | Panic => Panic
  | Diverge => Diverge
  end.

(** ** The video track and its cyclic frame cache *)

(** The feature flags of [config.Global]. *)
Record Config := mkConfig {
  EnableAVCC : bool;
  EnableFLV : bool
}.

(** Modelled from the spec: the ring buffer that [Video] embeds through
    [Media], the cyclic list of frame slots of [util.Ring] (Go's
    [container/ring] with a typed value) and the [Size] recorded beside it,
    laid out flat in the record of the track.  Slots live in a store and are
    named by their index there, so that the keyframe marker and reader cursors
    are pointers to slots; [ring] lists the slots in [Next] order, the write
    cursor first.  The other fields are those of [type Video struct], with
    the lines [Stream.Error] has logged. *)
Record Video := mkVideo {
  slots : list AVFrame;
  ring : list nat;
  Size : Z;
  CodecID : Z;
  IDRing : option nat;
  GOP : Z;
  nalulenSize : Z;
  idrCount : Z;
  log : list LogEvent
}.

Definition zero_frame : AVFrame := mkAVFrame 0 false 0 0 [] [] [].

(** The slot under the write cursor ([vt.Ring]) and its frame ([vt.Value]). *)
Definition cursor (t : Video) : nat := hd O (ring t).
Definition slot (t : Video) (i : nat) : AVFrame := nth i (slots t) zero_frame.
Definition Value (t : Video) : AVFrame := slot t (cursor t).

Fixpoint set_nth {A} (i : nat) (x : A) (l : list A) : list A :=
  match l, i with
  | [], _ => []
  | _ :: l', O => x :: l'
  | y :: l', S i' => y :: set_nth i' x l'
  end.

Definition set_slots (t : Video) (s : list AVFrame) : Video :=
  mkVideo s (ring t) (Size t) (CodecID t) (IDRing t) (GOP t)
    (nalulenSize t) (idrCount t) (log t).
Definition set_ring (t : Video) (r : list nat) : Video :=
  mkVideo (slots t) r (Size t) (CodecID t) (IDRing t) (GOP t)
    (nalulenSize t) (idrCount t) (log t).
Definition set_Size (t : Video) (n : Z) : Video :=
  mkVideo (slots t) (ring t) n (CodecID t) (IDRing t) (GOP t)
    (nalulenSize t) (idrCount t) (log t).
Definition set_IDRing (t : Video) (r : option nat) : Video :=
  mkVideo (slots t) (ring t) (Size t) (CodecID t) r (GOP t)
    (nalulenSize t) (idrCount t) (log t).
Definition set_GOP (t : Video) (g : Z) : Video :=
  mkVideo (slots t) (ring t) (Size t) (CodecID t) (IDRing t) g
    (nalulenSize t) (idrCount t) (log t).
Definition set_idrCount (t : Video) (n : Z) : Video :=
  mkVideo (slots t) (ring t) (Size t) (CodecID t) (IDRing t) (GOP t)
    (nalulenSize t) n (log t).
Definition set_log (t : Video) (l : list LogEvent) : Video :=
  mkVideo (slots t) (ring t) (Size t) (CodecID t) (IDRing t) (GOP t)
    (nalulenSize t) (idrCount t) l.

Definition set_Value (t : Video) (v : AVFrame) : Video :=
  set_slots t (set_nth (cursor t) v (slots t)).

(** Modelled from the spec: [Ring.Next] of package [util], the slot after
    the cursor; a ring of one slot is its own successor. *)
Definition Next (t : Video) : nat :=
  match ring t with
  | _ :: n :: _ => n
  | _ => cursor t
  end.

(** Modelled from the spec: [Ring.Link] of package [util] applied to a new
    ring, [r.Link(util.NewRing(n))], which "inserts additional slots without
    displacing any existing cursor's target slot": [n] fresh slots come right
    after the cursor.  The method relinks the ring only; the recorded [Size]
    is left as it was, as it is by [Unlink], around which [ComputeGOP]
    adjusts [Size] itself. *)
Definition Link_new (t : Video) (n : nat) : Video :=
  let fresh := seq (length (slots t)) n in
  set_ring (set_slots t (slots t ++ repeat zero_frame n))
    (match ring t with
     | [] => fresh
     | c :: rest => c :: fresh ++ rest
     end).

(** Modelled from the spec: [Ring.Unlink] of package [util], with the
    meaning it has in [container/ring]: [r.Unlink(n)] is
    [r.Link(r.Move(n + 1))] for [n > 0], so the slots strictly between the
    cursor and the slot [n + 1] steps ahead leave the ring.  It returns the
    ring that starts at the old successor of the cursor: the removed slots, or
    the whole ring when nothing was removed.  The result is the pair of the
    ring that stays and the slots [Do] visits on the returned ring. *)
Definition Unlink (r : list nat) (n : Z) : list nat * list nat :=
  match r with
  | [] => ([], [])
  | c :: rest =>
      if n <=? 0 then (r, [])
      else
        let k := Z.to_nat ((n + 1) mod len r) in
        match k with
        | O => ([c], if is_nil rest then [c] else rest)
        | S O => (r, rest ++ [c])
        | S k' => (c :: skipn k' rest, firstn k' rest)
        end
  end.

Definition b2z (b : bool) : Z := if b then 1 else 0.

(** The callback [ComputeGOP] hands to [Do]: it receives each visited frame
    by value, so its [Reset] clears a copy and only the counter changes.
    [Size], [GOP] and [idrCount] are Go [int]s that count slots and frames of
    one track; they stay far from the 64-bit range and are kept as
    integers. *)
Definition Do_uncount (t : Video) (visited : list nat) : Video :=
  fold_left (fun t' i =>
               if IFrame (slot t' i) then set_idrCount t' (idrCount t' - 1)
               else t') visited t.

(** [Video.ComputeGOP]. *)
Definition ComputeGOP (t : Video) : Video :=
  let t1 := set_idrCount t (idrCount t + 1) in
  let t2 :=
    match IDRing t1 with
    | None => t1
    | Some idr =>
        let t' := set_GOP t1
                    (uint32 (SeqInTrack (Value t1) - SeqInTrack (slot t1 idr))) in
        let l := Size t' - GOP t' - 5 in
        if l >? 5 then
          let t'' := set_Size t' (Size t' - l) in
          let '(kept, visited) := Unlink (ring t'') l in
          Do_uncount (set_ring t'' kept) visited
        else t'
    end in
  set_IDRing t2 (Some (cursor t2)).

Section Flush.

(** [AVFrame.FillFLV], the completion hook of the container-tag form, whose
    byte layout lies outside this development: it is a parameter that maps
    the tag type, the timestamp and the frame to the tag's fragments. *)
Variable FillFLV : Z -> Z -> AVFrame -> Buffers.

Variable cfg : Config.

(** Modelled from the spec: [codec.FLV_TAG_TYPE_VIDEO], the tag type of the
    "container-tag form" of a video frame; it is only handed to [FillFLV]. *)
Definition FLV_TAG_TYPE_VIDEO : Z := 9.

(** The AVCC completion of [Flush] (the frame has payload). *)
Definition Flush_AVCC (codecID : Z) (v : AVFrame) : AVFrame :=
  if is_nil (AVCC v) && (EnableAVCC cfg || EnableFLV cfg) then
    let b0 := Z.lor (uint8 codecID) (if IFrame v then 16 else 32) in
    let b := [b0; 1] ++ PutBE 3 (uint32 (PTS v - DTS v) / 90) in
    fold_left (fun v' nalu =>
                 AppendAVCC (AppendAVCC v' [PutBE 4 (SizeOfBuffers nalu)]) nalu)
              (Raw v) (AppendAVCC v [b])
  else v.

(** The FLV completion of [Flush]. *)
Definition Flush_FLV (v : AVFrame) : AVFrame :=
  if is_nil (FLV v) && EnableFLV cfg then
    mkAVFrame (SeqInTrack v) (IFrame v) (PTS v) (DTS v) (AVCC v)
      (FillFLV FLV_TAG_TYPE_VIDEO (DTS v / 90) v) (Raw v)
  else v.

(** Modelled from the spec: [Media.Flush] of package [track], by which the
    "single writer advances a write cursor one slot per finalized Frame,
    overwriting the oldest slot content in place": the cursor moves to the
    next slot, which is reset and takes the following sequence number. *)
Definition Media_Flush (t : Video) : Video :=
  let seq' := uint32 (SeqInTrack (Value t) + 1) in
  let t' := set_ring t (match ring t with
                        | [] => []
                        | c :: rest => rest ++ [c]
                        end) in
  let v := Reset (Value t') in
  set_Value t' (mkAVFrame seq' (IFrame v) (PTS v) (DTS v) (AVCC v) (FLV v) (Raw v)).

(** [Video.Flush]. *)
Definition Flush (t : Video) : Video :=
  if is_nil (Raw (Value t)) then set_Value t (Reset (Value t))
  else
    let t1 := set_Value t (Flush_FLV (Flush_AVCC (CodecID t) (Value t))) in
    let t2 :=
      if IFrame (slot t1 (Next t1)) then
        if idrCount t1 =? 1 then
          if Size t1 <? 256 then Link_new t1 5 else t1
        else set_idrCount t1 (idrCount t1 - 1)
      else t1 in
    Media_Flush t2.

End Flush.

(** The two ingest methods on the track: they work on the frame under the
    write cursor, with the prefix width and the log of the track. *)
Definition Video_WriteAnnexB (t : Video) (pts dts : Z) (frame : bytes) : Video :=
  set_Value t (WriteAnnexB pts dts frame (Value t)).

Definition Video_WriteAVCC (t : Video) (ts : Z) (frame : bytes) : result Video :=
  match WriteAVCC (nalulenSize t) ts frame (Value t, log t) with
  | Ok (v, l) => Ok (set_log (set_Value t v) l)
  | Panic => Panic
  | Diverge => Diverge
  end.

(** ** Subscriber attach *)

(** A reader's cursor into the ring: a pointer to a slot, or [nil]. *)
Record AVRing := mkAVRing { Ring : option nat }.

(** [Video.ReadRing]. *)
Definition ReadRing (t : Video) : AVRing := mkAVRing (IDRing t).

(** The frame [Play] delivers first: [vr.Read()] at the cursor [ReadRing]
    returned, handed to the callback when the stream reports no error.
    Reading through a [nil] cursor does not deliver a frame. *)
Definition Play_first (t : Video) : option AVFrame :=
  match Ring (ReadRing t) with
  | Some i => Some (slot t i)
  | None => None
  end.

(** ** Scenario builders *)

(** Modelled from the spec: the track constructor, which allocates a ring of
    [n] empty slots and records its size; no keyframe has been seen. *)
Definition new_track (n : nat) (codecID nalulen : Z) : Video :=
  mkVideo (repeat zero_frame n) (seq 0 n) (Z.of_nat n) codecID None 0 nalulen 0 [].

(** Modelled from the spec: the codec-specific slice writer, which raises
    the keyframe flag of the frame being assembled when it meets an IDR
    slice. *)
Definition set_IFrame (v : AVFrame) (b : bool) : AVFrame :=
  mkAVFrame (SeqInTrack v) b (PTS v) (DTS v) (AVCC v) (FLV v) (Raw v).

(** A [FillFLV] for runs in which the FLV flag is off. *)
Definition no_FLV : Z -> Z -> AVFrame -> Buffers := fun _ _ _ => [].

(** The scenario of the specification: SPS, PPS and an IDR slice behind
    4-byte start codes. *)
Definition scenario_SPS : bytes := [103; 66; 0; 30].
Definition scenario_PPS : bytes := [104; 206; 60; 128].
Definition scenario_IDR : bytes := [101; 136; 132; 0; 33].
Definition scenario_annexb : bytes :=
  NALU_Delimiter2 ++ scenario_SPS ++ NALU_Delimiter2 ++ scenario_PPS
    ++ NALU_Delimiter2 ++ scenario_IDR.
Definition scenario_track : Video :=
  let t := new_track 4 7 4 in
  set_Value t (set_IFrame (WriteAnnexB 0 0 scenario_annexb (Value t)) true).

(** ** The memory TS writer *)

(** Modelled from the spec: [mpegts.TS_PACKET_SIZE], "the fixed wire size
    (e.g., 188 bytes)", the size the error message of [WritePESPacket]
    names. *)
Definition TS_PACKET_SIZE : Z := 188.

(** [mpegts.MpegTsPESHeader], the fields the writer sets or reads. *)
Record MpegTsPESHeader := mkPESHeader {
  PacketStartCodePrefix : Z;
  StreamID : Z;
  PesPacketLength : Z;
  ConstTen : Z;
  PtsDtsFlags : Z;
  PesHeaderDataLength : Z;
  Pts : Z;
  Dts : Z
}.

(** [mpegts.MpegTsPESPacket]: a header and the payload fragments (its
    [Buffers] field). *)
Record MpegTsPESPacket := mkPESPacket {
  Header : MpegTsPESHeader;
  Payload : Buffers
}.

(** [mpegts.MpegtsPESFrame], the per-PID frame context. *)
Record MpegtsPESFrame := mkPESFrame {
  Pid : Z;
  IsKeyFrame : bool;
  ContinuityCounter : Z;
  ProgramClockReferenceBase : Z
}.

(** [mpegts.MpegTsHeader], the fields [WritePESPacket] sets; the others keep
    their zero value.  [hPid], [hContinuityCounter] and
    [hProgramClockReferenceBase] are its [Pid], [ContinuityCounter] and
    [ProgramClockReferenceBase]. *)
Record MpegTsHeader := mkTsHeader {
  SyncByte : Z;
  TransportErrorIndicator : Z;
  PayloadUnitStartIndicator : Z;
  TransportPriority : Z;
  hPid : Z;
  TransportScramblingControl : Z;
  AdaptionFieldControl : Z;
  hContinuityCounter : Z;
  AdaptationFieldLength : Z;
  PCRFlag : Z;
  RandomAccessIndicator : Z;
  hProgramClockReferenceBase : Z
}.

(** The errors [WritePESPacket] returns. *)
Inductive TsError : Type :=
| ErrStartCode
| ErrPESHeader
| ErrTsHeader
| ErrPacketSize (size : Z).

(** A call either returned, with or without an error, or was still looping
    when the fuel ran out. *)
Inductive outcome : Type :=
| Returned (err : option TsError)
| Running.

(** Modelled from the spec: [mpegts.Stuffing] and the pool buffer of
    [BytesPool.Get(n)], a buffer of exactly [n] bytes ("TS packets each
    exactly the fixed packet size", "filled with stuffing bytes").  The item
    pushed on the list is that buffer: the stuffing, overwritten from its
    start by what was assembled into it. *)
Definition Stuffing (n : nat) : bytes := repeat 255 n.

Definition pool_item (n : nat) (assembled : bytes) : bytes :=
  firstn n (assembled ++ Stuffing (n - length assembled)).

(** [net.Buffers.Read] into a buffer of [n] bytes: fragments are copied
    from the front until the buffer is full or the list is empty; a fragment
    read to its end is dropped, together with the empty fragments that
    follow it, and a fragment read in part keeps its rest. *)
Fixpoint Buffers_Read (n : nat) (bufs : Buffers) : bytes * Buffers :=
  match bufs with
  | [] => ([], [])
  | b :: rest =>
      if (length b <=? n)%nat then
        let '(got, rem) := Buffers_Read (n - length b) rest in (b ++ got, rem)
      else (firstn n b, skipn n b :: rest)
  end.

(** [io.CopyN(dst, &bufs, n)] over [net.Buffers]: for [n] of zero or less
    nothing is read and the list is left as it is; otherwise the list is read
    once, into a buffer of [n] bytes. *)
Definition consume (n : nat) (bufs : Buffers) : bytes * Buffers :=
  match n with
  | O => ([], bufs)
  | _ => Buffers_Read n bufs
  end.

(** What one call leaves behind: the buffer list, the frame context, the TS
    headers it handed to [WriteTsHeader] with the size of the packet assembled
    behind each, and how it ended. *)
Record PESRun := mkPESRun {
  BLL : list bytes;
  frame_ctx : MpegtsPESFrame;
  handed : list MpegTsHeader;
  sizes : list Z;
  ended : outcome
}.

Definition set_ContinuityCounter (f : MpegtsPESFrame) (c : Z) : MpegtsPESFrame :=
  mkPESFrame (Pid f) (IsKeyFrame f) c (ProgramClockReferenceBase f).

(** The TS header of packet [i], lines 49 to 75: the counter of the frame
    context goes into the header; the first packet of a PES starts a payload
    unit and, for a keyframe, carries the PCR. *)
Definition first_header (i : Z) (frame : MpegtsPESFrame) : MpegTsHeader :=
  let h := mkTsHeader 71 0 0 0 (Pid frame) 0 1 (ContinuityCounter frame) 0 0 0 0 in
  if i =? 0 then
    if IsKeyFrame frame then
      mkTsHeader (SyncByte h) (TransportErrorIndicator h) 1 (TransportPriority h)
        (hPid h) (TransportScramblingControl h) 3 (hContinuityCounter h)
        7 1 1 (ProgramClockReferenceBase frame)
    else
      mkTsHeader (SyncByte h) (TransportErrorIndicator h) 1 (TransportPriority h)
        (hPid h) (TransportScramblingControl h) (AdaptionFieldControl h)
        (hContinuityCounter h) (AdaptationFieldLength h) (PCRFlag h)
        (RandomAccessIndicator h) (hProgramClockReferenceBase h)
  else h.

(** The padding branch, lines 78 to 96: the header with its adaptation field
    set for stuffing, and the stuffing length. *)
Definition padded_header (h : MpegTsHeader) (pesPktLength : Z) : MpegTsHeader * Z :=
  let afl := uint8 (TS_PACKET_SIZE - 4 - 1 - pesPktLength) in
  (mkTsHeader (SyncByte h) (TransportErrorIndicator h)
     (PayloadUnitStartIndicator h) (TransportPriority h) (hPid h)
     (TransportScramblingControl h) 3 (hContinuityCounter h) afl (PCRFlag h)
     (RandomAccessIndicator h) (hProgramClockReferenceBase h),
   if afl >=? 1 then uint8 (afl - 1) else 0).

Section Packetizer.

(** [mpegts.WritePESHeader] and [mpegts.WriteTsHeader] are parameters: the
    bytes each appends to the packet buffer, the byte count [WriteTsHeader]
    reports, and whether the call failed. *)
Variable WritePESHeader : MpegTsPESHeader -> bytes * bool.
Variable WriteTsHeader : MpegTsHeader -> bytes * Z * bool.

(** The loop of [WritePESPacket], one TS packet per turn. *)
Fixpoint WritePESPacket_loop (fuel : nat) (i : Z) (packet : MpegTsPESPacket)
    (pesBuffers : Buffers) (pesPktLength : Z) (r : PESRun) : PESRun :=
  if is_nil pesBuffers then
    mkPESRun (BLL r) (frame_ctx r) (handed r) (sizes r) (Returned None)
  else
    match fuel with
    | O => mkPESRun (BLL r) (frame_ctx r) (handed r) (sizes r) Running
    | S fuel' =>
        let frame := frame_ctx r in
        let '(pes_bytes, pes_err) :=
          if i =? 0 then WritePESHeader (Header packet) else ([], false) in
        if pes_err then
          mkPESRun (BLL r ++ [pool_item 188 pes_bytes]) frame (handed r)
            (sizes r) (Returned (Some ErrPESHeader))
        else
          let pesPktLength :=
            if i =? 0 then len pes_bytes + SizeOfBuffers pesBuffers
            else pesPktLength in
          let tsHeader := first_header i frame in
          let frame := set_ContinuityCounter frame
                         (uint8 (ContinuityCounter frame + 1) mod 16) in
          let '(tsHeader, tsStuffingLength) :=
            if pesPktLength <? TS_PACKET_SIZE - 4
            then padded_header tsHeader pesPktLength
            else (tsHeader, 0) in
          let '(ts_bytes, written, ts_err) := WriteTsHeader tsHeader in
          if ts_err then
            mkPESRun (BLL r ++ [pool_item 188 (pes_bytes ++ ts_bytes)]) frame
              (handed r ++ [tsHeader]) (sizes r) (Returned (Some ErrTsHeader))
          else
            let tsHeaderLength := written + tsStuffingLength in
            let tsPayloadLength := TS_PACKET_SIZE - tsHeaderLength in
            let '(got, pesBuffers) := consume (Z.to_nat tsPayloadLength) pesBuffers in
            let assembled := pes_bytes ++ ts_bytes ++ got in
            let tsPktByteLen := len assembled in
            let r' := mkPESRun (BLL r ++ [pool_item 188 assembled]) frame
                        (handed r ++ [tsHeader]) (sizes r ++ [tsPktByteLen])
                        (ended r) in
            if negb (tsPktByteLen =? TS_PACKET_SIZE) then
              mkPESRun (BLL r') (frame_ctx r') (handed r') (sizes r')
                (Returned (Some (ErrPacketSize tsPktByteLen)))
            else WritePESPacket_loop fuel' (i + 1) packet pesBuffers pesPktLength r'
    end.

(** [MemoryTs.WritePESPacket]. *)
Definition WritePESPacket (fuel : nat) (ts : list bytes) (frame : MpegtsPESFrame)
    (packet : MpegTsPESPacket) : PESRun :=
  if negb (PacketStartCodePrefix (Header packet) =? 1) then
    mkPESRun ts frame [] [] (Returned (Some ErrStartCode))
  else
    WritePESPacket_loop fuel 0 packet (Payload packet) 0
      (mkPESRun ts frame [] [] Running).

(** The audio frame handed to the writer: the access-unit list with the
    byte length it records, and the timestamp. *)
Record AudioFrame := mkAudioFrame {
  AUList_ByteLength : Z;
  AUList_ToBuffers : Buffers;
  aPTS : Z
}.

(** [codec.AudioSpecificConfig.ToADTS] is a parameter: the header bytes it
    writes into the 7-byte buffer for a configuration and a raw length. *)
Variable AudioSpecificConfig : Type.
Variable ToADTS : AudioSpecificConfig -> Z -> bytes.

(** [mpegts.STREAM_ID_AUDIO], a constant of the missing package. *)
Variable STREAM_ID_AUDIO : Z.

(** The PES packet [WriteAudioFrame] builds.  [adts] is the 7-byte pool
    buffer after [ToADTS] wrote into it; bytes it left alone are the pool's,
    taken as zero. *)
Definition audio_packet (frame : AudioFrame) (aac_asc : AudioSpecificConfig)
    : MpegTsPESPacket :=
  let written := firstn 7 (ToADTS aac_asc (AUList_ByteLength frame)) in
  let adts := written ++ repeat 0 (7 - length written) in
  let pktLength := len adts + AUList_ByteLength frame + 8 in
  mkPESPacket
    (mkPESHeader 1 STREAM_ID_AUDIO (uint16 pktLength) 128 128 5
       (aPTS frame) 0)
    ([adts] ++ AUList_ToBuffers frame).

(** Packets written one after the other, each on the frame context its PID
    selects from [ctxs]; the result lists the headers handed out, tagged with
    the context they were built from. *)
Fixpoint WritePESPackets (fuel : nat) (ops : list (nat * MpegTsPESPacket))
    (ts : list bytes) (ctxs : list MpegtsPESFrame)
    : list bytes * list MpegtsPESFrame * list (nat * MpegTsHeader) :=
  match ops with
  | [] => (ts, ctxs, [])
  | (k, packet) :: ops' =>
      match nth_error ctxs k with
      | None => WritePESPackets fuel ops' ts ctxs
      | Some frame =>
          let r := WritePESPacket fuel ts frame packet in
          let '(ts', ctxs', tr) :=
            WritePESPackets fuel ops' (BLL r) (set_nth k (frame_ctx r) ctxs) in
          (ts', ctxs', map (pair k) (handed r) ++ tr)
      end
  end.

(** [MemoryTs.WriteAudioFrame]. *)
Definition WriteAudioFrame (fuel : nat) (ts : list bytes) (frame : AudioFrame)
    (aac_asc : AudioSpecificConfig) (pes : MpegtsPESFrame) : PESRun :=
  WritePESPacket fuel ts pes (audio_packet frame aac_asc).

End Packetizer.

(** Stand-ins for the two header writers, for runs on concrete inputs: a PES
    header writer that appends nothing and a TS header writer that appends
    and reports four bytes. *)
Definition PESHeader_stub : MpegTsPESHeader -> bytes * bool :=
  fun _ => ([], false).
Definition TsHeader_stub : MpegTsHeader -> bytes * Z * bool :=
  fun h => ([SyncByte h; 0; 0; hContinuityCounter h], 4, false).

(** A PES packet of [n] payload bytes in one fragment, with a good start
    code. *)
Definition sample_packet (n : nat) : MpegTsPESPacket :=
  mkPESPacket (mkPESHeader 1 224 0 128 192 10 0 0) [repeat 7 n].

(** ** Writing a sequence of frames *)

(** The keyframe slots resident in the cache. *)
Definition keyframes (t : Video) : Z :=
  len (filter (fun i => IFrame (slot t i)) (ring t)).

Section Writer.

Variable FillFLV : Z -> Z -> AVFrame -> Buffers.
Variable cfg : Config.

(** One access unit as the writer sees it: the keyframe flag the codec
    raises, the NALUs (at least one) and the timestamps. *)
Record AccessUnit := mkAccessUnit {
  au_key : bool;
  au_first : NALUSlice;
  au_more : list NALUSlice;
  au_pts : Z;
  au_dts : Z
}.

(** Modelled from the spec: the codec-specific track around [Video], which
    assembles one access unit in the slot under the cursor, raises the
    keyframe flag for an IDR picture, and on [Flush] runs the GOP bookkeeping
    "on every keyframe" before [Video.Flush] finalizes the frame. *)
Definition write_frame (t : Video) (au : AccessUnit) : Video :=
  let v := fold_left AppendRaw (au_first au :: au_more au) (Value t) in
  let t1 := set_Value t (set_IFrame (set_PTS_DTS v (au_pts au) (au_dts au)) (au_key au)) in
  let t2 := if au_key au then ComputeGOP t1 else t1 in
  Flush FillFLV cfg t2.

Definition write_frames (t : Video) (aus : list AccessUnit) : Video :=
  fold_left write_frame aus t.

End Writer.

(** A group of pictures: a keyframe followed by [n] other frames. *)
Definition plain_au (key : bool) : AccessUnit :=
  mkAccessUnit key [[101; 136]] [] 0 0.
Definition gop (n : nat) : list AccessUnit :=
  plain_au true :: repeat (plain_au false) n.

(** The keyframe slots among the slots [r] of a store. *)
Definition kf (sl : list AVFrame) (r : list nat) : Z :=
  len (filter (fun i => IFrame (nth i sl zero_frame)) r).

(** ** Vocabulary of the statements *)

Definition single (s : bytes) : NALUSlice := [s].

(** A ring is well formed when its slots are distinct, allocated, and at
    least two. *)
Definition ring_wf (t : Video) : Prop :=
  NoDup (ring t) /\ (2 <= length (ring t))%nat /\
  forall i, In i (ring t) -> (i < length (slots t))%nat.

(** The AVCC form [Flush] builds for a frame that has none yet. *)
Definition avcc_of (codecID : Z) (v : AVFrame) : Buffers :=
  ([Z.lor (uint8 codecID) (if IFrame v then 16 else 32); 1]
     ++ PutBE 3 (uint32 (PTS v - DTS v) / 90))
  :: flat_map (fun nalu => PutBE 4 (SizeOfBuffers nalu) :: nalu) (Raw v).

(** [parses n s ps rest]: [s] is the length-prefixed NALUs [ps], each behind
    an [n]-byte prefix that declares its length and each read while more than
    [n] bytes were left, followed by [rest]. *)
Inductive parses (n : Z) : bytes -> list bytes -> bytes -> Prop :=
| parses_stop (rest : bytes) : parses n rest [] rest
| parses_step (pre x tail : bytes) (ps : list bytes) (rest : bytes) :
    n < len (pre ++ x ++ tail) ->
    len pre = n ->
    int64 (ReadBE pre + n) = n + len x ->
    parses n tail ps rest ->
    parses n (pre ++ x ++ tail) (x :: ps) rest.

Definition byte_ok (x : Z) : Prop := 0 <= x < 256.

(** The byte string of length-prefixed NALUs. *)
Definition avcc_body (xs : list bytes) : bytes :=
  concat (map (fun x => PutBE 4 (len x) ++ x) xs).

(** The counters of consecutive headers: each is the successor modulo 16 of
    the one before, starting from [c]. *)
Fixpoint counters_from (c : Z) (hs : list MpegTsHeader) : Prop :=
  match hs with
  | [] => True
  | h :: hs' => hContinuityCounter h = c /\ counters_from ((c + 1) mod 16) hs'
  end.

(** The counter after [n] packets. *)
Definition advance (n : nat) (c : Z) : Z :=
  Nat.iter n (fun c => (c + 1) mod 16) c.

(** The headers of context [k] in a tagged trace. *)
Definition headers_of (k : nat) (tr : list (nat * MpegTsHeader)) : list MpegTsHeader :=
  map snd (filter (fun p => Nat.eqb (fst p) k) tr).

(** The state of the cache between two frames: the ring is well formed, the
    counter is the number of resident keyframe slots, the slot under the
    cursor is clear, and the recorded size, which only ever shrinks, is at
    most the ring's length. *)
Definition cache_inv (t : Video) : Prop :=
  ring_wf t /\ idrCount t = keyframes t /\ IFrame (Value t) = false
  /\ Size t <= len (ring t).

(** Slots of the ring that hold no keyframe. *)
Definition nonkey (t : Video) (l : list nat) : Prop :=
  Forall (fun i => IFrame (slot t i) = false) l.

(** The keyframe marker between two frames: before any keyframe the cache
    holds none; afterwards the marker is a slot of the ring behind which no
    keyframe was written, and once the marked slot has been overwritten the
    cache holds no keyframe at all. *)
Definition marker_inv (t : Video) : Prop :=
  match IDRing t with
  | None => nonkey t (ring t)
  | Some m =>
      (exists c pre post,
          ring t = c :: pre ++ m :: post /\ nonkey t post
          /\ (IFrame (slot t m) = false -> nonkey t pre))
      \/ (exists rest, ring t = m :: rest /\ nonkey t rest)
  end.

Definition track_inv (t : Video) : Prop :=
  ring_wf t /\ IFrame (Value t) = false /\ Size t <= len (ring t)
  /\ marker_inv t.


(** ** The video frame writer *)

Section PacketizerVocabulary.

Variable WriteTsHeader : MpegTsHeader -> bytes * Z * bool.

(** The buffers of a run that went through: behind the PES header, which
    only the first packet carries, each TS header is followed by its share of
    the payload. *)
Fixpoint assemble (first : bytes) (hs : list MpegTsHeader) (chunks : list bytes)
    : list bytes :=
  match hs, chunks with
  | h :: hs', ch :: chunks' =>
      (first ++ fst (fst (WriteTsHeader h)) ++ ch) :: assemble [] hs' chunks'
  | _, _ => []
  end.

End PacketizerVocabulary.

(** The video frame handed to the writer: the keyframe flag, the fragments
    its [GetAnnexB] returns, and the timestamps. *)
Record VideoFrame := mkVideoFrame {
  vIFrame : bool;
  vGetAnnexB : Buffers;
  vPTS : Z;
  vDTS : Z
}.

Section VideoPacketizer.

Variable WritePESHeader : MpegTsPESHeader -> bytes * bool.
Variable WriteTsHeader : MpegTsHeader -> bytes * Z * bool.

(** [codec.NALU_AUD_BYTE], [codec.AudNalu] and [mpegts.STREAM_ID_VIDEO] are
    constants of the missing packages, and [ParamaterSets.GetAnnexB] a method
    of package [common]: the fragments it returns for a list of parameter
    sets. *)
Variable NALU_AUD_BYTE : bytes.
Variable AudNalu : bytes.
Variable STREAM_ID_VIDEO : Z.
Variable ParamaterSets_GetAnnexB : list bytes -> Buffers.

(** The PES packet [WriteVideoFrame] builds. *)
Definition video_packet (frame : VideoFrame) (paramaterSets : list bytes)
    : MpegTsPESPacket :=
  let buffer :=
    if (length paramaterSets =? 2)%nat then [NALU_AUD_BYTE] else [AudNalu] in
  let buffer :=
    if vIFrame frame then buffer ++ ParamaterSets_GetAnnexB paramaterSets
    else buffer in
  let buffer := buffer ++ vGetAnnexB frame in
  let pktLength := SizeOfBuffers buffer + 10 + 3 in
  let pktLength := if pktLength >? 65535 then 0 else pktLength in
  mkPESPacket
    (mkPESHeader 1 STREAM_ID_VIDEO (uint16 pktLength) 128 192 10
       (vPTS frame) (vDTS frame))
    buffer.

(** [MemoryTs.WriteVideoFrame]. *)
Definition WriteVideoFrame (fuel : nat) (ts : list bytes) (frame : VideoFrame)
    (paramaterSets : list bytes) (pes : MpegtsPESFrame) : PESRun :=
  WritePESPacket WritePESHeader WriteTsHeader fuel ts pes
    (video_packet frame paramaterSets).

End VideoPacketizer.

(** ** The track of a codec not known yet ([UnknowVideo]) *)

(** What [UnknowVideo.WriteAVCC] uses of the missing packages: the track
    behind the [VideoTrack] interface with its own [WriteAVCC], the
    constructors [NewH264] and [NewH265] applied to the stream,
    [AVCCFrame.IsSequence] and [AVCCFrame.VideoCodecID] of package [common],
    and the codec ids of package [codec] with their [String]. *)
Class VideoTracks := {
  VideoTrack : Type;
  NewH264 : VideoTrack;
  NewH265 : VideoTrack;
  Track_WriteAVCC : Z -> bytes -> VideoTrack -> VideoTrack;
  IsSequence : bytes -> bool;
  VideoCodecID : bytes -> Z;
  CodecID_String : Z -> String.string;
  CodecID_H264 : Z;
  CodecID_H265 : Z
}.

(** The lines [UnknowVideo.WriteAVCC] logs. *)
Inductive UnknownLog : Type :=
| codec_not_supported (codecID : Z)
| need_sequence_frame.

(** [UnknowVideo]: the name of the embedded [Base], the track once it is
    known ([nil] before), and the lines logged. *)
Record UnknowVideo `{VideoTracks} := mkUnknowVideo {
  Name : String.string;
  VideoTrack_of : option VideoTrack;
  unknown_log : list UnknownLog
}.

(** [UnknowVideo.WriteAVCC]. *)
Definition UnknowVideo_WriteAVCC `{VideoTracks} (vt : UnknowVideo) (ts : Z)
    (frame : bytes) : UnknowVideo :=
  match VideoTrack_of vt with
  | None =>
      if IsSequence frame then
        let ts := 0 in
        let codecID := VideoCodecID frame in
        let name := if String.eqb (Name vt) String.EmptyString
                    then CodecID_String codecID else Name vt in
        if codecID =? CodecID_H264 then
          mkUnknowVideo _ name (Some (Track_WriteAVCC ts frame NewH264))
            (unknown_log vt)
        else if codecID =? CodecID_H265 then
          mkUnknowVideo _ name (Some (Track_WriteAVCC ts frame NewH265))
            (unknown_log vt)
        else
          mkUnknowVideo _ name None
            (unknown_log vt ++ [codec_not_supported codecID])
      else
        mkUnknowVideo _ (Name vt) None (unknown_log vt ++ [need_sequence_frame])
  | Some track =>
      mkUnknowVideo _ (Name vt) (Some (Track_WriteAVCC ts frame track))
        (unknown_log vt)
  end.

(** [UnknowVideo.WriteAnnexB]: the method body is empty. *)
Definition UnknowVideo_WriteAnnexB `{VideoTracks} (vt : UnknowVideo)
    (pts dts : Z) (frame : bytes) : UnknowVideo := vt.

(** Frames written one after the other, each with its timestamp. *)
Definition UnknowVideo_WriteAVCCs `{VideoTracks} (vt : UnknowVideo)
    (frames : list (Z * bytes)) : UnknowVideo :=
  fold_left (fun vt f => UnknowVideo_WriteAVCC vt (fst f) (snd f)) frames vt.

(** A frame that opens the track: a sequence header of H.264 or H.265. *)
Definition opens `{VideoTracks} (frame : bytes) : bool :=
  IsSequence frame
  && ((VideoCodecID frame =? CodecID_H264) || (VideoCodecID frame =? CodecID_H265)).

(** The frames a track has been given, in order. *)
Definition forward `{VideoTracks} (track : VideoTrack) (frames : list (Z * bytes))
    : VideoTrack :=
  fold_left (fun tr f => Track_WriteAVCC (fst f) (snd f) tr) frames track.

(** The names of the two codecs, as [String] gives them. *)
Module codec_names.
Import String.
Definition h264 : String.string := "h264"%string.
Definition h265 : String.string := "h265"%string.
End codec_names.

(** Tracks that record their codec and what they were given, for runs on
    concrete frames: the codec id is the low nibble of the first byte and a
    sequence header has packet type 0. *)
Definition recording_tracks : VideoTracks :=
  {| VideoTrack := Z * list (Z * bytes);
     NewH264 := (7, []);
     NewH265 := (12, []);
     Track_WriteAVCC := fun ts frame tr => (fst tr, snd tr ++ [(ts, frame)]);
     IsSequence := fun frame => nth 1 frame 1 =? 0;
     VideoCodecID := fun frame => Z.land (nth 0 frame 0) 15;
     CodecID_String := fun c => if c =? 7 then codec_names.h264 else codec_names.h265;
     CodecID_H264 := 7;
     CodecID_H265 := 12 |}.

(** ** Vocabulary of the further statements *)

(** A NALU as the Annex-B ingest should leave it: not empty, and free of
    start codes. *)
Definition clean (x : bytes) : Prop :=
  x <> [] /\ occurs NALU_Delimiter1 x = false /\ occurs NALU_Delimiter2 x = false.

(** A TS header after the first of a call: no payload-unit start, no PCR,
    and the adaptation field the PES length [L] commands. *)
Definition later_header (pid L : Z) (h : MpegTsHeader) : Prop :=
  h = mkTsHeader 71 0 0 0 pid 0 (if L <? 184 then 3 else 1)
        (hContinuityCounter h) (if L <? 184 then 183 - L else 0) 0 0 0.

(** [remaining frame rest]: [rest] is what is left of the input behind a
    4-byte start code, or the whole input. *)
Definition remaining (frame rest : bytes) : Prop :=
  frame = rest \/ exists p, frame = p ++ NALU_Delimiter2 ++ rest.

(** Header writers of the sizes the code counts on, for runs on concrete
    inputs: a PES header of 14 bytes (the 9 of its fixed part and the 5 of a
    PTS), and a TS header of 4 bytes, or of 6 with an adaptation field,
    followed by the stuffing of the field. *)
Definition PESHeader_sized : MpegTsPESHeader -> bytes * bool :=
  fun h => ([0; 0; 1; StreamID h] ++ repeat 0 10, false).
Definition TsHeader_sized : MpegTsHeader -> bytes * Z * bool :=
  fun h =>
    if AdaptionFieldControl h >=? 2 then
      ([SyncByte h; 0; 0; hContinuityCounter h; AdaptationFieldLength h; 0]
         ++ repeat 255 (Z.to_nat (AdaptationFieldLength h - 1)), 6, false)
    else ([SyncByte h; 0; 0; hContinuityCounter h], 4, false).

(** A [FillFLV] that shows what it was given: the tag type and the
    timestamp, then the AVCC form of the frame. *)
Definition FLV_stub : Z -> Z -> AVFrame -> Buffers :=
  fun tag ts v => [tag; ts] :: AVCC v.

(** A cache of three slots, the writer on the last one: slot 0 holds the
    only keyframe and is next; and the same cache one frame earlier, where
    the slot that is next holds no keyframe. *)
Definition sole_keyframe_cache : Video :=
  mkVideo [mkAVFrame 0 true 0 0 [] [] [[[101; 136]]];
           mkAVFrame 1 false 3600 3600 [] [] [[[65; 154]]];
           mkAVFrame 2 false 7200 7200 [] [] [[[65; 155]]]]
          [2; 0; 1]%nat 3 7 (Some 0%nat) 0 4 1 [].
Definition early_cache : Video :=
  mkVideo [mkAVFrame 0 true 0 0 [] [] [[[101; 136]]];
           mkAVFrame 1 false 3600 3600 [] [] [[[65; 154]]];
           mkAVFrame 0 false 0 0 [] [] []]
          [1; 2; 0]%nat 3 7 (Some 0%nat) 0 4 1 [].


(** * Properties *)

(** ** [bytes.Cut] *)

Lemma Cut_cons (b : Z) (t sep : bytes) :
  Cut (b :: t) sep =
  if HasPrefix (b :: t) sep then ([], skipn (length sep) (b :: t), true)
  else let '(before, after, found) := Cut t sep in (b :: before, after, found).
Proof. reflexivity. Qed.

Lemma skipn_shorter {A} (n : nat) (l : list A) :
  (0 < n)%nat -> l <> [] -> (length (skipn n l) < length l)%nat.
Proof.
  intros Hn Hl. rewrite length_skipn. destruct l; [congruence|cbn [length]; lia].
Qed.

Lemma HasPrefix_app (s sep : bytes) :
  HasPrefix s sep = true -> s = sep ++ skipn (length sep) s.
Proof.
  revert s; induction sep as [|x sep IH]; intros [|y s] H; simpl in *;
    try discriminate; auto.
  apply andb_prop in H as [H1 H2]. apply Z.eqb_eq in H1; subst.
  f_equal; auto.
Qed.

Lemma HasPrefix_mono (s r sep : bytes) :
  HasPrefix s sep = true -> HasPrefix (s ++ r) sep = true.
Proof.
  revert s; induction sep as [|x sep IH]; intros [|y s] H; simpl in *;
    try discriminate; auto.
  apply andb_prop in H as [H1 H2]. rewrite H1, IH; auto.
Qed.

Lemma Cut_found (s sep before after : bytes) :
  Cut s sep = (before, after, true) -> s = before ++ sep ++ after.
Proof.
  revert before; induction s as [|b t IH]; intros before H.
  - simpl in H. destruct sep; inversion H; reflexivity.
  - rewrite Cut_cons in H. destruct (HasPrefix (b :: t) sep) eqn:E.
    + inversion H; subst. simpl. now apply HasPrefix_app.
    + destruct (Cut t sep) as [[bf af] f] eqn:C. inversion H; subst.
      simpl. f_equal. now apply IH.
Qed.

Lemma Cut_not_found (s sep before after : bytes) :
  Cut s sep = (before, after, false) -> before = s /\ after = [].
Proof.
  revert before; induction s as [|b t IH]; intros before H.
  - simpl in H. destruct sep; inversion H; auto.
  - rewrite Cut_cons in H. destruct (HasPrefix (b :: t) sep) eqn:E;
      [discriminate|].
    destruct (Cut t sep) as [[bf af] f] eqn:C. inversion H; subst.
    destruct (IH _ eq_refl); subst; auto.
Qed.

(** ** Annex-B ingest *)

Lemma spans1_from_unfold (cur s : bytes) :
  spans1_from cur s =
  if HasPrefix s NALU_Delimiter1 then emit cur ++ spans1_from [] (skipn 3 s)
  else match s with
       | [] => emit cur
       | b :: t => spans1_from (cur ++ [b]) t
       end.
Proof.
  destruct s as [|[|p|p] [|[|q|q] [|[|r|r] t]]]; try reflexivity;
    try (destruct p; reflexivity); try (destruct q; reflexivity);
    try (destruct r; reflexivity).
Qed.

Lemma spans_from_unfold (cur s : bytes) :
  spans_from cur s =
  if HasPrefix s NALU_Delimiter2 then emit cur ++ spans_from [] (skipn 4 s)
  else if HasPrefix s NALU_Delimiter1 then emit cur ++ spans_from [] (skipn 3 s)
  else match s with
       | [] => emit cur
       | b :: t => spans_from (cur ++ [b]) t
       end.
Proof.
  destruct s as [|[|p|p] [|[|q|q] [|[|r|r] [|[|u|u] t]]]]; try reflexivity;
    try (destruct p; reflexivity); try (destruct q; reflexivity);
    try (destruct r; reflexivity); try (destruct u; reflexivity).
Qed.

Lemma spans1_from_Cut (s cur : bytes) :
  spans1_from cur s =
  let '(before, after, found) := Cut s NALU_Delimiter1 in
  if found then emit (cur ++ before) ++ spans1_from [] after
  else emit (cur ++ s).
Proof.
  revert cur; induction s as [|b t IH]; intros cur.
  - simpl. now rewrite app_nil_r.
  - rewrite spans1_from_unfold, Cut_cons.
    destruct (HasPrefix (b :: t) NALU_Delimiter1) eqn:E.
    + now rewrite app_nil_r.
    + rewrite IH. destruct (Cut t NALU_Delimiter1) as [[bf af] f].
      now rewrite <- !app_assoc.
Qed.

Lemma emit_cons (b : Z) (t : bytes) : emit (b :: t) = [b :: t].
Proof. reflexivity. Qed.

Lemma Raw_WriteSlice v n : Raw (WriteSlice v n) = Raw v ++ [n].
Proof. reflexivity. Qed.

Lemma Raw_writeAnnexBSlice (s : bytes) (v : AVFrame) :
  Raw (writeAnnexBSlice s v) = Raw v ++ map single (spans1_from [] s).
Proof.
  funelim (writeAnnexBSlice s v).
  - simpl. now rewrite app_nil_r.
  - rewrite H, (spans1_from_Cut (b :: t)), e. clear.
    destruct before; simpl; [reflexivity|].
    now rewrite <- app_assoc.
  - rewrite (spans1_from_Cut (b :: t)), e. reflexivity.
Qed.

(** Inside a span that the 4-byte cut produced, the one-pass reading and the
    3-byte reading coincide: a 4-byte start code ends in a 3-byte one, and no
    3-byte start code straddles a cut. *)
Lemma spans_from_Cut (n : nat) : forall (s cur : bytes),
  (length s <= n)%nat ->
  spans_from cur s =
  let '(before, after, found) := Cut s NALU_Delimiter2 in
  if found then spans1_from cur before ++ spans_from [] after
  else spans1_from cur s.
Proof.
  induction n as [|n IH]; intros s cur Hn.
  - destruct s; [reflexivity | simpl in Hn; lia].
  - destruct s as [|b t]; [reflexivity|].
    rewrite spans_from_unfold, Cut_cons.
    destruct (HasPrefix (b :: t) NALU_Delimiter2) eqn:E2; [reflexivity|].
    destruct (HasPrefix (b :: t) NALU_Delimiter1) eqn:E1.
    + apply HasPrefix_app in E1. simpl in E1.
      destruct t as [|c [|d t']]; inversion E1; subst.
      rewrite !Cut_cons. simpl HasPrefix. cbn [skipn andb].
      assert (Ht : (length t' <= n)%nat) by (simpl in Hn; lia).
      specialize (IH t' [] Ht).
      destruct (Cut t' NALU_Delimiter2) as [[bf af] f].
      destruct f; simpl; rewrite IH, <- ?app_assoc; reflexivity.
    + assert (Ht : (length t <= n)%nat) by (simpl in Hn; lia).
      specialize (IH t (cur ++ [b]) Ht).
      destruct (Cut t NALU_Delimiter2) as [[bf af] f] eqn:C.
      destruct f.
      * rewrite IH. f_equal.
        rewrite (spans1_from_unfold cur (b :: bf)).
        destruct (HasPrefix (b :: bf) NALU_Delimiter1) eqn:E; [|reflexivity].
        apply Cut_found in C. subst t.
        apply (HasPrefix_mono _ (NALU_Delimiter2 ++ af)) in E.
        simpl app in E, E1. congruence.
      * rewrite IH, (spans1_from_unfold cur (b :: t)), E1. reflexivity.
Qed.

Lemma Raw_WriteAnnexB_loop (pts dts : Z) (frame : bytes) (v : AVFrame) :
  Raw (WriteAnnexB_loop pts dts frame v) = Raw v ++ map single (spans frame).
Proof.
  unfold spans. funelim (WriteAnnexB_loop pts dts frame v).
  - simpl. now rewrite app_nil_r.
  - rewrite H. rewrite (spans_from_Cut _ (b :: t) [] (le_n _)), e. clear.
    rewrite map_app, app_assoc. f_equal.
    destruct before; [simpl; now rewrite app_nil_r|].
    apply Raw_writeAnnexBSlice.
  - rewrite (spans_from_Cut _ (b :: t) [] (le_n _)), e.
    cbv zeta. destruct (is_nil _); [|cbn [Raw set_PTS_DTS]];
      apply Raw_writeAnnexBSlice.
Qed.

Lemma writeAnnexBSlice_not_found (s : bytes) (v : AVFrame) :
  s <> [] -> occurs NALU_Delimiter1 s = false ->
  writeAnnexBSlice s v = WriteSlice v [s].
Proof.
  unfold occurs. funelim (writeAnnexBSlice s v); intros Hs Ho.
  - congruence.
  - rewrite e in Ho. discriminate.
  - reflexivity.
Qed.

Lemma WriteAnnexB_loop_not_found (pts dts : Z) (frame : bytes) (v : AVFrame) :
  frame <> [] -> occurs NALU_Delimiter2 frame = false ->
  WriteAnnexB_loop pts dts frame v =
  let v' := writeAnnexBSlice frame v in
  if is_nil (Raw v') then v' else set_PTS_DTS v' pts dts.
Proof.
  unfold occurs. funelim (WriteAnnexB_loop pts dts frame v); intros Hs Ho.
  - congruence.
  - rewrite e in Ho. discriminate.
  - reflexivity.
Qed.



(** ** Frame slots *)

Lemma nth_set_nth {A} (l : list A) (i j : nat) (x d : A) :
  nth j (set_nth i x l) d =
  if (Nat.eqb i j && Nat.ltb i (length l))%bool then x else nth j l d.
Proof.
  revert i j; induction l as [|y l IH]; intros i j.
  - destruct i, j; simpl; rewrite ?andb_false_r; reflexivity.
  - destruct i, j; simpl; auto.
Qed.

Lemma length_set_nth {A} (l : list A) (i : nat) (x : A) :
  length (set_nth i x l) = length l.
Proof.
  revert i; induction l as [|y l IH]; intros [|i]; simpl; auto.
Qed.

Lemma slot_set_Value (t : Video) (v : AVFrame) (i : nat) :
  slot (set_Value t v) i =
  if (Nat.eqb (cursor t) i && Nat.ltb (cursor t) (length (slots t)))%bool
  then v else slot t i.
Proof. unfold slot, set_Value. simpl. apply nth_set_nth. Qed.

Lemma cursor_in_slots (t : Video) :
  ring_wf t -> (cursor t < length (slots t))%nat.
Proof.
  intros (_ & Hl & Hin). apply Hin. unfold cursor.
  destruct (ring t); [simpl in Hl; lia|now left].
Qed.

Lemma Value_set_Value (t : Video) (v : AVFrame) :
  ring_wf t -> Value (set_Value t v) = v.
Proof.
  intros Hwf. unfold Value. rewrite slot_set_Value.
  change (cursor (set_Value t v)) with (cursor t). rewrite Nat.eqb_refl.
  pose proof (cursor_in_slots t Hwf).
  destruct (Nat.ltb_spec (cursor t) (length (slots t))); [reflexivity|lia].
Qed.

Lemma ring_wf_set_Value (t : Video) (v : AVFrame) :
  ring_wf t -> ring_wf (set_Value t v).
Proof.
  unfold ring_wf, set_Value. cbn [ring slots set_slots].
  now rewrite length_set_nth.
Qed.

Lemma ring_wf_new_track (n : nat) (codecID nalulen : Z) :
  (2 <= n)%nat -> ring_wf (new_track n codecID nalulen).
Proof.
  intros Hn. unfold ring_wf, new_track. cbn [ring slots].
  split; [apply seq_NoDup|]. split; [now rewrite length_seq|].
  intros i Hi. apply in_seq in Hi. rewrite repeat_length. lia.
Qed.

Lemma AVCC_fold_AppendAVCC (raw : list NALUSlice) (v : AVFrame) :
  let v' := fold_left (fun v' nalu =>
               AppendAVCC (AppendAVCC v' [PutBE 4 (SizeOfBuffers nalu)]) nalu)
              raw v in
  AVCC v' = AVCC v ++ flat_map (fun nalu => PutBE 4 (SizeOfBuffers nalu) :: nalu) raw
  /\ Raw v' = Raw v /\ IFrame v' = IFrame v /\ PTS v' = PTS v /\ DTS v' = DTS v
  /\ SeqInTrack v' = SeqInTrack v /\ FLV v' = FLV v.
Proof.
  cbv zeta. revert v; induction raw as [|n raw IH]; intros v.
  - simpl. rewrite app_nil_r. tauto.
  - cbn [fold_left flat_map].
    destruct (IH (AppendAVCC (AppendAVCC v [PutBE 4 (SizeOfBuffers n)]) n))
      as (H1 & H2 & H3 & H4 & H5 & H6 & H7).
    rewrite H1, H2, H3, H4, H5, H6, H7. simpl.
    rewrite <- !app_assoc. simpl. tauto.
Qed.

Lemma Flush_AVCC_spec (cfg : Config) (codecID : Z) (v : AVFrame) :
  let v' := Flush_AVCC cfg codecID v in
  Raw v' = Raw v /\ IFrame v' = IFrame v /\ PTS v' = PTS v /\ DTS v' = DTS v
  /\ SeqInTrack v' = SeqInTrack v
  /\ AVCC v' = if is_nil (AVCC v) && (EnableAVCC cfg || EnableFLV cfg)
               then avcc_of codecID v else AVCC v.
Proof.
  cbv zeta. unfold Flush_AVCC.
  destruct (is_nil (AVCC v) && (EnableAVCC cfg || EnableFLV cfg)) eqn:E;
    [|tauto].
  destruct (AVCC_fold_AppendAVCC (Raw v)
              (AppendAVCC v [[Z.lor (uint8 codecID) (if IFrame v then 16 else 32); 1]
                               ++ PutBE 3 (uint32 (PTS v - DTS v) / 90)]))
    as (H1 & H2 & H3 & H4 & H5 & H6 & H7).
  cbv zeta in H1, H2, H3, H4, H5, H6. rewrite H1, H2, H3, H4, H5, H6.
  cbn [AppendAVCC AVCC Raw IFrame PTS DTS SeqInTrack].
  repeat split; try reflexivity.
  apply andb_prop in E as [E _]. destruct (AVCC v); [|discriminate].
  reflexivity.
Qed.

Lemma slot_Media_Flush_other (t : Video) (c n i : nat) (rest : list nat) :
  ring t = c :: n :: rest -> i <> n -> slot (Media_Flush t) i = slot t i.
Proof.
  intros Hr Hi. unfold Media_Flush. cbv zeta. rewrite slot_set_Value.
  unfold cursor. cbn [ring set_ring]. rewrite Hr. cbn [hd app].
  destruct (Nat.eqb_spec n i); [congruence|]. reflexivity.
Qed.

Lemma slot_Link_new (t : Video) (k i : nat) :
  (i < length (slots t))%nat -> slot (Link_new t k) i = slot t i.
Proof.
  intros Hi. unfold slot, Link_new. simpl. now rewrite app_nth1.
Qed.

Section FlushProps.

Variable FillFLV : Z -> Z -> AVFrame -> Buffers.
Variable cfg : Config.

(** The slot [Flush] finalizes holds the completed frame once the cursor has
    moved on. *)
Lemma Flush_finalized (t : Video) :
  ring_wf t -> Raw (Value t) <> [] ->
  slot (Flush FillFLV cfg t) (cursor t)
  = Flush_FLV FillFLV cfg (Flush_AVCC cfg (CodecID t) (Value t)).
Proof.
  intros (Hnd & Hlen & Hin) Hraw. unfold Flush.
  destruct (Raw (Value t)) as [|r0 raw] eqn:E; [congruence|].
  cbn [is_nil]. cbv zeta.
  destruct (ring t) as [|c [|n rest]] eqn:Hr; try (simpl in Hlen; lia).
  assert (Hc : (c < length (slots t))%nat) by (apply Hin; now left).
  assert (Hcn : c <> n).
  { inversion Hnd as [|? ? Hnotin _]; subst. intros ->. apply Hnotin. now left. }
  set (v1 := Flush_FLV FillFLV cfg (Flush_AVCC cfg (CodecID t) (Value t))).
  assert (Hcur : cursor t = c) by (unfold cursor; now rewrite Hr).
  assert (H1 : slot (set_Value t v1) c = v1).
  { rewrite slot_set_Value, Hcur, Nat.eqb_refl.
    destruct (Nat.ltb_spec c (length (slots t))); [reflexivity|lia]. }
  rewrite Hcur.
  destruct (IFrame (slot (set_Value t v1) (Next (set_Value t v1)))).
  - destruct (idrCount (set_Value t v1) =? 1).
    + destruct (Size (set_Value t v1) <? 256).
      * rewrite (slot_Media_Flush_other _ c (length (slots (set_Value t v1))) c
                   (seq (S (length (slots (set_Value t v1)))) 4 ++ n :: rest)).
        -- rewrite slot_Link_new; [exact H1|].
           unfold set_Value; simpl. now rewrite length_set_nth.
        -- unfold Link_new. cbn [ring set_ring set_slots set_Value]. rewrite Hr.
           reflexivity.
        -- unfold set_Value; simpl. rewrite length_set_nth. lia.
      * rewrite (slot_Media_Flush_other _ c n c rest); auto.
    + rewrite (slot_Media_Flush_other _ c n c rest); auto.
  - rewrite (slot_Media_Flush_other _ c n c rest); auto.
Qed.

Lemma Flush_finalized_AVCC (t : Video) :
  ring_wf t -> Raw (Value t) <> [] ->
  AVCC (slot (Flush FillFLV cfg t) (cursor t))
  = if is_nil (AVCC (Value t)) && (EnableAVCC cfg || EnableFLV cfg)
    then avcc_of (CodecID t) (Value t) else AVCC (Value t).
Proof.
  intros Hwf Hraw. rewrite (Flush_finalized t Hwf Hraw).
  destruct (Flush_AVCC_spec cfg (CodecID t) (Value t)) as (_ & _ & _ & _ & _ & HA).
  cbv zeta in HA. rewrite <- HA. unfold Flush_FLV.
  destruct (is_nil (FLV _) && EnableFLV cfg); reflexivity.
Qed.

End FlushProps.

Lemma lor_flag (c x : Z) :
  0 <= c < 16 -> x = 16 \/ x = 32 -> Z.lor (uint8 c) x = c + x.
Proof.
  intros Hc Hx. unfold uint8. rewrite Z.mod_small by lia.
  assert (H : c = 0 \/ c = 1 \/ c = 2 \/ c = 3 \/ c = 4 \/ c = 5 \/ c = 6
              \/ c = 7 \/ c = 8 \/ c = 9 \/ c = 10 \/ c = 11 \/ c = 12
              \/ c = 13 \/ c = 14 \/ c = 15) by lia.
  destruct Hx; subst x;
    repeat (destruct H as [H|H]; [subst c; reflexivity|]); subst c; reflexivity.
Qed.

Section FlushAVCC.

Variable FillFLV : Z -> Z -> AVFrame -> Buffers.
Variable cfg : Config.

(** C4 (amended). For a frame with raw NALU payload whose AVCC form is not
    yet memoized, [Flush] with AVCC or FLV generation enabled builds it as: a
    prefix byte equal to the codec id OR-ed with 0x10 for a keyframe and 0x20
    otherwise, one packet-type byte equal to 1, the 3-byte big-endian
    composition time (PTS-DTS)/90 in 32-bit unsigned arithmetic, then each
    NALU as a 4-byte big-endian length followed by its fragments; a memoized
    form is left as it is.  For codec ids below 16 the prefix byte is the
    codec id plus 0x10 or 0x20.  For SPS, PPS and IDR slice at pts = dts = 0
    and codec id 7 the output begins 0x17 01 00 00 00. *)
Theorem Flush_builds_AVCC (t : Video) :
  ring_wf t -> Raw (Value t) <> [] ->
  let v := Value t in
  let f := slot (Flush FillFLV cfg t) (cursor t) in
  (AVCC v = [] -> EnableAVCC cfg || EnableFLV cfg = true ->
   AVCC f =
     ([Z.lor (uint8 (CodecID t)) (if IFrame v then 16 else 32); 1]
        ++ PutBE 3 (uint32 (PTS v - DTS v) / 90))
     :: flat_map (fun nalu => PutBE 4 (SizeOfBuffers nalu) :: nalu) (Raw v))
  /\ (AVCC v <> [] -> AVCC f = AVCC v)
  /\ (0 <= CodecID t < 16 ->
      Z.lor (uint8 (CodecID t)) (if IFrame v then 16 else 32)
      = CodecID t + (if IFrame v then 16 else 32))
  /\ (forall sps pps idr : bytes,
        AVCC v = [] -> EnableAVCC cfg || EnableFLV cfg = true ->
        Raw v = [[sps]; [pps]; [idr]] -> IFrame v = true -> CodecID t = 7 ->
        PTS v = 0 -> DTS v = 0 ->
        concat (AVCC f) =
          [23; 1; 0; 0; 0] ++ PutBE 4 (len sps) ++ sps
            ++ PutBE 4 (len pps) ++ pps ++ PutBE 4 (len idr) ++ idr).
Proof.
  intros Hwf Hraw v f. subst f.
  rewrite (Flush_finalized_AVCC FillFLV cfg t Hwf Hraw). fold v.
  split; [|split; [|split]].
  - intros Hnil Hen. rewrite Hnil, Hen. reflexivity.
  - intros Hnn. destruct (AVCC v); [congruence|reflexivity].
  - intros Hc. apply lor_flag; [exact Hc|]. destruct (IFrame v); auto.
  - intros sps pps idr Hnil Hen HR HI HC HP HD.
    rewrite Hnil, Hen. unfold avcc_of. rewrite HR, HI, HC, HP, HD.
    unfold SizeOfBuffers. simpl. rewrite !app_nil_r.
    rewrite <- ?app_assoc. reflexivity.
Qed.

End FlushAVCC.

Lemma Flush_builds_AVCC_witness :
  let cfg := mkConfig true false in
  let memo := set_Value scenario_track (AppendAVCC (Value scenario_track) [[9]]) in
  concat (AVCC (slot (Flush no_FLV cfg scenario_track) 0))
  = [23; 1; 0; 0; 0] ++ [0; 0; 0; 4] ++ scenario_SPS
      ++ [0; 0; 0; 4] ++ scenario_PPS ++ [0; 0; 0; 5] ++ scenario_IDR
  /\ AVCC (slot (Flush no_FLV cfg scenario_track) 0)
     = [23; 1; 0; 0; 0] :: [[0; 0; 0; 4]; scenario_SPS; [0; 0; 0; 4]; scenario_PPS;
                            [0; 0; 0; 5]; scenario_IDR]
  /\ AVCC (slot (Flush no_FLV cfg memo) 0) = [[9]]
  /\ Z.lor (uint8 7) 16 = 7 + 16.
Proof.
  cbv zeta.
  assert (Hwf : ring_wf scenario_track).
  { apply ring_wf_set_Value. apply ring_wf_new_track. lia. }
  assert (Hraw : Raw (Value scenario_track) <> []) by (vm_compute; discriminate).
  destruct (Flush_builds_AVCC no_FLV (mkConfig true false) scenario_track Hwf Hraw)
    as (Hbuild & _ & Hlor & Hscn).
  assert (Hwf' : ring_wf (set_Value scenario_track
                            (AppendAVCC (Value scenario_track) [[9]])))
    by now apply ring_wf_set_Value.
  assert (Hraw' : Raw (Value (set_Value scenario_track
                                (AppendAVCC (Value scenario_track) [[9]]))) <> [])
    by (vm_compute; discriminate).
  destruct (Flush_builds_AVCC no_FLV (mkConfig true false) _ Hwf' Hraw')
    as (_ & Hmemo & _).
  split; [|split; [|split]].
  - apply (Hscn scenario_SPS scenario_PPS scenario_IDR); reflexivity.
  - apply Hbuild; reflexivity.
  - apply Hmemo. vm_compute. discriminate.
  - apply Hlor. change (0 <= 7 < 16). lia.
Defined.

(** C4, as stated, fails on the scenario: the byte after the prefix is the
    packet type 1, not a zero. *)
Lemma Flush_AVCC_reserved_byte_counterexample :
  firstn 5 (concat (AVCC (slot (Flush no_FLV (mkConfig true false) scenario_track) 0)))
    = [23; 1; 0; 0; 0]
  /\ firstn 5 (concat (AVCC (slot (Flush no_FLV (mkConfig true false) scenario_track) 0)))
    <> [23; 0; 0; 0; 0].
Proof. split; [reflexivity | vm_compute; discriminate]. Qed.

(** ** AVCC ingest *)

Lemma len_app {A} (a b : list A) : len (a ++ b) = len a + len b.
Proof. unfold len. rewrite length_app. lia. Qed.

Lemma len_nonneg {A} (a : list A) : 0 <= len a.
Proof. unfold len. lia. Qed.

Lemma slice_split {A} (s : list A) (n e : Z) :
  0 <= n <= e -> e <= len s ->
  s = slice_to n s ++ slice_from n (slice_to e s) ++ slice_from e s
  /\ len (slice_to n s) = n /\ len (slice_from n (slice_to e s)) = e - n.
Proof.
  intros Hn He. unfold slice_to, slice_from, len in *.
  split; [|split].
  - rewrite app_assoc.
    replace (firstn (Z.to_nat n) s)
      with (firstn (Z.to_nat n) (firstn (Z.to_nat e) s))
      by (rewrite firstn_firstn; f_equal; lia).
    now rewrite !firstn_skipn.
  - rewrite length_firstn. lia.
  - rewrite length_skipn, length_firstn. lia.
Qed.

Lemma WriteAVCC_loop_parses (n : Z) (nalus : bytes) (st : AVFrame * list LogEvent) :
  forall st', WriteAVCC_loop n nalus st = Ok st' ->
  exists ps rest,
    parses n nalus ps rest
    /\ Raw (fst st') = Raw (fst st) ++ map single ps
    /\ ((len rest <= n /\ snd st' = snd st)
        \/ (n < len rest
            /\ len rest < int64 (ReadBE (slice_to n rest) + n)
            /\ snd st' = snd st ++
                 [WriteAVCC_error (len rest) n (int64 (ReadBE (slice_to n rest) + n))])).
Proof.
  funelim (WriteAVCC_loop n nalus st); intros st' Hst'; try discriminate.
  - inversion Hst'; subst st'. exists [], nalus. split; [constructor|].
    split; [simpl; now rewrite app_nil_r|]. left. split; [lia|reflexivity].
  - inversion Hst'; subst st'. exists [], nalus. split; [constructor|].
    split; [simpl; now rewrite app_nil_r|]. right. simpl. repeat split; lia.
  - destruct (H st' Hst') as (ps & rest & Hp & HR & Hstop). clear H.
    set (endpos := int64 (ReadBE (slice_to nalulenSize0 nalus) + nalulenSize0)) in *.
    destruct (slice_split nalus nalulenSize0 endpos) as (Hs & Hl1 & Hl2); [lia|lia|].
    exists (slice_from nalulenSize0 (slice_to endpos nalus) :: ps), rest.
    split; [|split].
    + rewrite Hs at 1. constructor; [rewrite <- Hs; lia|exact Hl1| |exact Hp].
      fold endpos. lia.
    + rewrite HR. simpl. now rewrite <- app_assoc.
    + exact Hstop.
Qed.

Lemma int64_small (x : Z) : - 2 ^ 63 <= x < 2 ^ 63 -> int64 x = x.
Proof. intros H. unfold int64. rewrite Z.mod_small; lia. Qed.

Lemma fold_BE_bound (b : bytes) (acc : Z) :
  Forall byte_ok b -> 0 <= acc ->
  0 <= fold_left (fun a x => a * 256 + x) b acc < (acc + 1) * 256 ^ len b.
Proof.
  intros Hb; revert acc; induction Hb as [|x b Hx Hb IH]; intros acc Hacc.
  - simpl. unfold len; simpl. lia.
  - cbn [fold_left]. unfold byte_ok in Hx.
    specialize (IH (acc * 256 + x) ltac:(lia)).
    replace (len (x :: b)) with (len b + 1) by (unfold len; simpl length; lia).
    rewrite Z.pow_add_r by (try apply len_nonneg; lia).
    assert (0 < 256 ^ len b) by (apply Z.pow_pos_nonneg; [lia|apply len_nonneg]).
    nia.
Qed.

Lemma BE_bound (b : bytes) :
  Forall byte_ok b -> 0 <= BE b < 256 ^ len b.
Proof.
  intros Hb. pose proof (fold_BE_bound b 0 Hb ltac:(lia)). unfold BE. lia.
Qed.

Lemma ReadBE_short (b : bytes) :
  Forall byte_ok b -> len b <= 7 -> ReadBE b = BE b /\ 0 <= BE b < 2 ^ 56.
Proof.
  intros Hb Hl. pose proof (BE_bound b Hb) as HB.
  assert (256 ^ len b <= 256 ^ 7)
    by (apply Z.pow_le_mono_r; [lia|exact Hl]).
  change (256 ^ 7) with (2 ^ 56) in H.
  split; [|lia]. unfold ReadBE. apply int64_small. lia.
Qed.

Lemma Forall_slice_to {A} (P : A -> Prop) (n : Z) (s : list A) :
  Forall P s -> Forall P (slice_to n s).
Proof.
  intros H. unfold slice_to. generalize (Z.to_nat n) as k.
  induction H as [|x s Hx Hs IH]; intros [|k]; simpl; auto.
Qed.

Lemma Forall_slice_from {A} (P : A -> Prop) (n : Z) (s : list A) :
  Forall P s -> Forall P (slice_from n s).
Proof.
  intros H. unfold slice_from. generalize (Z.to_nat n) as k.
  induction H as [|x s Hx Hs IH]; intros [|k]; simpl; auto.
Qed.

Lemma len_slice_to_le {A} (n : Z) (s : list A) : 0 <= n -> len (slice_to n s) <= n.
Proof. intros H. unfold len, slice_to. rewrite length_firstn. lia. Qed.

Lemma WriteAVCC_loop_total (n : Z) (nalus : bytes) (st : AVFrame * list LogEvent) :
  1 <= n <= 7 -> Forall byte_ok nalus ->
  exists st', WriteAVCC_loop n nalus st = Ok st'.
Proof.
  funelim (WriteAVCC_loop n nalus st); intros Hn Hb.
  - eauto.
  - lia.
  - eauto.
  - exfalso.
    destruct (ReadBE_short (slice_to nalulenSize0 nalus)) as [HR HB];
      [now apply Forall_slice_to
      | pose proof (len_slice_to_le nalulenSize0 nalus); lia |].
    pose proof e2 as E. rewrite HR in E. rewrite int64_small in E by lia. lia.
  - exfalso.
    destruct (ReadBE_short (slice_to nalulenSize0 nalus)) as [HR HB];
      [now apply Forall_slice_to
      | pose proof (len_slice_to_le nalulenSize0 nalus); lia |].
    pose proof e3 as E. rewrite HR in E. rewrite int64_small in E by lia. lia.
  - apply H; [exact Hn | now apply Forall_slice_from].
Qed.

Lemma WriteAVCC_loop_short (n : Z) (nalus : bytes) (st : AVFrame * list LogEvent) :
  len nalus <= n -> WriteAVCC_loop n nalus st = Ok st.
Proof.
  funelim (WriteAVCC_loop n nalus st); intros Hle; try reflexivity;
    pose proof e as E; rewrite Z.gtb_ltb in E; apply Z.ltb_lt in E; lia.
Qed.

(** C10. In [WriteAVCC], NALU extraction over the bytes after the 5-byte
    frame header stops at the first remainder of [nalulenSize] bytes or fewer,
    which is dropped without an error; an error is logged, once, only at a
    remainder whose complete length prefix declares a NALU that runs past the
    end of the buffer, and the NALUs appended before it are kept.  With a
    prefix width of 1 to 7 bytes the call always returns. *)
Theorem WriteAVCC_extraction_stops (n ts : Z) (frame : bytes)
    (st : AVFrame * list LogEvent) :
  5 <= len frame ->
  (forall st', WriteAVCC n ts frame st = Ok st' ->
     exists ps rest,
       parses n (slice_from 5 frame) ps rest
       /\ Raw (fst st') = Raw (fst st) ++ map single ps
       /\ ((len rest <= n /\ snd st' = snd st)
           \/ (n < len rest
               /\ len rest < int64 (ReadBE (slice_to n rest) + n)
               /\ snd st' = snd st ++
                    [WriteAVCC_error (len rest) n
                       (int64 (ReadBE (slice_to n rest) + n))])))
  /\ (len frame - 5 <= n ->
      exists st', WriteAVCC n ts frame st = Ok st'
                  /\ Raw (fst st') = Raw (fst st) /\ snd st' = snd st)
  /\ (1 <= n <= 7 -> Forall byte_ok frame ->
      exists st', WriteAVCC n ts frame st = Ok st').
Proof.
  intros Hlen. unfold WriteAVCC, Media_WriteAVCC.
  destruct (Z.ltb_spec (len frame) 5) as [|_]; [lia|].
  split; [|split].
  - intros st' H. apply WriteAVCC_loop_parses in H. exact H.
  - intros Hshort. eexists. split; [apply WriteAVCC_loop_short|split; reflexivity].
    unfold slice_from, len in *. rewrite length_skipn. lia.
  - intros Hn Hb. apply WriteAVCC_loop_total; [exact Hn|].
    now apply Forall_slice_from.
Qed.

Lemma WriteAVCC_extraction_stops_witness :
  let frame := [23; 1; 0; 0; 0; 0; 0; 0; 2; 103; 66; 0; 0; 0; 9; 1; 1] in
  (exists st', WriteAVCC 4 0 frame (zero_frame, []) = Ok st'
     /\ exists ps rest,
          parses 4 (slice_from 5 frame) ps rest
          /\ Raw (fst st') = Raw zero_frame ++ map single ps
          /\ ((len rest <= 4 /\ snd st' = [])
              \/ (4 < len rest
                  /\ len rest < int64 (ReadBE (slice_to 4 rest) + 4)
                  /\ snd st' = [] ++
                       [WriteAVCC_error (len rest) 4
                          (int64 (ReadBE (slice_to 4 rest) + 4))])))
  /\ (exists st', WriteAVCC 4 0 [23; 1; 0; 0; 0; 0; 0; 1] (zero_frame, []) = Ok st'
                  /\ Raw (fst st') = [] /\ snd st' = []).
Proof.
  cbv zeta.
  assert (Hlen : 5 <= len [23; 1; 0; 0; 0; 0; 0; 0; 2; 103; 66; 0; 0; 0; 9; 1; 1])
    by (vm_compute; discriminate).
  destruct (WriteAVCC_extraction_stops 4 0
              [23; 1; 0; 0; 0; 0; 0; 0; 2; 103; 66; 0; 0; 0; 9; 1; 1]
              (zero_frame, []) Hlen) as (Hparse & _ & Htotal).
  assert (Hlen' : 5 <= len [23; 1; 0; 0; 0; 0; 0; 1]) by (vm_compute; discriminate).
  destruct (WriteAVCC_extraction_stops 4 0 [23; 1; 0; 0; 0; 0; 0; 1]
              (zero_frame, []) Hlen') as (_ & Hshort & _).
  split.
  - destruct Htotal as (st' & Hst').
    + lia.
    + repeat constructor; unfold byte_ok; lia.
    + exists st'. split; [exact Hst'|]. apply Hparse. exact Hst'.
  - apply Hshort. vm_compute. discriminate.
Defined.

(** ** Big-endian round trip *)

Lemma length_PutBE (n : nat) (v : Z) : length (PutBE n v) = n.
Proof. induction n; simpl; auto. Qed.

Lemma fold_BE_acc (b : bytes) (acc : Z) :
  fold_left (fun a x => a * 256 + x) b acc = acc * 256 ^ len b + BE b.
Proof.
  unfold BE. revert acc; induction b as [|x b IH]; intros acc.
  - unfold len; simpl. lia.
  - cbn [fold_left]. rewrite IH, (IH (0 * 256 + x)).
    replace (len (x :: b)) with (len b + 1) by (unfold len; simpl length; lia).
    rewrite Z.pow_add_r by (try apply len_nonneg; lia). lia.
Qed.

Lemma BE_cons (x : Z) (b : bytes) : BE (x :: b) = x * 256 ^ len b + BE b.
Proof. unfold BE at 1. cbn [fold_left]. rewrite fold_BE_acc. lia. Qed.

Lemma BE_PutBE (n : nat) (v : Z) :
  0 <= v -> BE (PutBE n v) = v mod 256 ^ Z.of_nat n.
Proof.
  intros Hv. induction n as [|k IH].
  - simpl. now rewrite Z.mod_1_r.
  - cbn [PutBE]. rewrite BE_cons, IH. unfold len. rewrite length_PutBE.
    unfold uint8. rewrite Z.shiftr_div_pow2 by lia.
    replace (2 ^ (8 * Z.of_nat k)) with (256 ^ Z.of_nat k)
      by (change 256 with (2 ^ 8); rewrite <- Z.pow_mul_r; [reflexivity|lia|lia]).
    replace (Z.of_nat (S k)) with (Z.of_nat k + 1) by lia.
    rewrite Z.pow_add_r by lia. change (256 ^ 1) with 256.
    assert (0 < 256 ^ Z.of_nat k) by (apply Z.pow_pos_nonneg; lia).
    rewrite (Z.rem_mul_r v (256 ^ Z.of_nat k) 256) by lia. lia.
Qed.

Lemma PutBE_byte_ok (n : nat) (v : Z) : Forall byte_ok (PutBE n v).
Proof.
  induction n; simpl; constructor; auto.
  unfold byte_ok, uint8. apply Z.mod_pos_bound. lia.
Qed.

Lemma ReadBE_PutBE4 (v : Z) : 0 <= v < 2 ^ 32 -> ReadBE (PutBE 4 v) = v.
Proof.
  intros Hv. destruct (ReadBE_short (PutBE 4 v)) as [HR _].
  - apply PutBE_byte_ok.
  - unfold len. rewrite length_PutBE. lia.
  - rewrite HR, BE_PutBE by lia. apply Z.mod_small.
    change (256 ^ Z.of_nat 4) with (2 ^ 32). lia.
Qed.

Ltac zbool H :=
  let E := fresh "E" in
  pose proof H as E;
  rewrite ?Z.gtb_ltb, ?Z.geb_leb in E;
  first [apply Z.ltb_lt in E | apply Z.ltb_ge in E
        | apply Z.leb_le in E | apply Z.leb_gt in E].

Lemma WriteAVCC_loop_step (n : Z) (nalus : bytes) (st : AVFrame * list LogEvent) :
  0 <= n < len nalus ->
  n <= int64 (ReadBE (slice_to n nalus) + n) <= len nalus ->
  0 < int64 (ReadBE (slice_to n nalus) + n) ->
  WriteAVCC_loop n nalus st =
  WriteAVCC_loop n (slice_from (int64 (ReadBE (slice_to n nalus) + n)) nalus)
    (AppendRaw (fst st)
       [slice_from n (slice_to (int64 (ReadBE (slice_to n nalus) + n)) nalus)],
     snd st).
Proof.
  funelim (WriteAVCC_loop n nalus st); intros Hn He Hpos.
  - zbool e. lia.
  - zbool e0. lia.
  - zbool e1. lia.
  - zbool e2. lia.
  - zbool e3. lia.
  - reflexivity.
Qed.

Lemma slice_to_app {A} (a b : list A) : slice_to (len a) (a ++ b) = a.
Proof.
  unfold slice_to, len. rewrite Nat2Z.id, firstn_app, Nat.sub_diag, firstn_all.
  simpl. apply app_nil_r.
Qed.

Lemma slice_from_app {A} (a b : list A) : slice_from (len a) (a ++ b) = b.
Proof.
  unfold slice_from, len. rewrite Nat2Z.id, skipn_app, Nat.sub_diag, skipn_all.
  reflexivity.
Qed.

Lemma WriteAVCC_loop_body (xs : list bytes) (st : AVFrame * list LogEvent) :
  Forall (fun x => x <> [] /\ len x < 2 ^ 32) xs ->
  exists v', WriteAVCC_loop 4 (avcc_body xs) st = Ok (v', snd st)
             /\ Raw v' = Raw (fst st) ++ map single xs.
Proof.
  intros H; revert st; induction H as [|x xs [Hx Hlen] Hxs IH]; intros st.
  - exists (fst st). rewrite WriteAVCC_loop_short by (unfold len; simpl; lia).
    destruct st; simpl. now rewrite app_nil_r.
  - change (avcc_body (x :: xs)) with ((PutBE 4 (len x) ++ x) ++ avcc_body xs).
    assert (Hp : len (PutBE 4 (len x)) = 4) by (unfold len; now rewrite length_PutBE).
    assert (Hx0 : 0 < len x) by (destruct x; [congruence|unfold len; simpl; lia]).
    assert (Hpre : slice_to 4 ((PutBE 4 (len x) ++ x) ++ avcc_body xs) = PutBE 4 (len x)).
    { rewrite <- app_assoc.
      pose proof (slice_to_app (PutBE 4 (len x)) (x ++ avcc_body xs)) as Hs.
      now rewrite Hp in Hs. }
    assert (He : int64 (ReadBE (PutBE 4 (len x)) + 4) = len (PutBE 4 (len x) ++ x)).
    { rewrite ReadBE_PutBE4 by lia. rewrite int64_small, len_app by lia. lia. }
    rewrite WriteAVCC_loop_step; rewrite ?Hpre, ?He;
      try (rewrite !len_app; pose proof (len_nonneg (avcc_body xs)); lia).
    rewrite slice_from_app, slice_to_app.
    pose proof (slice_from_app (PutBE 4 (len x)) x) as Hs. rewrite Hp in Hs.
    rewrite Hs.
    destruct (IH (AppendRaw (fst st) [x], snd st)) as (v' & Hv & HR).
    exists v'. split; [exact Hv|]. rewrite HR. simpl.
    now rewrite <- app_assoc.
Qed.

(** ** Annex-B to AVCC and back *)

Lemma emit_prop (cur : bytes) :
  Forall (fun x => x <> [] /\ len x <= len cur) (emit cur).
Proof.
  destruct cur; simpl; constructor; auto. split; [discriminate|lia].
Qed.

Lemma Forall_len_le (k m : Z) (l : list bytes) :
  k <= m ->
  Forall (fun x => x <> [] /\ len x <= k) l ->
  Forall (fun x => x <> [] /\ len x <= m) l.
Proof.
  intros Hk H. eapply Forall_impl; [|exact H]. simpl. intros a [? ?].
  split; [assumption|lia].
Qed.

Lemma len_skipn_le {A} (k : nat) (s : list A) : len (skipn k s) <= len s.
Proof. unfold len. rewrite length_skipn. lia. Qed.

Lemma spans_from_prop (n : nat) : forall (s cur : bytes),
  (length s <= n)%nat ->
  Forall (fun x => x <> [] /\ len x <= len cur + len s) (spans_from cur s).
Proof.
  induction n as [|n IH]; intros s cur Hn.
  - destruct s; [|simpl in Hn; lia]. simpl.
    eapply Forall_len_le; [|apply emit_prop]. unfold len; simpl; lia.
  - rewrite spans_from_unfold.
    assert (Hemit : Forall (fun x => x <> [] /\ len x <= len cur + len s) (emit cur))
      by (eapply Forall_len_le; [|apply emit_prop]; pose proof (len_nonneg s); lia).
    assert (Hskip : forall k, (0 < k)%nat -> s <> [] ->
              Forall (fun x => x <> [] /\ len x <= len cur + len s)
                     (spans_from [] (skipn k s))).
    { intros k Hk Hs. eapply Forall_len_le; [|apply IH].
      - pose proof (len_skipn_le k s). pose proof (len_nonneg cur).
        change (len (@nil Z)) with 0. lia.
      - pose proof (skipn_shorter k s Hk Hs). lia. }
    destruct (HasPrefix s NALU_Delimiter2) eqn:E2.
    { apply Forall_app. split; [exact Hemit|].
      apply Hskip; [lia|]. intros ->. discriminate. }
    destruct (HasPrefix s NALU_Delimiter1) eqn:E1.
    { apply Forall_app. split; [exact Hemit|].
      apply Hskip; [lia|]. intros ->. discriminate. }
    destruct s as [|b t]; [exact Hemit|].
    eapply Forall_len_le; [|apply IH; simpl in Hn; lia].
    rewrite len_app. unfold len. simpl length. lia.
Qed.

Lemma concat_flat_map_single (xs : list bytes) :
  concat (flat_map (fun nalu : Buffers => PutBE 4 (SizeOfBuffers nalu) :: nalu)
            (map single xs)) = avcc_body xs.
Proof.
  unfold avcc_body. induction xs as [|x xs IH]; [reflexivity|].
  cbn [map flat_map single concat app]. rewrite IH.
  unfold SizeOfBuffers, single. cbn [concat]. now rewrite ?app_nil_r, <- ?app_assoc.
Qed.

Lemma writeAnnexBSlice_frame (s : bytes) (v : AVFrame) :
  AVCC (writeAnnexBSlice s v) = AVCC v
  /\ IFrame (writeAnnexBSlice s v) = IFrame v
  /\ SeqInTrack (writeAnnexBSlice s v) = SeqInTrack v.
Proof.
  funelim (writeAnnexBSlice s v).
  - auto.
  - destruct H as (H1 & H2 & H3). rewrite H1, H2, H3.
    destruct (is_nil before); auto.
  - auto.
Qed.

Lemma WriteAnnexB_loop_frame (pts dts : Z) (frame : bytes) (v : AVFrame) :
  AVCC (WriteAnnexB_loop pts dts frame v) = AVCC v
  /\ IFrame (WriteAnnexB_loop pts dts frame v) = IFrame v
  /\ SeqInTrack (WriteAnnexB_loop pts dts frame v) = SeqInTrack v.
Proof.
  funelim (WriteAnnexB_loop pts dts frame v).
  - auto.
  - destruct H as (H1 & H2 & H3). rewrite H1, H2, H3.
    destruct (is_nil before); [auto|apply writeAnnexBSlice_frame].
  - cbv zeta. destruct (is_nil _); cbn [AVCC IFrame SeqInTrack set_PTS_DTS];
      apply writeAnnexBSlice_frame.
Qed.

Section RoundTrip.

Variable FillFLV : Z -> Z -> AVFrame -> Buffers.
Variable cfg : Config.

(** C5. A frame assembled by Annex-B ingest in an empty slot and flushed with
    AVCC generation enabled has a memoized AVCC form that AVCC ingest on a
    fresh track, with the 4-byte length prefix, parses back into the same
    ordered NALU slices, with no error logged.  (The input is shorter than
    2^32 bytes, the range of the 4-byte length prefix.) *)
Theorem AnnexB_AVCC_round_trip (t : Video) (pts dts ts : Z) (annexb : bytes)
    (key : bool) :
  ring_wf t -> Raw (Value t) = [] -> AVCC (Value t) = [] ->
  EnableAVCC cfg = true ->
  len annexb < 2 ^ 32 ->
  let t1 := set_Value t (set_IFrame (WriteAnnexB pts dts annexb (Value t)) key) in
  Raw (Value t1) <> [] ->
  let f := slot (Flush FillFLV cfg t1) (cursor t1) in
  Raw f = map single (spans annexb)
  /\ exists v', WriteAVCC 4 ts (concat (AVCC f)) (zero_frame, []) = Ok (v', [])
                /\ Raw v' = Raw f.
Proof.
  intros Hwf Hraw Havcc Hen Hlen t1 Hraw1 f.
  assert (Hwf1 : ring_wf t1) by now apply ring_wf_set_Value.
  assert (HV : Value t1 = set_IFrame (WriteAnnexB pts dts annexb (Value t)) key)
    by now apply Value_set_Value.
  assert (HR : Raw (Value t1) = map single (spans annexb)).
  { rewrite HV. cbn [Raw set_IFrame]. unfold WriteAnnexB.
    rewrite Raw_WriteAnnexB_loop, Hraw. reflexivity. }
  assert (HA : AVCC (Value t1) = []).
  { rewrite HV. cbn [AVCC set_IFrame]. unfold WriteAnnexB.
    destruct (WriteAnnexB_loop_frame pts dts annexb (Value t)) as (H1 & _).
    now rewrite H1. }
  pose proof (Flush_finalized_AVCC FillFLV cfg t1 Hwf1 Hraw1) as Hbuild.
  rewrite HA, Hen in Hbuild. cbn [is_nil andb orb] in Hbuild.
  unfold avcc_of in Hbuild.
  assert (HRf : Raw f = map single (spans annexb)).
  { unfold f. rewrite (Flush_finalized FillFLV cfg t1 Hwf1 Hraw1).
    unfold Flush_FLV.
    destruct (Flush_AVCC_spec cfg (CodecID t1) (Value t1)) as (HR' & _).
    cbv zeta in HR'.
    destruct (is_nil (FLV _) && EnableFLV cfg); cbn [Raw]; now rewrite HR'. }
  split; [exact HRf|]. fold f in Hbuild. rewrite Hbuild, HRf.
  cbn [concat]. rewrite HR, concat_flat_map_single.
  set (hdr := [Z.lor (uint8 (CodecID t1)) (if IFrame (Value t1) then 16 else 32); 1]
                ++ PutBE 3 (uint32 (PTS (Value t1) - DTS (Value t1)) / 90)).
  assert (Hh : len hdr = 5) by reflexivity.
  unfold WriteAVCC, Media_WriteAVCC.
  destruct (Z.ltb_spec (len (hdr ++ avcc_body (spans annexb))) 5) as [Hlt|_].
  { rewrite len_app in Hlt. pose proof (len_nonneg (avcc_body (spans annexb))). lia. }
  pose proof (slice_from_app hdr (avcc_body (spans annexb))) as Hs.
  rewrite Hh in Hs. rewrite Hs. cbn [fst snd].
  match goal with
  | |- exists v', WriteAVCC_loop 4 _ ?st = _ /\ _ =>
      destruct (WriteAVCC_loop_body (spans annexb) st) as (v' & Hv & HRv)
  end.
  { eapply Forall_impl; [|apply (spans_from_prop (length annexb) annexb []); lia].
    simpl. intros a [Ha1 Ha2]. split; [exact Ha1|].
    change (len (@nil Z)) with 0 in Ha2. lia. }
  exists v'. split; [exact Hv|]. rewrite HRv. reflexivity.
Qed.

End RoundTrip.

Lemma AnnexB_AVCC_round_trip_witness :
  let t1 := set_Value (new_track 4 7 4)
              (set_IFrame (WriteAnnexB 0 0 scenario_annexb (Value (new_track 4 7 4))) true) in
  let f := slot (Flush no_FLV (mkConfig true false) t1) (cursor t1) in
  Raw f = map single (spans scenario_annexb)
  /\ exists v', WriteAVCC 4 0 (concat (AVCC f)) (zero_frame, []) = Ok (v', [])
                /\ Raw v' = Raw f.
Proof.
  apply (AnnexB_AVCC_round_trip no_FLV (mkConfig true false) (new_track 4 7 4)
           0 0 0 scenario_annexb true).
  - apply ring_wf_new_track. lia.
  - reflexivity.
  - reflexivity.
  - reflexivity.
  - vm_compute. reflexivity.
  - vm_compute. discriminate.
Defined.

(** ** The memory TS writer *)

Section PacketizerProps.

Variable WritePESHeader : MpegTsPESHeader -> bytes * bool.
Variable WriteTsHeader : MpegTsHeader -> bytes * Z * bool.

(** C2. A PES packet whose start-code prefix is not 0x000001 makes
    [WritePESPacket] return the start-code error at once: nothing is pushed
    on the buffer list, no TS header is built, and the continuity counter of
    the frame context is as it was. *)
Theorem WritePESPacket_start_code_error (fuel : nat) (ts : list bytes)
    (frame : MpegtsPESFrame) (packet : MpegTsPESPacket) :
  PacketStartCodePrefix (Header packet) <> 1 ->
  let r := WritePESPacket WritePESHeader WriteTsHeader fuel ts frame packet in
  ended r = Returned (Some ErrStartCode)
  /\ BLL r = ts /\ handed r = [] /\ frame_ctx r = frame
  /\ ContinuityCounter (frame_ctx r) = ContinuityCounter frame.
Proof.
  intros H. unfold WritePESPacket.
  destruct (Z.eqb_spec (PacketStartCodePrefix (Header packet)) 1); [congruence|].
  simpl. auto.
Qed.

Lemma advance_S (n : nat) (c : Z) :
  advance (S n) c = advance n ((c + 1) mod 16).
Proof. unfold advance. now rewrite Nat.iter_succ_r. Qed.

Lemma counters_from_app (c : Z) (a b : list MpegTsHeader) :
  counters_from c (a ++ b) <->
  counters_from c a /\ counters_from (advance (length a) c) b.
Proof.
  revert c; induction a as [|h a IH]; intros c.
  - simpl. tauto.
  - cbn [app counters_from length]. rewrite advance_S, IH. tauto.
Qed.

Lemma uint8_mod16 (x : Z) : uint8 x mod 16 = x mod 16.
Proof.
  unfold uint8. apply Z.mod_mod_divide. exists 16. reflexivity.
Qed.

Lemma header_fields (i L : Z) (frame : MpegtsPESFrame) (h : MpegTsHeader) (st : Z) :
  (if L <? TS_PACKET_SIZE - 4 then padded_header (first_header i frame) L
   else (first_header i frame, 0)) = (h, st) ->
  hContinuityCounter h = ContinuityCounter frame /\ hPid h = Pid frame
  /\ SyncByte h = 71.
Proof.
  unfold padded_header, first_header.
  destruct (L <? TS_PACKET_SIZE - 4), (i =? 0), (IsKeyFrame frame);
    intros H; inversion H; subst; simpl; auto.
Qed.

Lemma WritePESPacket_loop_counters (fuel : nat) :
  forall (i : Z) (packet : MpegTsPESPacket) (bufs : Buffers) (L : Z) (r : PESRun),
  let r' := WritePESPacket_loop WritePESHeader WriteTsHeader fuel i packet bufs L r in
  exists hs,
    handed r' = handed r ++ hs
    /\ counters_from (ContinuityCounter (frame_ctx r)) hs
    /\ Forall (fun h => hPid h = Pid (frame_ctx r) /\ SyncByte h = 71) hs
    /\ ContinuityCounter (frame_ctx r')
        = advance (length hs) (ContinuityCounter (frame_ctx r))
    /\ Pid (frame_ctx r') = Pid (frame_ctx r).
Proof.
  induction fuel as [|fuel IH]; intros i packet bufs L r; cbv zeta.
  - exists []. simpl. destruct (is_nil bufs); simpl; rewrite app_nil_r; auto.
  - cbn [WritePESPacket_loop].
    destruct (is_nil bufs).
    { exists []. simpl. rewrite app_nil_r. auto. }
    destruct (if i =? 0 then WritePESHeader (Header packet) else ([], false))
      as [pes_bytes pes_err].
    destruct pes_err.
    { exists []. simpl. rewrite app_nil_r. auto. }
    match goal with
    | |- context [if ?c then padded_header ?h ?l else (?h, 0)] =>
        destruct (if c then padded_header h l else (h, 0)) as [tsHeader st] eqn:EH
    end.
    apply header_fields in EH. destruct EH as (Hcc & Hpid & Hsync).
    destruct (WriteTsHeader tsHeader) as [[ts_bytes written] ts_err].
    assert (Hone : counters_from (ContinuityCounter (frame_ctx r)) [tsHeader])
      by (simpl; auto).
    destruct ts_err.
    { exists [tsHeader]. cbn [handed frame_ctx set_ContinuityCounter
                              ContinuityCounter Pid length].
      rewrite uint8_mod16. repeat split; auto. }
    destruct (consume _ bufs) as [got rem].
    destruct (negb _).
    { exists [tsHeader]. cbn [handed frame_ctx set_ContinuityCounter
                              ContinuityCounter Pid length].
      rewrite uint8_mod16. repeat split; auto. }
    match goal with
    | |- context [WritePESPacket_loop _ _ fuel ?i' packet rem ?L' ?r0] =>
        destruct (IH i' packet rem L' r0) as (hs & H1 & H2 & H3 & H4 & H5)
    end.
    cbn [handed frame_ctx set_ContinuityCounter ContinuityCounter Pid] in *.
    rewrite uint8_mod16 in *.
    exists (tsHeader :: hs). rewrite H1, <- app_assoc. cbn [app counters_from length].
    rewrite advance_S. repeat split; auto.
Qed.

Lemma WritePESPacket_counters (fuel : nat) (ts : list bytes)
    (frame : MpegtsPESFrame) (packet : MpegTsPESPacket) :
  let r := WritePESPacket WritePESHeader WriteTsHeader fuel ts frame packet in
  counters_from (ContinuityCounter frame) (handed r)
  /\ Forall (fun h => hPid h = Pid frame /\ SyncByte h = 71) (handed r)
  /\ ContinuityCounter (frame_ctx r)
      = advance (length (handed r)) (ContinuityCounter frame)
  /\ Pid (frame_ctx r) = Pid frame.
Proof.
  unfold WritePESPacket. destruct (negb _); [simpl; auto|].
  destruct (WritePESPacket_loop_counters fuel 0 packet (Payload packet) 0
              (mkPESRun ts frame [] [] Running)) as (hs & H1 & H2 & H3 & H4 & H5).
  cbn [handed frame_ctx app] in *. rewrite H1. auto.
Qed.

Lemma headers_of_app (k : nat) (a b : list (nat * MpegTsHeader)) :
  headers_of k (a ++ b) = headers_of k a ++ headers_of k b.
Proof. unfold headers_of. now rewrite filter_app, map_app. Qed.

Lemma headers_of_tagged (k j : nat) (hs : list MpegTsHeader) :
  headers_of k (map (pair j) hs) = if Nat.eqb j k then hs else [].
Proof.
  unfold headers_of. induction hs as [|h hs IH]; simpl.
  - now destruct (Nat.eqb j k).
  - destruct (Nat.eqb j k); simpl in *; [now rewrite IH|exact IH].
Qed.

Lemma nth_error_set_nth {A} (l : list A) (i j : nat) (x y : A) :
  nth_error l j = Some y ->
  nth_error (set_nth i x l) j = Some (if Nat.eqb i j then x else y).
Proof.
  revert i j; induction l as [|z l IH]; intros i j H.
  - destruct j; discriminate.
  - destruct i, j; simpl in *; auto.
Qed.

Lemma advance_add (n m : nat) (c : Z) :
  advance (n + m) c = advance m (advance n c).
Proof.
  revert c; induction n as [|n IH]; intros c; [reflexivity|].
  cbn [Nat.add]. now rewrite !advance_S, IH.
Qed.

(** C3. In any sequence of [WritePESPacket] calls, each on the frame context
    of its PID, the TS headers built for one PID carry that PID and the
    context's continuity counter at the time, which then moves to its
    successor modulo 16: the counters of consecutive packets of a PID run
    c, c+1, ..., 15, 0, ... without a gap, whatever is written on other
    PIDs in between, and the context is left holding the next value. *)
Theorem continuity_counter_cycles (fuel : nat)
    (ops : list (nat * MpegTsPESPacket)) :
  forall (ts : list bytes) (ctxs : list MpegtsPESFrame) (k : nat)
         (frame : MpegtsPESFrame),
  nth_error ctxs k = Some frame ->
  let '(ts', ctxs', tr) :=
    WritePESPackets WritePESHeader WriteTsHeader fuel ops ts ctxs in
  counters_from (ContinuityCounter frame) (headers_of k tr)
  /\ Forall (fun h => hPid h = Pid frame) (headers_of k tr)
  /\ exists frame', nth_error ctxs' k = Some frame'
       /\ ContinuityCounter frame'
          = advance (length (headers_of k tr)) (ContinuityCounter frame)
       /\ Pid frame' = Pid frame.
Proof.
  induction ops as [|[j packet] ops IH]; intros ts ctxs k frame Hk.
  - simpl. repeat split; auto. exists frame. auto.
  - cbn [WritePESPackets].
    destruct (nth_error ctxs j) as [fj|] eqn:Hj; [|apply IH; exact Hk].
    pose proof (WritePESPacket_counters fuel ts fj packet) as Hrun.
    cbv zeta in Hrun. destruct Hrun as (R1 & R2 & R3 & R4).
    set (r := WritePESPacket WritePESHeader WriteTsHeader fuel ts fj packet) in *.
    pose proof (nth_error_set_nth ctxs j k (frame_ctx r) frame Hk) as Hk'.
    specialize (IH (BLL r) (set_nth j (frame_ctx r) ctxs) k _ Hk').
    destruct (WritePESPackets WritePESHeader WriteTsHeader fuel ops (BLL r)
                (set_nth j (frame_ctx r) ctxs)) as [[ts' ctxs'] tr].
    rewrite headers_of_app, headers_of_tagged.
    destruct (Nat.eqb_spec j k) as [->|Hne].
    + assert (fj = frame) by congruence. subst fj.
      destruct IH as (I1 & I2 & f' & I3 & I4 & I5).
      rewrite R3 in I1, I4. rewrite R4 in I2, I5.
      split; [apply counters_from_app; auto|].
      split.
      { apply Forall_app. split; [|exact I2].
        eapply Forall_impl; [|exact R2]. simpl. tauto. }
      exists f'. rewrite length_app, advance_add. auto.
    + exact IH.
Qed.

(** Every buffer the pool hands out for a TS packet has the wire size. *)
Lemma length_pool_item (n : nat) (assembled : bytes) :
  length (pool_item n assembled) = n.
Proof.
  unfold pool_item, Stuffing. rewrite length_firstn, length_app, repeat_length. lia.
Qed.

Lemma WritePESPacket_loop_sizes (fuel : nat) :
  forall (i : Z) (packet : MpegTsPESPacket) (bufs : Buffers) (L : Z) (r : PESRun),
  let r' := WritePESPacket_loop WritePESHeader WriteTsHeader fuel i packet bufs L r in
  exists items zs,
    BLL r' = BLL r ++ items /\ Forall (fun b => len b = 188) items
    /\ sizes r' = sizes r ++ zs
    /\ match ended r' with
       | Returned (Some (ErrPacketSize n)) =>
           exists zs0, zs = zs0 ++ [n] /\ n <> 188 /\ Forall (fun z => z = 188) zs0
       | _ => Forall (fun z => z = 188) zs
       end.
Proof.
  induction fuel as [|fuel IH]; intros i packet bufs L r; cbv zeta.
  - exists [], []. simpl. destruct (is_nil bufs); simpl; rewrite !app_nil_r; auto.
  - cbn [WritePESPacket_loop].
    destruct (is_nil bufs).
    { exists [], []. simpl. rewrite !app_nil_r. auto. }
    destruct (if i =? 0 then WritePESHeader (Header packet) else ([], false))
      as [pes_bytes pes_err].
    assert (Hitem : forall x, Forall (fun b => len b = 188) [pool_item 188 x]).
    { intros x. constructor; [|constructor]. unfold len.
      now rewrite length_pool_item. }
    destruct pes_err.
    { exists [pool_item 188 pes_bytes], []. simpl. rewrite app_nil_r. auto. }
    match goal with
    | |- context [if ?c then padded_header ?h ?l else (?h, 0)] =>
        destruct (if c then padded_header h l else (h, 0)) as [tsHeader st]
    end.
    destruct (WriteTsHeader tsHeader) as [[ts_bytes written] ts_err].
    destruct ts_err.
    { eexists [_], []. simpl. rewrite app_nil_r. auto. }
    destruct (consume _ bufs) as [got rem].
    set (n := len (pes_bytes ++ ts_bytes ++ got)).
    destruct (Z.eqb_spec n TS_PACKET_SIZE) as [Heq|Hne]; cbn [negb].
    + match goal with
      | |- context [WritePESPacket_loop _ _ fuel ?i' packet rem ?L' ?r0] =>
          destruct (IH i' packet rem L' r0) as (items & zs & H1 & H2 & H3 & H4)
      end.
      cbn [BLL sizes] in H1, H3.
      exists (pool_item 188 (pes_bytes ++ ts_bytes ++ got) :: items), (n :: zs).
      rewrite H1, H3, <- !app_assoc. cbn [app].
      split; [reflexivity|]. split; [constructor; [|exact H2]|].
      { unfold len. now rewrite length_pool_item. }
      split; [reflexivity|].
      match goal with
      | |- match ended ?x with _ => _ end => destruct (ended x) as [[[ | | |m]|]|]
      end; try (constructor; assumption).
      destruct H4 as (zs0 & -> & Hn & Hz). exists (n :: zs0).
      repeat split; auto.
    + eexists [_], [n]. cbn [BLL sizes ended]. split; [reflexivity|].
      split; [apply Hitem|]. split; [reflexivity|].
      exists []. repeat split; auto.
Qed.

(** After a call with a good start code every
    buffer pushed for a TS packet is 188 bytes long, and a packet assembled
    to any other size ends the call with the packet-size error, the packets
    before it having been assembled to 188 bytes. *)
Lemma WritePESPacket_sizes (fuel : nat) (ts : list bytes)
    (frame : MpegtsPESFrame) (packet : MpegTsPESPacket) :
  PacketStartCodePrefix (Header packet) = 1 ->
  let r := WritePESPacket WritePESHeader WriteTsHeader fuel ts frame packet in
  (exists items, BLL r = ts ++ items /\ Forall (fun b => len b = 188) items)
  /\ match ended r with
     | Returned (Some (ErrPacketSize n)) =>
         exists zs0, sizes r = zs0 ++ [n] /\ n <> 188
                     /\ Forall (fun z => z = 188) zs0
     | _ => Forall (fun z => z = 188) (sizes r)
     end.
Proof.
  intros Hsc. unfold WritePESPacket. rewrite Hsc. cbn [Z.eqb Pos.eqb negb].
  destruct (WritePESPacket_loop_sizes fuel 0 packet (Payload packet) 0
              (mkPESRun ts frame [] [] Running)) as (items & zs & H1 & H2 & H3 & H4).
  cbn [BLL sizes app] in *. rewrite H3. split; [eauto|exact H4].
Qed.

(** On the first packet, when the whole PES packet, header and payload,
    is shorter than the 184 bytes a TS packet can carry, the header handed to
    [WriteTsHeader] has the adaptation field switched on with the length
    188 - 4 - 1 - (bytes to send). *)
Lemma WritePESPacket_first_packet_padded (fuel : nat) (packet : MpegTsPESPacket)
    (bufs : Buffers) (L : Z) (r : PESRun) (pes_bytes : bytes) :
  bufs <> [] -> WritePESHeader (Header packet) = (pes_bytes, false) ->
  len pes_bytes + SizeOfBuffers bufs < TS_PACKET_SIZE - 4 ->
  exists h rest,
    handed (WritePESPacket_loop WritePESHeader WriteTsHeader (S fuel) 0 packet bufs L r)
    = handed r ++ h :: rest
    /\ PayloadUnitStartIndicator h = 1
    /\ AdaptionFieldControl h = 3
    /\ AdaptationFieldLength h
       = TS_PACKET_SIZE - 4 - 1 - (len pes_bytes + SizeOfBuffers bufs).
Proof.
  intros Hb Hpes Hshort. cbn [WritePESPacket_loop].
  destruct bufs as [|b bufs]; [congruence|]. cbn [is_nil].
  cbn [Z.eqb]. rewrite Hpes.
  destruct (Z.ltb_spec (len pes_bytes + SizeOfBuffers (b :: bufs))
              (TS_PACKET_SIZE - 4)) as [_|]; [|lia].
  set (n := len pes_bytes + SizeOfBuffers (b :: bufs)) in *.
  assert (Hn : 0 <= n).
  { unfold n, SizeOfBuffers. pose proof (len_nonneg pes_bytes).
    pose proof (len_nonneg (concat (b :: bufs))). lia. }
  assert (Hafl : uint8 (TS_PACKET_SIZE - 4 - 1 - n) = TS_PACKET_SIZE - 4 - 1 - n).
  { unfold uint8, TS_PACKET_SIZE in *. apply Z.mod_small. lia. }
  unfold padded_header, first_header. cbn [Z.eqb].
  match goal with
  | |- context [WriteTsHeader ?h] =>
      destruct (WriteTsHeader h) as [[ts_bytes written] ts_err]
  end.
  destruct ts_err.
  { eexists _, []. cbn [handed]. split; [reflexivity|].
    destruct (IsKeyFrame (frame_ctx r)); simpl; auto. }
  destruct (consume _ (b :: bufs)) as [got rem].
  destruct (negb _).
  { eexists _, []. cbn [handed]. split; [reflexivity|].
    destruct (IsKeyFrame (frame_ctx r)); simpl; auto. }
  match goal with
  | |- context [WritePESPacket_loop _ _ fuel ?i' packet rem ?L' ?r0] =>
      destruct (WritePESPacket_loop_counters fuel i' packet rem L' r0)
        as (hs & H1 & _)
  end.
  rewrite H1. cbn [handed]. rewrite <- app_assoc. cbn [app].
  eexists _, hs. split; [reflexivity|].
  destruct (IsKeyFrame (frame_ctx r)); simpl; auto.
Qed.


Section Audio.

Variable AudioSpecificConfig : Type.
Variable ToADTS : AudioSpecificConfig -> Z -> bytes.
Variable STREAM_ID_AUDIO : Z.



End Audio.

End PacketizerProps.

Lemma WritePESPacket_start_code_error_witness :
  let packet := mkPESPacket (mkPESHeader 256 224 0 128 192 10 0 0) [[1; 2; 3]] in
  let frame := mkPESFrame 256 false 5 0 in
  let r := WritePESPacket (fun _ => ([], false)) (fun _ => ([71; 0; 0; 0], 4, false))
             10 [] frame packet in
  ended r = Returned (Some ErrStartCode)
  /\ BLL r = [] /\ handed r = [] /\ frame_ctx r = frame
  /\ ContinuityCounter (frame_ctx r) = 5.
Proof.
  apply (WritePESPacket_start_code_error (fun _ => ([], false))
           (fun _ => ([71; 0; 0; 0], 4, false)) 10 []
           (mkPESFrame 256 false 5 0)
           (mkPESPacket (mkPESHeader 256 224 0 128 192 10 0 0) [[1; 2; 3]])).
  simpl. discriminate.
Defined.



Lemma continuity_counter_cycles_witness :
  let '(ts', ctxs', tr) :=
    WritePESPackets PESHeader_stub TsHeader_stub 10
      [(0%nat, sample_packet 368); (1%nat, sample_packet 184); (0%nat, sample_packet 184)]
      [] [mkPESFrame 256 false 14 0; mkPESFrame 257 false 3 0] in
  counters_from 14 (headers_of 0 tr)
  /\ Forall (fun h => hPid h = 256) (headers_of 0 tr)
  /\ exists frame', nth_error ctxs' 0 = Some frame'
       /\ ContinuityCounter frame' = advance (length (headers_of 0 tr)) 14
       /\ Pid frame' = 256.
Proof.
  apply (continuity_counter_cycles PESHeader_stub TsHeader_stub 10
           [(0%nat, sample_packet 368); (1%nat, sample_packet 184); (0%nat, sample_packet 184)]
           [] [mkPESFrame 256 false 14 0; mkPESFrame 257 false 3 0] 0
           (mkPESFrame 256 false 14 0)).
  reflexivity.
Defined.

(** The run of the witness: three packets on the first PID carry 14, 15, 0,
    the packet of the other PID carries its own 3, and the contexts are left
    at 1 and 4. *)
Example continuity_counter_run :
  let '(ts', ctxs', tr) :=
    WritePESPackets PESHeader_stub TsHeader_stub 10
      [(0%nat, sample_packet 368); (1%nat, sample_packet 184); (0%nat, sample_packet 184)]
      [] [mkPESFrame 256 false 14 0; mkPESFrame 257 false 3 0] in
  map hContinuityCounter (headers_of 0 tr) = [14; 15; 0]
  /\ map hContinuityCounter (headers_of 1 tr) = [3]
  /\ map ContinuityCounter ctxs' = [1; 4].
Proof. vm_compute. auto. Qed.


(** ** Counting resident keyframes *)

Lemma keyframes_kf (t : Video) : keyframes t = kf (slots t) (ring t).
Proof. reflexivity. Qed.

Lemma kf_nil (sl : list AVFrame) : kf sl [] = 0.
Proof. reflexivity. Qed.

Lemma kf_cons (sl : list AVFrame) (i : nat) (r : list nat) :
  kf sl (i :: r) = b2z (IFrame (nth i sl zero_frame)) + kf sl r.
Proof.
  unfold kf, len. simpl. destruct (IFrame (nth i sl zero_frame)); simpl length; simpl b2z; lia.
Qed.

Lemma kf_app (sl : list AVFrame) (a b : list nat) :
  kf sl (a ++ b) = kf sl a + kf sl b.
Proof. unfold kf, len. rewrite filter_app, length_app. lia. Qed.

Lemma kf_nonneg (sl : list AVFrame) (r : list nat) : 0 <= kf sl r.
Proof. unfold kf. apply len_nonneg. Qed.

Lemma kf_set_nth_notin (sl : list AVFrame) (i : nat) (x : AVFrame) (r : list nat) :
  ~ In i r -> kf (set_nth i x sl) r = kf sl r.
Proof.
  induction r as [|j r IH]; intros Hi; [reflexivity|].
  rewrite !kf_cons, IH by (intros H; apply Hi; now right).
  rewrite nth_set_nth. destruct (Nat.eqb_spec i j) as [->|]; [|reflexivity].
  exfalso. apply Hi. now left.
Qed.

Lemma kf_grow (sl extra : list AVFrame) (r : list nat) :
  (forall i, In i r -> (i < length sl)%nat) -> kf (sl ++ extra) r = kf sl r.
Proof.
  induction r as [|j r IH]; intros Hr; [reflexivity|].
  rewrite !kf_cons, IH by (intros i Hi; apply Hr; now right).
  rewrite app_nth1 by (apply Hr; now left). reflexivity.
Qed.

Lemma kf_fresh (sl : list AVFrame) (n : nat) :
  kf (sl ++ repeat zero_frame n) (seq (length sl) n) = 0.
Proof.
  assert (H : forall m k, kf (sl ++ repeat zero_frame n) (seq (length sl + k) m) = 0).
  { induction m as [|m IH]; intros k; [reflexivity|].
    cbn [seq]. rewrite kf_cons. replace (S (length sl + k)) with (length sl + S k)%nat by lia.
    rewrite IH. rewrite app_nth2 by lia.
    replace (length sl + k - length sl)%nat with k by lia.
    destruct (Nat.ltb_spec k n).
    - rewrite nth_repeat_lt by assumption. reflexivity.
    - rewrite nth_overflow by (rewrite repeat_length; lia). reflexivity. }
  specialize (H n O). now rewrite Nat.add_0_r in H.
Qed.

Lemma Do_uncount_spec (visited : list nat) (t : Video) :
  let t' := Do_uncount t visited in
  idrCount t' = idrCount t - kf (slots t) visited
  /\ slots t' = slots t /\ ring t' = ring t /\ Size t' = Size t
  /\ IDRing t' = IDRing t /\ GOP t' = GOP t /\ CodecID t' = CodecID t.
Proof.
  cbv zeta. unfold Do_uncount. revert t.
  induction visited as [|i vs IH]; intros t.
  - simpl. rewrite kf_nil. repeat split; try reflexivity. lia.
  - cbn [fold_left]. rewrite kf_cons.
    change (slot t i) with (nth i (slots t) zero_frame).
    destruct (IFrame (nth i (slots t) zero_frame)).
    + destruct (IH (set_idrCount t (idrCount t - 1))) as (H1 & H2 & H3 & H4 & H5 & H6 & H7).
      rewrite H1, H2, H3, H4, H5, H6, H7.
      cbn [set_idrCount idrCount slots ring Size IDRing GOP CodecID b2z].
      repeat split; try reflexivity. lia.
    + destruct (IH t) as (H1 & H2 & H3 & H4 & H5 & H6 & H7).
      rewrite H1. cbn [b2z]. repeat split; auto.
Qed.

Lemma Unlink_inside (c : nat) (rest : list nat) (l : Z) :
  0 < l -> l + 1 < len (c :: rest) ->
  Unlink (c :: rest) l
  = (c :: skipn (Z.to_nat l) rest, firstn (Z.to_nat l) rest).
Proof.
  intros Hl Hlen. unfold Unlink.
  destruct (Z.leb_spec l 0); [lia|].
  rewrite Z.mod_small by lia.
  replace (Z.to_nat (l + 1)) with (S (Z.to_nat l)) by lia.
  destruct (Z.to_nat l) as [|k] eqn:E; [lia|]. reflexivity.
Qed.

(** ** The steps of the writer on the cache *)

Lemma Media_Flush_spec (t : Video) (c n : nat) (rest : list nat) :
  ring t = c :: n :: rest ->
  let t' := Media_Flush t in
  ring t' = n :: rest ++ [c]
  /\ (exists v, slots t' = set_nth n v (slots t) /\ IFrame v = false /\ Raw v = [])
  /\ idrCount t' = idrCount t /\ Size t' = Size t /\ IDRing t' = IDRing t
  /\ CodecID t' = CodecID t.
Proof.
  intros Hr. cbv zeta. unfold Media_Flush. cbv zeta.
  unfold set_Value, cursor. cbn [ring set_ring set_slots slots idrCount Size IDRing CodecID].
  rewrite Hr. cbn [hd app]. split; [reflexivity|]. split; [|auto].
  eexists. split; [reflexivity|]. split; reflexivity.
Qed.

Lemma kf_set_cursor_same (sl : list AVFrame) (c : nat) (v : AVFrame) (r : list nat) :
  (c < length sl)%nat -> ~ In c r ->
  IFrame v = IFrame (nth c sl zero_frame) ->
  kf (set_nth c v sl) (c :: r) = kf sl (c :: r).
Proof.
  intros Hc Hn Hv. rewrite !kf_cons, kf_set_nth_notin by assumption.
  rewrite nth_set_nth, Nat.eqb_refl.
  destruct (Nat.ltb_spec c (length sl)); [|lia]. simpl. now rewrite Hv.
Qed.

Lemma IFrame_Flush_completion (FillFLV : Z -> Z -> AVFrame -> Buffers)
    (cfg : Config) (codecID : Z) (v : AVFrame) :
  IFrame (Flush_FLV FillFLV cfg (Flush_AVCC cfg codecID v)) = IFrame v.
Proof.
  destruct (Flush_AVCC_spec cfg codecID v) as (_ & H & _). cbv zeta in H.
  unfold Flush_FLV. destruct (is_nil (FLV _) && EnableFLV cfg); cbn [IFrame]; exact H.
Qed.

Lemma NoDup_rotate {A} (c : A) (l : list A) : NoDup (c :: l) -> NoDup (l ++ [c]).
Proof.
  intros H. eapply Permutation_NoDup; [|exact H]. apply Permutation_cons_append.
Qed.

Lemma ring_wf_cons (t : Video) (c n : nat) (rest : list nat) :
  ring_wf t -> ring t = c :: n :: rest ->
  c <> n /\ ~ In c (n :: rest) /\ ~ In n rest
  /\ (c < length (slots t))%nat /\ (n < length (slots t))%nat.
Proof.
  intros (Hnd & _ & Hin) Hr. rewrite Hr in *.
  inversion Hnd as [|? ? Hc Hnd']; subst. inversion Hnd' as [|? ? Hn _]; subst.
  repeat split; auto.
  - intros ->. apply Hc. now left.
  - apply Hin. now left.
  - apply Hin. right. now left.
Qed.

Lemma Media_Flush_counts (t : Video) (c n : nat) (rest : list nat) :
  ring t = c :: n :: rest -> ring_wf t ->
  let t' := Media_Flush t in
  ring_wf t'
  /\ keyframes t' = keyframes t - b2z (IFrame (slot t n))
  /\ IFrame (Value t') = false
  /\ len (ring t') = len (ring t)
  /\ cursor t' = n.
Proof.
  intros Hr Hwf. cbv zeta.
  destruct (ring_wf_cons t c n rest Hwf Hr) as (Hcn & Hc & Hn & Hcl & Hnl).
  destruct (Media_Flush_spec t c n rest Hr) as (R & (v & S & Hv & _) & _).
  cbv zeta in R, S. destruct Hwf as (Hnd & Hlen & Hin). rewrite Hr in *.
  assert (Hnd' : NoDup (n :: rest ++ [c])).
  { change (NoDup ((n :: rest) ++ [c])). now apply NoDup_rotate. }
  split; [|split; [|split; [|split]]].
  - unfold ring_wf. rewrite R, S, length_set_nth. split; [exact Hnd'|].
    split; [simpl; rewrite length_app; simpl; lia|].
    intros i Hi. apply Hin. simpl in Hi. rewrite in_app_iff in Hi. simpl in *.
    intuition.
  - rewrite !keyframes_kf, R, S, Hr. rewrite !kf_cons.
    inversion Hnd' as [|? ? Hn' _]; subst.
    rewrite kf_set_nth_notin by exact Hn'.
    rewrite kf_app, kf_cons, kf_nil.
    rewrite nth_set_nth, Nat.eqb_refl.
    destruct (Nat.ltb_spec n (length (slots t))); [|lia]. cbn [andb].
    rewrite Hv. unfold slot. cbn [b2z]. lia.
  - unfold Value, slot, cursor. rewrite R, S. cbn [hd].
    rewrite nth_set_nth, Nat.eqb_refl.
    destruct (Nat.ltb_spec n (length (slots t))); [|lia]. exact Hv.
  - rewrite R. unfold len. simpl. rewrite length_app. simpl. lia.
  - unfold cursor. now rewrite R.
Qed.

Lemma set_Value_counts (t : Video) (v : AVFrame) :
  ring_wf t -> IFrame v = IFrame (Value t) ->
  ring_wf (set_Value t v) /\ keyframes (set_Value t v) = keyframes t.
Proof.
  intros Hwf Hv. split; [now apply ring_wf_set_Value|].
  pose proof (cursor_in_slots t Hwf) as Hc.
  destruct Hwf as (Hnd & Hlen & Hin).
  rewrite !keyframes_kf. unfold Value, slot, set_Value, cursor in *.
  cbn [slots ring set_slots].
  destruct (ring t) as [|c r]; [simpl in Hlen; lia|]. cbn [hd] in *.
  inversion Hnd; subst. apply kf_set_cursor_same; auto.
Qed.

Lemma Link_new_counts (t : Video) (c : nat) (rest : list nat) :
  ring t = c :: rest -> ring_wf t ->
  let t' := Link_new t 5 in
  ring_wf t'
  /\ keyframes t' = keyframes t
  /\ ring t' = c :: length (slots t) :: (seq (S (length (slots t))) 4 ++ rest)
  /\ IFrame (slot t' (length (slots t))) = false
  /\ idrCount t' = idrCount t /\ Size t' = Size t /\ IDRing t' = IDRing t
  /\ CodecID t' = CodecID t
  /\ (forall i, (i < length (slots t))%nat -> slot t' i = slot t i).
Proof.
  intros Hr (Hnd & Hlen & Hin). cbv zeta. rewrite Hr in *.
  set (L := length (slots t)).
  assert (R : ring (Link_new t 5) = c :: L :: (seq (S L) 4 ++ rest)).
  { unfold Link_new. cbn [ring set_ring set_slots]. rewrite Hr. reflexivity. }
  assert (HS : slots (Link_new t 5) = slots t ++ repeat zero_frame 5) by reflexivity.
  assert (Hfresh : kf (slots t ++ repeat zero_frame 5) (seq L 5) = 0)
    by apply kf_fresh.
  split; [|split; [|split; [exact R|split; [|split; [|split; [|split; [|split]]]]]]];
    try reflexivity.
  - unfold ring_wf. rewrite R, HS, length_app, repeat_length. fold L.
    split; [|split].
    + change (c :: L :: seq (S L) 4 ++ rest) with ((c :: seq L 5) ++ rest).
      apply Permutation_NoDup with (l := seq L 5 ++ c :: rest).
      * apply Permutation_sym. change (c :: seq L 5) with ([c] ++ seq L 5).
        rewrite <- app_assoc. apply Permutation_app_swap_app.
      * apply NoDup_app; [apply seq_NoDup|exact Hnd|].
        intros i Hi Hi'. apply in_seq in Hi. apply Hin in Hi'. fold L in Hi'. lia.
    + simpl. lia.
    + intros i Hi. simpl in Hi.
      destruct Hi as [<-|[<-|[<-|[<-|[<-|[<-|Hi]]]]]]; try lia.
      * specialize (Hin c (or_introl eq_refl)). fold L in Hin. lia.
      * specialize (Hin i (or_intror Hi)). fold L in Hin. lia.
  - rewrite !keyframes_kf, R, HS, Hr.
    change (c :: L :: seq (S L) 4 ++ rest) with ([c] ++ seq L 5 ++ rest).
    rewrite !kf_app, Hfresh. change (c :: rest) with ([c] ++ rest).
    rewrite kf_app. rewrite !kf_grow; [lia| |].
    + intros i Hi. apply Hin. now right.
    + intros i [<-|[]]. apply Hin. now left.
  - unfold slot. rewrite HS. fold L.
    pose proof (kf_nonneg (slots t ++ repeat zero_frame 5) (seq (S L) 4)).
    change (seq L 5) with (L :: seq (S L) 4) in Hfresh. rewrite kf_cons in Hfresh.
    destruct (IFrame (nth L (slots t ++ repeat zero_frame 5) zero_frame));
      [cbn [b2z] in Hfresh; lia|reflexivity].
  - intros i Hi. now apply slot_Link_new.
Qed.

Section WriterSteps.

Variable FillFLV : Z -> Z -> AVFrame -> Buffers.
Variable cfg : Config.

Lemma Flush_counts (t : Video) :
  ring_wf t -> Raw (Value t) <> [] -> idrCount t = keyframes t -> Size t < 256 ->
  let t' := Flush FillFLV cfg t in
  ring_wf t' /\ idrCount t' = keyframes t' /\ IFrame (Value t') = false
  /\ Size t' = Size t /\ len (ring t) <= len (ring t')
  /\ IDRing t' = IDRing t /\ CodecID t' = CodecID t.
Proof.
  intros Hwf Hraw Hcount Hsize. cbv zeta. unfold Flush.
  destruct (Raw (Value t)) as [|r0 raw] eqn:ER; [congruence|]. cbn [is_nil]. cbv zeta.
  set (v1 := Flush_FLV FillFLV cfg (Flush_AVCC cfg (CodecID t) (Value t))).
  assert (Hv1 : IFrame v1 = IFrame (Value t)) by apply IFrame_Flush_completion.
  destruct (set_Value_counts t v1 Hwf Hv1) as (Hwf1 & Hk1).
  set (t1 := set_Value t v1) in *.
  assert (Hring1 : ring t1 = ring t) by reflexivity.
  assert (Hidr1 : idrCount t1 = idrCount t) by reflexivity.
  assert (Hsize1 : Size t1 = Size t) by reflexivity.
  assert (Hd1 : IDRing t1 = IDRing t) by reflexivity.
  assert (Hc1 : CodecID t1 = CodecID t) by reflexivity.
  destruct (ring t) as [|c [|n rest]] eqn:Hr;
    try (destruct Hwf as (_ & Hl & _); rewrite Hr in Hl; simpl in Hl; lia).
  assert (Hnext : Next t1 = n) by (unfold Next; rewrite Hring1; reflexivity).
  rewrite Hnext.
  destruct (IFrame (slot t1 n)) eqn:En.
  - rewrite Hidr1, Hsize1.
    destruct (Z.eqb_spec (idrCount t) 1) as [H1|H1].
    + destruct (Z.ltb_spec (Size t) 256) as [_|]; [|lia].
      destruct (Link_new_counts t1 c (n :: rest) Hring1 Hwf1)
        as (Hwf2 & Hk2 & Hr2 & Hf2 & Hi2 & Hs2 & Hd2 & Hc2 & _).
      cbv zeta in *. set (t2 := Link_new t1 5) in *.
      destruct (Media_Flush_counts t2 _ _ _ Hr2 Hwf2) as (W & K & V & Ln & _).
      destruct (Media_Flush_spec t2 _ _ _ Hr2) as (_ & _ & I & Sz & D & C).
      cbv zeta in *. rewrite Hf2 in K. cbn [b2z] in K.
      split; [exact W|]. split; [lia|]. split; [exact V|]. split; [congruence|].
      split; [|split; congruence].
      rewrite Ln, Hr2. unfold len. simpl. lia.
    + set (t2 := set_idrCount t1 (idrCount t - 1)).
      assert (Hwf2 : ring_wf t2) by exact Hwf1.
      assert (Hr2 : ring t2 = c :: n :: rest) by exact Hring1.
      destruct (Media_Flush_counts t2 _ _ _ Hr2 Hwf2) as (W & K & V & Ln & _).
      destruct (Media_Flush_spec t2 _ _ _ Hr2) as (_ & _ & I & Sz & D & C).
      cbv zeta in *.
      change (slot t2 n) with (slot t1 n) in K. rewrite En in K. cbn [b2z] in K.
      change (keyframes t2) with (keyframes t1) in K.
      change (idrCount t2) with (idrCount t - 1) in I.
      change (Size t2) with (Size t1) in Sz.
      change (IDRing t2) with (IDRing t1) in D.
      change (CodecID t2) with (CodecID t1) in C.
      split; [exact W|]. split; [lia|]. split; [exact V|]. split; [congruence|].
      split; [|split; congruence].
      rewrite Ln, Hr2. lia.
  - destruct (Media_Flush_counts t1 _ _ _ Hring1 Hwf1) as (W & K & V & Ln & _).
    destruct (Media_Flush_spec t1 _ _ _ Hring1) as (_ & _ & I & Sz & D & C).
    cbv zeta in *. rewrite En in K. cbn [b2z] in K.
    split; [exact W|]. split; [lia|]. split; [exact V|]. split; [congruence|].
    split; [|split; congruence].
    rewrite Ln, Hring1. lia.
Qed.

End WriterSteps.

Lemma NoDup_skipn_cons {A} (c : A) (k : nat) (rest : list A) :
  NoDup (c :: rest) -> NoDup (c :: skipn k rest).
Proof.
  intros H. inversion H as [|? ? Hc Hr]; subst. constructor.
  - intros Hin. apply Hc. rewrite <- (firstn_skipn k rest). apply in_or_app. now right.
  - rewrite <- (firstn_skipn k rest) in Hr. now apply NoDup_app_remove_l in Hr.
Qed.

Lemma ComputeGOP_counts (t : Video) :
  ring_wf t -> IFrame (Value t) = true -> Size t <= len (ring t) ->
  let t' := ComputeGOP t in
  ring_wf t'
  /\ idrCount t' - keyframes t' = idrCount t - kf (slots t) (tl (ring t))
  /\ Size t' <= len (ring t')
  /\ Size t' <= Size t /\ slots t' = slots t /\ cursor t' = cursor t
  /\ IDRing t' = Some (cursor t) /\ CodecID t' = CodecID t
  /\ exists k, ring t' = cursor t :: skipn k (tl (ring t)).
Proof.
  intros Hwf Hkey Hsize. cbv zeta.
  pose proof (cursor_in_slots t Hwf) as Hcl.
  destruct Hwf as (Hnd & Hlen & Hin).
  destruct (ring t) as [|c rest] eqn:Hr; [simpl in Hlen; lia|].
  cbn [tl].
  assert (Hcur : cursor t = c) by (unfold cursor; now rewrite Hr).
  assert (HkeyC : IFrame (nth c (slots t) zero_frame) = true).
  { unfold Value, slot in Hkey. now rewrite Hcur in Hkey. }
  assert (Hsame : forall g : Z,
    let t2 := set_GOP (set_idrCount t (idrCount t + 1)) g in
    ring_wf (set_IDRing t2 (Some (cursor t2)))
    /\ idrCount (set_IDRing t2 (Some (cursor t2)))
         - keyframes (set_IDRing t2 (Some (cursor t2)))
       = idrCount t - kf (slots t) rest
    /\ ring (set_IDRing t2 (Some (cursor t2))) = c :: skipn 0 rest).
  { intros g t2. split; [|split].
    - unfold ring_wf. cbn [ring slots set_IDRing set_GOP set_idrCount t2].
      rewrite Hr. auto.
    - rewrite keyframes_kf. cbn [ring slots idrCount set_IDRing set_GOP set_idrCount t2].
      rewrite Hr, kf_cons, HkeyC. cbn [b2z]. lia.
    - cbn [ring set_IDRing set_GOP set_idrCount t2]. now rewrite Hr. }
  unfold ComputeGOP. cbv zeta.
  cbn [IDRing set_idrCount].
  destruct (IDRing t) as [idr|].
  2:{ destruct (Hsame 0) as (W & K & R). cbv zeta in *.
      split; [exact W|]. split; [exact K|].
      cbn [Size ring slots cursor IDRing CodecID set_IDRing set_idrCount].
      rewrite Hr, Hcur. cbn [hd tl]. repeat split; try lia; eauto.
      exists O. reflexivity. }
  set (g := uint32 _).
  assert (Hg : 0 <= g) by (apply Z.mod_pos_bound; lia).
  cbn [Size GOP set_GOP set_idrCount].
  destruct (Z.gtb_spec (Size t - g - 5) 5) as [Hl|Hl].
  2:{ destruct (Hsame g) as (W & K & R). cbv zeta in *.
      split; [exact W|]. split; [exact K|].
      cbn [Size ring slots cursor IDRing CodecID set_IDRing set_GOP set_idrCount].
      rewrite Hr, Hcur. cbn [hd tl]. repeat split; try lia; eauto.
      exists O. reflexivity. }
  set (l := Size t - g - 5) in *.
  cbn [ring set_Size set_GOP set_idrCount]. rewrite Hr.
  rewrite Unlink_inside by lia. cbv iota beta.
  match goal with
  | |- context [Do_uncount ?t0 ?vs] =>
      destruct (Do_uncount_spec vs t0) as (D1 & D2 & D3 & D4 & D5 & D6 & D7);
      set (t3 := Do_uncount t0 vs) in *
  end.
  cbv zeta in *.
  cbn [ring slots idrCount Size CodecID set_ring set_Size set_GOP set_idrCount] in D1, D2, D3, D4, D7.
  assert (Hsplit : kf (slots t) rest
                   = kf (slots t) (firstn (Z.to_nat l) rest)
                     + kf (slots t) (skipn (Z.to_nat l) rest)).
  { rewrite <- kf_app. now rewrite firstn_skipn. }
  assert (Hlen' : len (skipn (Z.to_nat l) rest) = len rest - l).
  { unfold len in *. rewrite length_skipn. simpl length in Hsize. lia. }
  assert (Hlr : len (c :: rest) = len rest + 1) by (unfold len; simpl length; lia).
  split; [|split; [|split; [|split; [|split; [|split; [|split; [|split]]]]]]].
  - unfold ring_wf. cbn [ring slots set_IDRing]. rewrite D2, D3.
    split; [now apply NoDup_skipn_cons|]. split.
    + unfold len in *. simpl length in *. lia.
    + intros i [<-|Hi]; [apply Hin; now left|].
      apply Hin. right. rewrite <- (firstn_skipn (Z.to_nat l) rest).
      apply in_or_app. now right.
  - rewrite keyframes_kf. cbn [ring slots idrCount set_IDRing].
    rewrite D1, D2, D3, kf_cons, HkeyC. cbn [b2z]. lia.
  - cbn [ring Size set_IDRing]. rewrite D3, D4.
    replace (len (c :: skipn (Z.to_nat l) rest)) with (len (skipn (Z.to_nat l) rest) + 1)
      by (unfold len; simpl length; lia).
    lia.
  - cbn [Size set_IDRing]. rewrite D4. lia.
  - cbn [slots set_IDRing]. exact D2.
  - unfold cursor. cbn [ring set_IDRing]. rewrite D3, Hr. reflexivity.
  - cbn [IDRing set_IDRing]. unfold cursor at 1. rewrite D3, Hcur. reflexivity.
  - cbn [CodecID set_IDRing]. exact D7.
  - exists (Z.to_nat l). cbn [ring set_IDRing tl]. rewrite D3, Hcur. reflexivity.
Qed.

Lemma Raw_fold_AppendRaw (l : list NALUSlice) (v : AVFrame) :
  Raw (fold_left AppendRaw l v) = Raw v ++ l.
Proof.
  revert v; induction l as [|n l IH]; intros v; simpl.
  - now rewrite app_nil_r.
  - rewrite IH. simpl. now rewrite <- app_assoc.
Qed.

Section WriterInvariant.

Variable FillFLV : Z -> Z -> AVFrame -> Buffers.
Variable cfg : Config.

Lemma write_frame_inv (t : Video) (au : AccessUnit) :
  cache_inv t -> Size t < 256 ->
  cache_inv (write_frame FillFLV cfg t au)
  /\ Size (write_frame FillFLV cfg t au) <= Size t.
Proof.
  intros (Hwf & Hcount & Hclear & Hsize) Hceil. unfold write_frame. cbv zeta.
  set (v1 := set_IFrame _ (au_key au)).
  assert (Hraw : Raw v1 <> []).
  { unfold v1. cbn [Raw set_IFrame set_PTS_DTS]. rewrite Raw_fold_AppendRaw.
    destruct (Raw (Value t)); discriminate. }
  assert (Hkey : IFrame v1 = au_key au) by reflexivity.
  pose proof (ring_wf_set_Value t v1 Hwf) as Hwf1.
  pose proof (Value_set_Value t v1 Hwf) as HV1.
  set (t1 := set_Value t v1) in *.
  pose proof (cursor_in_slots t Hwf) as Hcl.
  assert (Hring1 : ring t1 = ring t) by reflexivity.
  assert (Htail : kf (slots t1) (tl (ring t1)) = idrCount t).
  { rewrite Hcount, keyframes_kf, Hring1. unfold t1, set_Value. cbn [slots set_slots].
    destruct Hwf as (Hnd & Hlen & _). unfold Value, slot, cursor in *.
    destruct (ring t) as [|c rest]; [simpl in Hlen; lia|]. cbn [hd tl] in *.
    inversion Hnd; subst. rewrite kf_set_nth_notin by assumption.
    rewrite kf_cons, Hclear. cbn [b2z]. lia. }
  assert (Hall : keyframes t1 = b2z (au_key au) + idrCount t).
  { rewrite <- Htail, keyframes_kf. unfold Value, slot, cursor in HV1.
    pose proof Hwf1 as (_ & Hl1 & _).
    destruct (ring t1) as [|c rest]; [simpl in Hl1; lia|].
    cbn [hd tl] in *. rewrite kf_cons, HV1, Hkey. reflexivity. }
  destruct (au_key au) eqn:Ekey.
  - destruct (ComputeGOP_counts t1) as (W & K & S1 & S2 & Sl & Cu & _ & _ & _);
      [exact Hwf1 | now rewrite HV1 | exact Hsize |].
    cbv zeta in *. set (t2 := ComputeGOP t1) in *.
    rewrite Htail in K. change (idrCount t1) with (idrCount t) in K.
    assert (K0 : idrCount t2 = keyframes t2) by lia.
    assert (HV2 : Value t2 = v1).
    { unfold Value, slot. rewrite Sl, Cu. exact HV1. }
    destruct (Flush_counts FillFLV cfg t2 W) as (W' & K' & V' & Sz & Ln & _);
      [now rewrite HV2 | exact K0 | change (Size t1) with (Size t) in S2; lia |].
    cbv zeta in *. change (Size t1) with (Size t) in S2.
    split; [|lia]. repeat split; try apply W'; try assumption. lia.
  - destruct (Flush_counts FillFLV cfg t1 Hwf1) as (W' & K' & V' & Sz & Ln & _);
      [now rewrite HV1 | rewrite Hall; reflexivity | exact Hceil |].
    cbv zeta in *. change (Size t1) with (Size t) in Sz.
    split; [|lia]. repeat split; try apply W'; try assumption.
    rewrite Hring1 in Ln. lia.
Qed.

Lemma write_frames_inv (aus : list AccessUnit) (t : Video) :
  cache_inv t -> Size t < 256 ->
  cache_inv (write_frames FillFLV cfg t aus)
  /\ Size (write_frames FillFLV cfg t aus) < 256.
Proof.
  revert t; induction aus as [|au aus IH]; intros t Hinv Hceil.
  - simpl. auto.
  - cbn [write_frames fold_left].
    destruct (write_frame_inv t au Hinv Hceil) as (Hinv' & Hs).
    apply IH; [exact Hinv'|lia].
Qed.

End WriterInvariant.

Lemma cache_inv_new_track (n : nat) (codecID nalulen : Z) :
  (2 <= n)%nat -> cache_inv (new_track n codecID nalulen).
Proof.
  intros Hn. split; [now apply ring_wf_new_track|].
  assert (Hz : forall i, nth i (repeat zero_frame n) zero_frame = zero_frame).
  { intros i. destruct (Nat.ltb_spec i n).
    - now apply nth_repeat_lt.
    - apply nth_overflow. rewrite repeat_length. lia. }
  split; [|split].
  - rewrite keyframes_kf. unfold new_track. cbn [idrCount slots ring].
    induction (seq 0 n) as [|i l IH]; [reflexivity|].
    rewrite kf_cons, Hz, <- IH. reflexivity.
  - unfold Value, slot, new_track. cbn [slots]. now rewrite Hz.
  - unfold new_track, len. cbn [Size ring]. rewrite length_seq. lia.
Qed.

(** ** The keyframe marker *)

Lemma slot_Link_new_fresh (t : Video) (k i : nat) :
  (length (slots t) <= i)%nat -> slot (Link_new t k) i = zero_frame.
Proof.
  intros Hi. unfold slot, Link_new. cbn [slots set_ring set_slots].
  rewrite app_nth2 by lia.
  destruct (Nat.ltb_spec (i - length (slots t)) k).
  - now apply nth_repeat_lt.
  - apply nth_overflow. rewrite repeat_length. lia.
Qed.

Section FlushShape.

Variable FillFLV : Z -> Z -> AVFrame -> Buffers.
Variable cfg : Config.

(** What [Flush] does to the ring: the cursor moves to the old successor,
    which is cleared, or, when the ring grows, to the first of five fresh
    slots put before it; the finalized frame keeps its keyframe flag and the
    other slots are untouched. *)
Lemma Flush_shape (t : Video) (c n : nat) (rest : list nat) :
  ring_wf t -> Raw (Value t) <> [] -> ring t = c :: n :: rest ->
  let t' := Flush FillFLV cfg t in
  ring_wf t' /\ IFrame (Value t') = false /\ Size t' = Size t
  /\ IDRing t' = IDRing t /\ len (ring t) <= len (ring t')
  /\ IFrame (slot t' c) = IFrame (slot t c)
  /\ (forall i, In i rest -> IFrame (slot t' i) = IFrame (slot t i))
  /\ ((ring t' = n :: rest ++ [c])
      \/ (exists f0 fresh, ring t' = f0 :: fresh ++ n :: rest ++ [c]
                           /\ nonkey t' fresh
                           /\ IFrame (slot t' n) = IFrame (slot t n))).
Proof.
  intros Hwf Hraw Hr. cbv zeta.
  destruct (ring_wf_cons t c n rest Hwf Hr) as (Hcn & Hc & Hn & Hcl & Hnl).
  assert (Hcur : cursor t = c) by (unfold cursor; now rewrite Hr).
  assert (Hfin : IFrame (slot (Flush FillFLV cfg t) c) = IFrame (slot t c)).
  { rewrite <- Hcur. rewrite (Flush_finalized FillFLV cfg t Hwf Hraw).
    apply IFrame_Flush_completion. }
  unfold Flush in *.
  destruct (Raw (Value t)) as [|r0 raw] eqn:ER; [congruence|]. cbn [is_nil] in *.
  cbv zeta in *.
  set (v1 := Flush_FLV FillFLV cfg (Flush_AVCC cfg (CodecID t) (Value t))) in *.
  assert (Hv1 : IFrame v1 = IFrame (Value t)) by apply IFrame_Flush_completion.
  destruct (set_Value_counts t v1 Hwf Hv1) as (Hwf1 & _).
  set (t1 := set_Value t v1) in *.
  assert (Hring1 : ring t1 = c :: n :: rest) by exact Hr.
  assert (Hslot1 : forall i, i <> c -> slot t1 i = slot t i).
  { intros i Hi. unfold t1. rewrite slot_set_Value, Hcur.
    destruct (Nat.eqb_spec c i); [congruence|reflexivity]. }
  assert (Hlen1 : length (slots t1) = length (slots t))
    by (unfold t1, set_Value; cbn [slots set_slots]; apply length_set_nth).
  assert (Hrest : forall i, In i rest -> i <> c /\ i <> n /\ (i < length (slots t))%nat).
  { intros i Hi. destruct Hwf as (_ & _ & Hin). rewrite Hr in Hin.
    repeat split.
    - intros ->. apply Hc. now right.
    - intros ->. now apply Hn.
    - apply Hin. right. now right. }
  assert (Hnormal : forall t2, ring t2 = c :: n :: rest -> ring_wf t2 ->
            (forall i, slot t2 i = slot t1 i) ->
            Size t2 = Size t -> IDRing t2 = IDRing t ->
            let t' := Media_Flush t2 in
            ring_wf t' /\ IFrame (Value t') = false /\ Size t' = Size t
            /\ IDRing t' = IDRing t /\ len (c :: n :: rest) <= len (ring t')
            /\ (forall i, In i rest -> IFrame (slot t' i) = IFrame (slot t i))
            /\ ring t' = n :: rest ++ [c]).
  { intros t2 Hr2 Hwf2 Hs2 Hsz2 Hid2. cbv zeta.
    destruct (Media_Flush_counts t2 _ _ _ Hr2 Hwf2) as (W & _ & V & Ln & _).
    destruct (Media_Flush_spec t2 _ _ _ Hr2) as (R & _ & _ & Sz & D & _).
    cbv zeta in *.
    split; [exact W|]. split; [exact V|]. split; [congruence|].
    split; [congruence|]. split; [rewrite Ln, Hr2; lia|]. split; [|exact R].
    intros i Hi. destruct (Hrest i Hi) as (Hic & Hin' & _).
    rewrite (slot_Media_Flush_other t2 c n i rest Hr2 Hin'), Hs2, Hslot1; auto. }
  assert (Hnext : Next t1 = n) by (unfold Next; now rewrite Hring1).
  rewrite Hnext in *.
  destruct (IFrame (slot t1 n)) eqn:En.
  2:{ destruct (Hnormal t1 Hring1 Hwf1 (fun _ => eq_refl) eq_refl eq_refl)
        as (W & V & Sz & D & Ln & Hk & R). cbv zeta in *.
      repeat split; auto; try apply W; rewrite Hr; exact Ln. }
  destruct (idrCount t1 =? 1).
  2:{ destruct (Hnormal (set_idrCount t1 (idrCount t1 - 1)) Hring1 Hwf1
                  (fun _ => eq_refl) eq_refl eq_refl)
        as (W & V & Sz & D & Ln & Hk & R). cbv zeta in *.
      repeat split; auto; try apply W; rewrite Hr; exact Ln. }
  destruct (Size t1 <? 256).
  2:{ destruct (Hnormal t1 Hring1 Hwf1 (fun _ => eq_refl) eq_refl eq_refl)
        as (W & V & Sz & D & Ln & Hk & R). cbv zeta in *.
      repeat split; auto; try apply W; rewrite Hr; exact Ln. }
  destruct (Link_new_counts t1 c (n :: rest) Hring1 Hwf1)
    as (Hwf2 & _ & Hr2 & _ & _ & Hs2 & Hd2 & _ & Hold).
  cbv zeta in *. set (t2 := Link_new t1 5) in *.
  set (L := length (slots t1)) in *.
  destruct (Media_Flush_counts t2 _ _ _ Hr2 Hwf2) as (W & _ & V & Ln & _).
  destruct (Media_Flush_spec t2 _ _ _ Hr2) as (R & _ & _ & Sz & D & _).
  cbv zeta in *.
  assert (Hsz1 : Size t1 = Size t) by reflexivity.
  assert (Hid1 : IDRing t1 = IDRing t) by reflexivity.
  assert (Hother : forall i, i <> L -> slot (Media_Flush t2) i = slot t2 i).
  { intros i Hi. now apply (slot_Media_Flush_other t2 c L i _ Hr2). }
  split; [exact W|]. split; [exact V|]. split; [congruence|].
  split; [congruence|]. split.
  { rewrite Ln, Hr2, Hr. unfold len. simpl. lia. }
  split; [exact Hfin|]. split.
  { intros i Hi. destruct (Hrest i Hi) as (Hic & Hin' & Hil).
    rewrite Hother by (unfold L; lia). rewrite Hold by (unfold L; lia).
    now rewrite Hslot1. }
  right. exists L, (seq (S L) 4). split; [|split].
  - rewrite R. rewrite <- !app_assoc. reflexivity.
  - unfold nonkey. apply Forall_forall. intros i Hi. apply in_seq in Hi.
    rewrite Hother by lia. unfold t2. rewrite slot_Link_new_fresh by (fold L; lia).
    reflexivity.
  - rewrite Hother by (unfold L; lia). rewrite Hold by (unfold L; lia).
    now rewrite Hslot1.
Qed.

End FlushShape.

Lemma nonkey_app (t : Video) (a b : list nat) :
  nonkey t (a ++ b) <-> nonkey t a /\ nonkey t b.
Proof. unfold nonkey. apply Forall_app. Qed.

Lemma nonkey_cons (t : Video) (i : nat) (l : list nat) :
  nonkey t (i :: l) <-> IFrame (slot t i) = false /\ nonkey t l.
Proof. unfold nonkey. apply Forall_cons_iff. Qed.

Lemma nonkey_transfer (t t' : Video) (l : list nat) :
  (forall i, In i l -> IFrame (slot t' i) = IFrame (slot t i)) ->
  nonkey t l -> nonkey t' l.
Proof.
  unfold nonkey. rewrite !Forall_forall. intros H H0 i Hi.
  rewrite H by assumption. now apply H0.
Qed.

Lemma nonkey_nil (t : Video) : nonkey t [].
Proof. constructor. Qed.

Section MarkerInvariant.

Variable FillFLV : Z -> Z -> AVFrame -> Buffers.
Variable cfg : Config.

Lemma write_frame_track_inv (t : Video) (au : AccessUnit) :
  track_inv t -> track_inv (write_frame FillFLV cfg t au).
Proof.
  intros (Hwf & Hclear & Hsize & Hm). unfold write_frame. cbv zeta.
  set (v1 := set_IFrame _ (au_key au)).
  assert (Hraw : Raw v1 <> []).
  { unfold v1. cbn [Raw set_IFrame set_PTS_DTS]. rewrite Raw_fold_AppendRaw.
    destruct (Raw (Value t)); discriminate. }
  assert (Hkey : IFrame v1 = au_key au) by reflexivity.
  pose proof (ring_wf_set_Value t v1 Hwf) as Hwf1.
  pose proof (Value_set_Value t v1 Hwf) as HV1.
  pose proof Hwf as (Hnd & Hlen & Hin).
  destruct (ring t) as [|c [|n rest]] eqn:Hr; try (simpl in Hlen; lia).
  destruct (ring_wf_cons t c n rest Hwf Hr) as (Hcn & Hc & Hn & Hcl & Hnl).
  assert (Hcur : cursor t = c) by (unfold cursor; now rewrite Hr).
  assert (Hslot1 : forall i, i <> c -> slot (set_Value t v1) i = slot t i).
  { intros i Hi. rewrite slot_set_Value, Hcur.
    destruct (Nat.eqb_spec c i); [congruence|reflexivity]. }
  assert (Hslotc : slot (set_Value t v1) c = v1).
  { unfold Value in HV1. now rewrite <- Hcur. }
  set (t1 := set_Value t v1) in *.
  assert (Hring1 : ring t1 = c :: n :: rest) by exact Hr.
  assert (Hsize1 : Size t1 <= len (ring t1)) by (rewrite Hring1; exact Hsize).
  destruct (au_key au) eqn:Ekey.
  - destruct (ComputeGOP_counts t1 Hwf1) as (W & _ & S1 & S2 & Sl & Cu & Id & _ & (k & Rk));
      [now rewrite HV1 | exact Hsize1 |].
    cbv zeta in *. set (t2 := ComputeGOP t1) in *.
    rewrite Hring1 in Rk. cbn [tl] in Rk.
    change (cursor t1) with (cursor t) in Rk, Id, Cu. rewrite Hcur in Rk, Id, Cu.
    pose proof W as (_ & Hlen2 & _). rewrite Rk in Hlen2.
    destruct (skipn k (n :: rest)) as [|n2 rest2] eqn:Esk; [simpl in Hlen2; lia|].
    assert (HV2 : Value t2 = v1).
    { unfold Value, slot. rewrite Sl, Cu. exact Hslotc. }
    destruct (Flush_shape FillFLV cfg t2 c n2 rest2 W) as
      (W' & V' & Sz & D & Ln & Kc & Krest & Shape);
      [now rewrite HV2 | exact Rk |].
    cbv zeta in *.
    split; [exact W'|]. split; [exact V'|]. split; [lia|].
    unfold marker_inv. rewrite D, Id. left.
    assert (Hck : IFrame (slot (Flush FillFLV cfg t2) c) = true).
    { rewrite Kc. unfold slot. rewrite Sl. fold (slot t1 c). now rewrite Hslotc. }
    destruct Shape as [R|(f0 & fresh & R & _ & _)].
    + exists n2, rest2, []. rewrite R. split; [reflexivity|].
      split; [apply nonkey_nil|]. congruence.
    + exists f0, (fresh ++ n2 :: rest2), []. rewrite R.
      split; [now rewrite <- app_assoc|]. split; [apply nonkey_nil|]. congruence.
  - destruct (Flush_shape FillFLV cfg t1 c n rest Hwf1) as
      (W' & V' & Sz & D & Ln & Kc & Krest & Shape);
      [now rewrite HV1 | exact Hring1 |].
    cbv zeta in *. set (t' := Flush FillFLV cfg t1) in *.
    rewrite Hring1 in Ln.
    split; [exact W'|]. split; [exact V'|].
    split; [change (Size t1) with (Size t) in Sz; lia|].
    assert (Hck : IFrame (slot t' c) = false) by (rewrite Kc, Hslotc; exact Hkey).
    assert (Hrk : forall i, In i rest -> IFrame (slot t' i) = IFrame (slot t i)).
    { intros i Hi. rewrite Krest by assumption. apply f_equal, Hslot1.
      intros ->. apply Hc. now right. }
    assert (Hcursor' : IFrame (slot t' (cursor t')) = false) by exact V'.
    assert (Hn' : forall R0, ring t' = n :: R0 -> IFrame (slot t' n) = false).
    { intros R0 HR0. unfold Value, cursor in V'. now rewrite HR0 in V'. }
    assert (Hf0 : forall f0 R0, ring t' = f0 :: R0 -> IFrame (slot t' f0) = false).
    { intros f0 R0 HR0. unfold Value, cursor in V'. now rewrite HR0 in V'. }
    assert (Hn1 : slot t1 n = slot t n) by (apply Hslot1; congruence).
    unfold marker_inv in *. rewrite D. change (IDRing t1) with (IDRing t).
    destruct (IDRing t) as [m|].
    + destruct Hm as [(c0 & pre & post & Hring & Hpost & Himp)|(rest0 & Hring & Hrest0)].
      * rewrite Hr in Hring. injection Hring as <- Hring.
        destruct pre as [|p pre1]; cbn [app] in Hring; injection Hring as <- ->.
        -- destruct Shape as [R|(f0 & fresh & R & Hfresh & Hkn)].
           ++ right. exists (post ++ [c]). split; [exact R|].
              apply nonkey_app. split.
              ** eapply nonkey_transfer; [|exact Hpost]. intros i Hi. now apply Hrk.
              ** apply nonkey_cons. split; [exact Hck|apply nonkey_nil].
           ++ left. exists f0, fresh, (post ++ [c]). split; [exact R|]. split.
              ** apply nonkey_app. split.
                 --- eapply nonkey_transfer; [|exact Hpost]. intros i Hi. now apply Hrk.
                 --- apply nonkey_cons. split; [exact Hck|apply nonkey_nil].
              ** intros _. exact Hfresh.
        -- assert (Hpre1 : forall i, In i pre1 -> In i (pre1 ++ m :: post))
             by (intros i Hi; apply in_or_app; now left).
           assert (Hpost1 : forall i, In i post -> In i (pre1 ++ m :: post))
             by (intros i Hi; apply in_or_app; right; now right).
           assert (Hm1 : In m (pre1 ++ m :: post))
             by (apply in_or_app; right; now left).
           assert (HpostK : nonkey t' (post ++ [c])).
           { apply nonkey_app. split.
             - eapply nonkey_transfer; [|exact Hpost]. intros i Hi. apply Hrk. auto.
             - apply nonkey_cons. split; [exact Hck|apply nonkey_nil]. }
           destruct Shape as [R|(f0 & fresh & R & Hfresh & Hkn)].
           ++ left. exists n, pre1, (post ++ [c]). split.
              { rewrite R, <- app_assoc. reflexivity. }
              split; [exact HpostK|].
              intros Hmk. rewrite Hrk in Hmk by exact Hm1.
              apply Himp in Hmk. apply nonkey_cons in Hmk as [_ Hmk].
              eapply nonkey_transfer; [|exact Hmk]. intros i Hi. apply Hrk. auto.
           ++ left. exists f0, (fresh ++ n :: pre1), (post ++ [c]). split.
              { rewrite R, <- !app_assoc. reflexivity. }
              split; [exact HpostK|].
              intros Hmk. rewrite Hrk in Hmk by exact Hm1.
              apply Himp in Hmk. apply nonkey_cons in Hmk as [Hpk Hmk].
              apply nonkey_app. split; [exact Hfresh|].
              apply nonkey_cons. split; [now rewrite Hkn, Hn1|].
              eapply nonkey_transfer; [|exact Hmk]. intros i Hi. apply Hrk. auto.
      * rewrite Hr in Hring. injection Hring as <- <-.
        apply nonkey_cons in Hrest0 as [Hnk Hrestk].
        assert (HrestK : nonkey t' rest).
        { eapply nonkey_transfer; [|exact Hrestk]. intros i Hi. now apply Hrk. }
        destruct Shape as [R|(f0 & fresh & R & Hfresh & Hkn)].
        -- left. exists n, rest, []. split; [exact R|]. split; [apply nonkey_nil|].
           intros _. exact HrestK.
        -- left. exists f0, (fresh ++ n :: rest), []. split.
           { rewrite R, <- !app_assoc. reflexivity. }
           split; [apply nonkey_nil|]. intros _.
           apply nonkey_app. split; [exact Hfresh|].
           apply nonkey_cons. split; [now rewrite Hkn, Hn1|exact HrestK].
    + rewrite Hr in Hm. apply nonkey_cons in Hm as [_ Hm].
      apply nonkey_cons in Hm as [Hnk Hrestk].
      assert (HrestK : nonkey t' rest).
      { eapply nonkey_transfer; [|exact Hrestk]. intros i Hi. now apply Hrk. }
      assert (HcK : nonkey t' [c])
        by (apply nonkey_cons; split; [exact Hck|apply nonkey_nil]).
      destruct Shape as [R|(f0 & fresh & R & Hfresh & Hkn)]; rewrite R.
      * apply nonkey_cons. split; [now apply (Hn' _ R)|].
        apply nonkey_app. split; assumption.
      * apply nonkey_cons. split; [now apply (Hf0 _ _ R)|].
        apply nonkey_app. split; [exact Hfresh|].
        apply nonkey_cons. split; [now rewrite Hkn, Hn1|].
        apply nonkey_app. split; assumption.
Qed.

Lemma write_frames_track_inv (aus : list AccessUnit) (t : Video) :
  track_inv t -> track_inv (write_frames FillFLV cfg t aus).
Proof.
  revert t; induction aus as [|au aus IH]; intros t Hinv; [exact Hinv|].
  cbn [write_frames fold_left]. apply IH. now apply write_frame_track_inv.
Qed.

End MarkerInvariant.

Lemma track_inv_new_track (n : nat) (codecID nalulen : Z) :
  (2 <= n)%nat -> track_inv (new_track n codecID nalulen).
Proof.
  intros Hn. destruct (cache_inv_new_track n codecID nalulen Hn) as (W & _ & V & S).
  split; [exact W|]. split; [exact V|]. split; [exact S|].
  unfold marker_inv, new_track, nonkey. cbn [IDRing ring].
  apply Forall_forall. intros i _. unfold slot. cbn [slots].
  destruct (Nat.ltb_spec i n).
  - now rewrite nth_repeat_lt.
  - rewrite nth_overflow by (rewrite repeat_length; lia). reflexivity.
Qed.

Section Subscriber.

Variable FillFLV : Z -> Z -> AVFrame -> Buffers.
Variable cfg : Config.

(** Between two frames, a cache that holds a keyframe has its marker on the
    most recent one. *)
Lemma marker_on_last_keyframe (t : Video) :
  track_inv t ->
  (exists i, In i (ring t) /\ IFrame (slot t i) = true) ->
  exists m pre post,
    IDRing t = Some m
    /\ ring t = cursor t :: pre ++ m :: post /\ m <> cursor t
    /\ ~ In (cursor t) post
    /\ nonkey t post
    /\ IFrame (slot t m) = true.
Proof.
  intros (Hwf & Hv & _ & Hm) (i & Hi & Hik). unfold marker_inv in Hm.
  assert (Hcontra : nonkey t (ring t) -> False).
  { intros H. unfold nonkey in H. rewrite Forall_forall in H.
    specialize (H i Hi). congruence. }
  destruct (IDRing t) as [m|]; [|contradiction].
  destruct Hm as [(c & pre & post & Hring & Hpost & Himp)|(rest & Hring & Hrest)].
  - assert (Hcur : cursor t = c) by (unfold cursor; now rewrite Hring).
    assert (Hck : IFrame (slot t c) = false) by (rewrite <- Hcur; exact Hv).
    destruct (IFrame (slot t m)) eqn:Emk.
    + exists m, pre, post. rewrite Hcur.
      destruct Hwf as (Hnd & _). rewrite Hring in Hnd.
      inversion Hnd as [|? ? Hnotin _]; subst.
      repeat split; auto.
      * intros ->. apply Hnotin. apply in_or_app. right. now left.
      * intros Hc. apply Hnotin. apply in_or_app. right. now right.
    + exfalso. apply Hcontra. rewrite Hring.
      apply nonkey_cons. split; [exact Hck|].
      apply nonkey_app. split; [now apply Himp|].
      apply nonkey_cons. split; assumption.
  - exfalso. apply Hcontra. rewrite Hring. apply nonkey_cons. split; [|exact Hrest].
    assert (Hcur : cursor t = m) by (unfold cursor; now rewrite Hring).
    rewrite <- Hcur. exact Hv.
Qed.

(** C8. After any sequence of frames written to a fresh track, and whatever
    is being assembled in the slot under the write cursor, if a finalized
    slot of the cache holds a keyframe, the cursor [ReadRing] returns sits on
    the keyframe marker: a slot of the ring other than the write cursor,
    holding a keyframe, with no keyframe among the slots written after it;
    the frame [Play] delivers first is that keyframe. *)
Theorem ReadRing_starts_at_last_keyframe (n : nat) (codecID nalulen : Z)
    (aus : list AccessUnit) (assembling : option AVFrame) :
  (2 <= n)%nat ->
  let t0 := write_frames FillFLV cfg (new_track n codecID nalulen) aus in
  let t := match assembling with
           | None => t0
           | Some v => set_Value t0 v
           end in
  (exists i, In i (ring t) /\ i <> cursor t /\ IFrame (slot t i) = true) ->
  exists m pre post,
    Ring (ReadRing t) = Some m /\ IDRing t = Some m
    /\ ring t = cursor t :: pre ++ m :: post /\ m <> cursor t
    /\ nonkey t post
    /\ IFrame (slot t m) = true
    /\ Play_first t = Some (slot t m).
Proof.
  intros Hn t0 t (i & Hi & Hic & Hik).
  pose proof (write_frames_track_inv FillFLV cfg aus (new_track n codecID nalulen)
                (track_inv_new_track n codecID nalulen Hn)) as Hinv.
  fold t0 in Hinv.
  assert (Hsame : ring t = ring t0 /\ IDRing t = IDRing t0 /\ cursor t = cursor t0
                  /\ forall j, j <> cursor t0 -> slot t j = slot t0 j).
  { unfold t. destruct assembling as [v|]; [|auto].
    repeat split. intros j Hj. rewrite slot_set_Value.
    destruct (Nat.eqb_spec (cursor t0) j); [congruence|reflexivity]. }
  destruct Hsame as (Hring & Hid & Hcur & Hslot).
  destruct (marker_on_last_keyframe t0 Hinv) as (m & pre & post & Hm & Hr & Hmc & Hcp & Hpost & Hmk).
  { exists i. rewrite <- Hring, <- Hslot by congruence. auto. }
  exists m, pre, post. unfold Play_first, ReadRing. cbn [Ring].
  rewrite Hid, Hm, Hring, Hcur, Hslot by exact Hmc.
  repeat split; auto.
  unfold nonkey in *. rewrite Forall_forall in *. intros j Hj.
  rewrite Hslot; [now apply Hpost|]. intros ->. contradiction.
Qed.

(** Below the ceiling of 256 recorded slots the counter of resident
    keyframes is exact after every [Flush]. *)
Theorem idrCount_below_ceiling (n : nat) (codecID nalulen : Z)
    (aus : list AccessUnit) :
  (2 <= n < 256)%nat ->
  let t := write_frames FillFLV cfg (new_track n codecID nalulen) aus in
  idrCount t = keyframes t.
Proof.
  intros Hn t.
  destruct (write_frames_inv FillFLV cfg aus (new_track n codecID nalulen))
    as ((_ & H & _) & _).
  - apply cache_inv_new_track. lia.
  - unfold new_track. cbn [Size]. lia.
  - exact H.
Qed.

End Subscriber.

Lemma ReadRing_starts_at_last_keyframe_witness :
  let t := write_frames no_FLV (mkConfig true false) (new_track 8 7 4)
             (gop 20 ++ gop 3 ++ gop 2 ++ gop 30) in
  exists m pre post,
    Ring (ReadRing t) = Some m /\ IDRing t = Some m
    /\ ring t = cursor t :: pre ++ m :: post /\ m <> cursor t
    /\ nonkey t post
    /\ IFrame (slot t m) = true
    /\ Play_first t = Some (slot t m).
Proof.
  apply (ReadRing_starts_at_last_keyframe no_FLV (mkConfig true false) 8 7 4
           (gop 20 ++ gop 3 ++ gop 2 ++ gop 30) None).
  - lia.
  - exists 5%nat. split; [|split].
    + assert (H : existsb (Nat.eqb 5)
                    (ring (write_frames no_FLV (mkConfig true false) (new_track 8 7 4)
                             (gop 20 ++ gop 3 ++ gop 2 ++ gop 30))) = true)
        by (vm_compute; reflexivity).
      apply existsb_exists in H as (x & Hx & E). apply Nat.eqb_eq in E.
      subst x. exact Hx.
    + vm_compute. discriminate.
    + vm_compute. reflexivity.
Defined.

Lemma idrCount_below_ceiling_witness :
  let t := write_frames no_FLV (mkConfig true false) (new_track 8 7 4)
             (gop 20 ++ gop 3 ++ gop 2 ++ gop 30) in
  idrCount t = keyframes t.
Proof.
  apply (idrCount_below_ceiling no_FLV (mkConfig true false) 8 7 4
           (gop 20 ++ gop 3 ++ gop 2 ++ gop 30)).
  lia.
Defined.

(** C7 at the ceiling: a cache of 256 slots, a keyframe, 249 frames, a second
    keyframe and 255 frames.  The first keyframe is overwritten with the
    counter at 2, which is decremented; the second is overwritten with the
    counter at 1 and the recorded size at 256, so the ring is not grown and
    the counter is left at 1 with no keyframe in the cache. *)
Theorem idrCount_stale_at_ceiling :
  let t := write_frames no_FLV (mkConfig true false) (new_track 256 7 4)
             (gop 249 ++ gop 255) in
  idrCount t = 1 /\ keyframes t = 0 /\ idrCount t <> keyframes t.
Proof. vm_compute. repeat split; discriminate. Qed.

(** * Further properties *)


(** ** Further properties of the Annex-B ingest *)

Lemma occurs_cons (b : Z) (t sep : bytes) :
  occurs sep (b :: t) = HasPrefix (b :: t) sep || occurs sep t.
Proof.
  unfold occurs. rewrite Cut_cons.
  destruct (HasPrefix (b :: t) sep); [reflexivity|].
  destruct (Cut t sep) as [[bf af] f]. reflexivity.
Qed.

Lemma occurs_app (p sep q : bytes) :
  sep <> [] -> occurs sep (p ++ sep ++ q) = true.
Proof.
  intros Hsep. induction p as [|x p IH].
  - destruct sep as [|y sep]; [congruence|]. cbn [app].
    change ((y :: sep) ++ q) with (y :: sep ++ q).
    rewrite occurs_cons.
    assert (H : HasPrefix (y :: sep ++ q) (y :: sep) = true).
    { change (y :: sep ++ q) with ((y :: sep) ++ q). apply HasPrefix_mono.
      clear. induction (y :: sep) as [|z l IH]; [reflexivity|].
      simpl. now rewrite Z.eqb_refl. }
    now rewrite H.
  - cbn [app]. rewrite occurs_cons, IH. apply orb_true_r.
Qed.

Lemma Cut_before_clean (s sep before after : bytes) :
  sep <> [] -> Cut s sep = (before, after, true) -> occurs sep before = false.
Proof.
  intros Hsep. revert before. induction s as [|b t IH]; intros before H.
  - simpl in H. destruct sep; [congruence|discriminate].
  - rewrite Cut_cons in H. destruct (HasPrefix (b :: t) sep) eqn:E.
    + inversion H; subst. destruct sep; [congruence|reflexivity].
    + destruct (Cut t sep) as [[bf af] f] eqn:C. inversion H; subst.
      rewrite occurs_cons, (IH bf eq_refl), orb_false_r.
      destruct (HasPrefix (b :: bf) sep) eqn:E'; [|reflexivity].
      apply Cut_found in C. subst t.
      apply (HasPrefix_mono _ (sep ++ after)) in E'. cbn [app] in E'. congruence.
Qed.


Lemma no_D1_no_D2 (x : bytes) :
  occurs NALU_Delimiter1 x = false -> occurs NALU_Delimiter2 x = false.
Proof.
  intros H. destruct (occurs NALU_Delimiter2 x) eqn:E; [|reflexivity].
  unfold occurs in E. destruct (Cut x NALU_Delimiter2) as [[bf af] f] eqn:C.
  simpl in E. subst f. apply Cut_found in C.
  assert (H' : occurs NALU_Delimiter1 ((bf ++ [0]) ++ NALU_Delimiter1 ++ af) = true)
    by (apply occurs_app; discriminate).
  rewrite <- app_assoc in H'. change ([0] ++ NALU_Delimiter1 ++ af)
    with (NALU_Delimiter2 ++ af) in H'. rewrite <- C in H'. congruence.
Qed.

Lemma writeAnnexBSlice_clean (s : bytes) (v : AVFrame) :
  exists ns, Raw (writeAnnexBSlice s v) = Raw v ++ map single ns
             /\ Forall clean ns /\ len (concat ns) <= len s.
Proof.
  funelim (writeAnnexBSlice s v).
  - exists []. simpl. rewrite app_nil_r. repeat split; [constructor|lia].
  - destruct H as (ns & HR & HF & HL). clear Heqcall.
    pose proof (Cut_found _ _ _ _ e) as Hs.
    assert (Hne : NALU_Delimiter1 <> []) by discriminate.
    pose proof (Cut_before_clean _ _ _ _ Hne e) as Hc.
    assert (Hlen : len (b :: t) = len before + 3 + len after).
    { rewrite Hs, !len_app. change (len NALU_Delimiter1) with 3. lia. }
    destruct before as [|x bf].
    + exists ns. cbn [is_nil] in HR |- *. repeat split; auto.
      change (len (@nil Z)) with 0 in Hlen. lia.
    + exists ((x :: bf) :: ns). cbn [is_nil] in HR |- *. rewrite HR, Raw_WriteSlice.
      rewrite <- app_assoc. repeat split; auto.
      * constructor; [|exact HF].
        split; [discriminate|]. split; [exact Hc|now apply no_D1_no_D2].
      * cbn [concat]. rewrite len_app. lia.
  - exists [b :: t]. rewrite Raw_WriteSlice. clear Heqcall. repeat split.
    + constructor; [|constructor].
      assert (Ho : occurs NALU_Delimiter1 (b :: t) = false)
        by (unfold occurs; now rewrite e).
      split; [discriminate|]. split; [exact Ho|now apply no_D1_no_D2].
    + cbn [concat]. rewrite app_nil_r. lia.
Qed.

(** Every NALU that one call appends is non-empty and holds no start code,
    3-byte or 4-byte; together they are no longer than the input. *)
Theorem WriteAnnexB_nalus_hold_no_start_code (pts dts : Z) (frame : bytes)
    (v : AVFrame) :
  exists ns : list bytes,
    Raw (WriteAnnexB pts dts frame v) = Raw v ++ map single ns
    /\ Forall (fun x => x <> [] /\ occurs NALU_Delimiter1 x = false
                        /\ occurs NALU_Delimiter2 x = false) ns
    /\ len (concat ns) <= len frame.
Proof.
  unfold WriteAnnexB.
  change (exists ns, Raw (WriteAnnexB_loop pts dts frame v) = Raw v ++ map single ns
                     /\ Forall clean ns /\ len (concat ns) <= len frame).
  funelim (WriteAnnexB_loop pts dts frame v).
  - exists []. simpl. rewrite app_nil_r. repeat split; [constructor|lia].
  - destruct H as (ns & HR & HF & HL). clear Heqcall.
    pose proof (Cut_found _ _ _ _ e) as Hs.
    assert (Hlen : len (b :: t) = len before + 4 + len after).
    { rewrite Hs, !len_app. change (len NALU_Delimiter2) with 4. lia. }
    destruct before as [|x bf]; cbn [is_nil] in HR |- *.
    + exists ns. repeat split; auto. change (len (@nil Z)) with 0 in Hlen. lia.
    + destruct (writeAnnexBSlice_clean (x :: bf) v) as (ms & HR' & HF' & HL').
      exists (ms ++ ns). rewrite HR, HR', map_app, <- app_assoc.
      repeat split; [now apply Forall_app|].
      rewrite concat_app, len_app. lia.
  - clear Heqcall. destruct (writeAnnexBSlice_clean (b :: t) v) as (ms & HR & HF & HL).
    exists ms. cbv zeta.
    destruct (is_nil (Raw (writeAnnexBSlice (b :: t) v)));
      cbn [Raw set_PTS_DTS]; auto.
Qed.

(** *** Joining two inputs with a 4-byte start code *)

Lemma HasPrefix_join2 (a r : bytes) :
  a <> [] ->
  HasPrefix (a ++ NALU_Delimiter2 ++ r) NALU_Delimiter2 = HasPrefix a NALU_Delimiter2.
Proof.
  intros Ha. destruct a as [|x [|y [|z [|w a']]]]; [congruence| | | |];
    cbn [app HasPrefix NALU_Delimiter2];
    repeat match goal with |- context [?p =? ?q] =>
      first [is_var q | is_var p]; destruct (p =? q) end;
    reflexivity.
Qed.

Lemma HasPrefix_join1 (a r : bytes) :
  a <> [] ->
  HasPrefix (a ++ NALU_Delimiter2 ++ r) NALU_Delimiter1 = HasPrefix a NALU_Delimiter1.
Proof.
  intros Ha. destruct a as [|x [|y [|z a']]]; [congruence| | |];
    cbn [app HasPrefix NALU_Delimiter2 NALU_Delimiter1];
    repeat match goal with |- context [?p =? ?q] =>
      first [is_var q | is_var p]; destruct (p =? q) end;
    reflexivity.
Qed.

Lemma skipn_prefix_app (sep a r : bytes) :
  HasPrefix a sep = true ->
  skipn (length sep) (a ++ r) = skipn (length sep) a ++ r.
Proof.
  intros H. apply HasPrefix_app in H. rewrite H at 1.
  rewrite <- app_assoc, skipn_app, skipn_all, Nat.sub_diag. reflexivity.
Qed.

Lemma spans_from_join (n : nat) : forall (a cur r : bytes),
  (length a <= n)%nat ->
  spans_from cur (a ++ NALU_Delimiter2 ++ r) = spans_from cur a ++ spans r.
Proof.
  induction n as [|n IH]; intros a cur r Hn.
  - destruct a; [reflexivity|simpl in Hn; lia].
  - destruct a as [|b t]; [reflexivity|].
    assert (Hne : b :: t <> []) by discriminate.
    rewrite (spans_from_unfold cur ((b :: t) ++ _)), (spans_from_unfold cur (b :: t)).
    rewrite HasPrefix_join2, HasPrefix_join1 by exact Hne.
    assert (Hskip : forall sep, sep <> [] -> HasPrefix (b :: t) sep = true ->
              spans_from [] (skipn (length sep) ((b :: t) ++ NALU_Delimiter2 ++ r))
              = spans_from [] (skipn (length sep) (b :: t)) ++ spans r).
    { intros sep Hsep Hp. rewrite skipn_prefix_app by exact Hp. apply IH.
      pose proof (skipn_shorter (length sep) (b :: t)) as Hs.
      destruct sep; [congruence|]. specialize (Hs ltac:(simpl; lia) Hne).
      simpl in Hn. simpl length in Hs |- *. lia. }
    destruct (HasPrefix (b :: t) NALU_Delimiter2) eqn:E2.
    { rewrite <- app_assoc. f_equal. apply (Hskip NALU_Delimiter2); [discriminate|exact E2]. }
    destruct (HasPrefix (b :: t) NALU_Delimiter1) eqn:E1.
    { rewrite <- app_assoc. f_equal. apply (Hskip NALU_Delimiter1); [discriminate|exact E1]. }
    cbn [app]. apply IH. simpl in Hn. lia.
Qed.

(** Feeding two inputs joined by a 4-byte start code in one call appends the
    NALUs that feeding them one after the other appends. *)
Theorem WriteAnnexB_joined_by_start_code (pts dts pts' dts' : Z) (a b : bytes)
    (v : AVFrame) :
  Raw (WriteAnnexB pts dts (a ++ NALU_Delimiter2 ++ b) v)
  = Raw (WriteAnnexB pts dts b (WriteAnnexB pts' dts' a v)).
Proof.
  unfold WriteAnnexB. rewrite !Raw_WriteAnnexB_loop. unfold spans.
  rewrite (spans_from_join _ a [] b (le_n _)), map_app, app_assoc. reflexivity.
Qed.

(** *** Timestamps *)

Lemma writeAnnexBSlice_stamps (s : bytes) (v : AVFrame) :
  PTS (writeAnnexBSlice s v) = PTS v /\ DTS (writeAnnexBSlice s v) = DTS v
  /\ FLV (writeAnnexBSlice s v) = FLV v.
Proof.
  funelim (writeAnnexBSlice s v).
  - auto.
  - destruct H as (H1 & H2 & H3). rewrite H1, H2, H3.
    destruct (is_nil before); auto.
  - auto.
Qed.

Lemma WriteAnnexB_loop_found (pts dts : Z) (frame : bytes) (v : AVFrame)
    (bf af : bytes) :
  frame <> [] -> Cut frame NALU_Delimiter2 = (bf, af, true) ->
  WriteAnnexB_loop pts dts frame v
  = WriteAnnexB_loop pts dts af (if is_nil bf then v else writeAnnexBSlice bf v).
Proof.
  funelim (WriteAnnexB_loop pts dts frame v); intros Hs Hc.
  - congruence.
  - rewrite e in Hc. inversion Hc; subst. reflexivity.
  - rewrite e in Hc. discriminate.
Qed.

Lemma Cut_trailing (a : bytes) :
  exists bf af, Cut (a ++ NALU_Delimiter2) NALU_Delimiter2 = (bf, af, true)
    /\ (af = [] \/ exists a', af = a' ++ NALU_Delimiter2
                              /\ (length a' < length a)%nat).
Proof.
  induction a as [|x a IH].
  - exists [], []. split; [reflexivity|now left].
  - change ((x :: a) ++ NALU_Delimiter2) with (x :: a ++ NALU_Delimiter2).
    rewrite Cut_cons.
    change (x :: a ++ NALU_Delimiter2) with ((x :: a) ++ NALU_Delimiter2).
    assert (HP : HasPrefix ((x :: a) ++ NALU_Delimiter2) NALU_Delimiter2
                 = HasPrefix (x :: a) NALU_Delimiter2).
    { rewrite <- (HasPrefix_join2 (x :: a) []) by discriminate.
      now rewrite (app_nil_r NALU_Delimiter2). }
    rewrite HP.
    destruct (HasPrefix (x :: a) NALU_Delimiter2) eqn:E.
    + exists [], (skipn 4 (x :: a) ++ NALU_Delimiter2). split.
      * f_equal. f_equal.
        apply (skipn_prefix_app NALU_Delimiter2 (x :: a) NALU_Delimiter2 E).
      * right. exists (skipn 4 (x :: a)). split; [reflexivity|].
        apply skipn_shorter; [lia|discriminate].
    + destruct IH as (bf & af & HC & Haf).
      rewrite HC. exists (x :: bf), af. split; [reflexivity|].
      destruct Haf as [->|(a' & -> & Hl)]; [now left|].
      right. exists a'. split; [reflexivity|simpl; lia].
Qed.

Lemma WriteAnnexB_loop_trailing (n : nat) : forall (a : bytes) (pts dts : Z)
    (v : AVFrame),
  (length a <= n)%nat ->
  PTS (WriteAnnexB_loop pts dts (a ++ NALU_Delimiter2) v) = PTS v
  /\ DTS (WriteAnnexB_loop pts dts (a ++ NALU_Delimiter2) v) = DTS v.
Proof.
  induction n as [|n IH]; intros a pts dts v Hn;
    destruct (Cut_trailing a) as (bf & af & HC & Haf);
    (rewrite (WriteAnnexB_loop_found pts dts _ v bf af);
      [|destruct a; discriminate|exact HC]);
    assert (Hv : PTS (if is_nil bf then v else writeAnnexBSlice bf v) = PTS v
                 /\ DTS (if is_nil bf then v else writeAnnexBSlice bf v) = DTS v)
      by (destruct (is_nil bf); [auto|];
          destruct (writeAnnexBSlice_stamps bf v) as (? & ? & _); auto);
    (destruct Haf as [->|(a' & -> & Hl)];
      [simp WriteAnnexB_loop; exact Hv|]).
  - lia.
  - destruct (IH a' pts dts (if is_nil bf then v else writeAnnexBSlice bf v)) as [H1 H2];
      [lia|]. destruct Hv as [H3 H4]. rewrite H1, H2. auto.
Qed.

(** An input that ends in a 4-byte start code has its NALUs appended, but the
    frame keeps the timestamps it had: the loop leaves through its condition,
    past the stamping. *)
Theorem WriteAnnexB_trailing_start_code (pts dts : Z) (a : bytes) (v : AVFrame) :
  let v' := WriteAnnexB pts dts (a ++ NALU_Delimiter2) v in
  Raw v' = Raw (WriteAnnexB pts dts a v) /\ PTS v' = PTS v /\ DTS v' = DTS v.
Proof.
  cbv zeta. unfold WriteAnnexB. split.
  - rewrite !Raw_WriteAnnexB_loop. unfold spans.
    rewrite <- (app_nil_r NALU_Delimiter2) at 1.
    rewrite (spans_from_join _ a [] [] (le_n _)). unfold spans. simpl.
    now rewrite app_nil_r.
  - apply (WriteAnnexB_loop_trailing (length a)). lia.
Qed.

Lemma WriteAnnexB_loop_stamps (pts dts : Z) (frame : bytes) (v : AVFrame) :
  let v' := WriteAnnexB_loop pts dts frame v in
  FLV v' = FLV v
  /\ ((PTS v' = PTS v /\ DTS v' = DTS v)
      \/ (PTS v' = pts /\ DTS v' = dts /\ Raw v' <> [])).
Proof.
  funelim (WriteAnnexB_loop pts dts frame v); cbv zeta.
  - auto.
  - cbv zeta in H. destruct H as (H1 & H2). clear Heqcall.
    assert (Hv : FLV (if is_nil before then v else writeAnnexBSlice before v) = FLV v
                 /\ PTS (if is_nil before then v else writeAnnexBSlice before v) = PTS v
                 /\ DTS (if is_nil before then v else writeAnnexBSlice before v) = DTS v).
    { destruct (is_nil before); [auto|].
      destruct (writeAnnexBSlice_stamps before v) as (? & ? & ?); auto. }
    destruct Hv as (Hf & Hp & Hd). rewrite <- Hf, <- Hp, <- Hd. auto.
  - clear Heqcall. destruct (writeAnnexBSlice_stamps (b :: t) v) as (Hp & Hd & Hf).
    destruct (Raw (writeAnnexBSlice (b :: t) v)) eqn:E; cbn [is_nil].
    + auto.
    + cbn [FLV PTS DTS Raw set_PTS_DTS]. split; [exact Hf|]. right.
      rewrite E. repeat split. discriminate.
Qed.

(** A call touches the raw NALUs and the timestamps only, and the timestamps
    only when the frame then holds payload: an input without NALUs, written
    to an empty frame, leaves the frame as it was. *)
Theorem WriteAnnexB_without_payload (pts dts : Z) (frame : bytes) (v : AVFrame) :
  let v' := WriteAnnexB pts dts frame v in
  SeqInTrack v' = SeqInTrack v /\ IFrame v' = IFrame v
  /\ AVCC v' = AVCC v /\ FLV v' = FLV v
  /\ (PTS v' <> PTS v \/ DTS v' <> DTS v ->
      PTS v' = pts /\ DTS v' = dts /\ Raw v' <> [])
  /\ (Raw v' = [] -> v' = v).
Proof.
  cbv zeta. unfold WriteAnnexB.
  destruct (WriteAnnexB_loop_frame pts dts frame v) as (HA & HI & HS).
  destruct (WriteAnnexB_loop_stamps pts dts frame v) as (HF & HT).
  cbv zeta in HF, HT.
  pose proof (Raw_WriteAnnexB_loop pts dts frame v) as HR.
  repeat split; auto.
  - destruct HT as [[? ?]|(? & _)]; [|assumption]. destruct H; congruence.
  - destruct HT as [[? ?]|(_ & ? & _)]; [|assumption]. destruct H; congruence.
  - destruct HT as [[? ?]|(_ & _ & ?)]; [|assumption]. destruct H; congruence.
  - intros Hnil. rewrite Hnil in HR. symmetry in HR.
    apply app_eq_nil in HR as [HR _].
    destruct HT as [[HP HD]|(_ & _ & ?)]; [|congruence].
    destruct (WriteAnnexB_loop pts dts frame v), v. simpl in *. congruence.
Qed.

Lemma WriteAnnexB_without_payload_witness :
  WriteAnnexB 90 0 [0; 0; 0; 1; 0; 0; 1] zero_frame = zero_frame
  /\ PTS (WriteAnnexB 90 0 [101; 136] zero_frame) = 90
  /\ Raw (WriteAnnexB 90 0 [101; 136] zero_frame) <> [].
Proof.
  split.
  - destruct (WriteAnnexB_without_payload 90 0 [0; 0; 0; 1; 0; 0; 1] zero_frame)
      as (_ & _ & _ & _ & _ & H).
    apply H. reflexivity.
  - destruct (WriteAnnexB_without_payload 90 0 [101; 136] zero_frame)
      as (_ & _ & _ & _ & H & _).
    destruct H as (H1 & _ & H3); [left; vm_compute; discriminate|].
    split; [exact H1|exact H3].
Defined.


(** *** What remains behind the last 4-byte start code *)

Lemma Cut_join (a r : bytes) :
  exists bf af, Cut (a ++ NALU_Delimiter2 ++ r) NALU_Delimiter2 = (bf, af, true)
    /\ (af = r \/ exists a', af = a' ++ NALU_Delimiter2 ++ r
                             /\ (length a' < length a)%nat).
Proof.
  induction a as [|x a IH].
  - exists [], r. split; [reflexivity|now left].
  - change ((x :: a) ++ NALU_Delimiter2 ++ r) with (x :: a ++ NALU_Delimiter2 ++ r).
    rewrite Cut_cons.
    change (x :: a ++ NALU_Delimiter2 ++ r) with ((x :: a) ++ NALU_Delimiter2 ++ r).
    rewrite HasPrefix_join2 by discriminate.
    destruct (HasPrefix (x :: a) NALU_Delimiter2) eqn:E.
    + exists [], (skipn 4 (x :: a) ++ NALU_Delimiter2 ++ r). split.
      * f_equal. f_equal.
        apply (skipn_prefix_app NALU_Delimiter2 (x :: a) (NALU_Delimiter2 ++ r) E).
      * right. exists (skipn 4 (x :: a)). split; [reflexivity|].
        apply skipn_shorter; [lia|discriminate].
    + destruct IH as (bf & af & HC & Haf).
      rewrite HC. exists (x :: bf), af. split; [reflexivity|].
      destruct Haf as [->|(a' & -> & Hl)]; [now left|].
      right. exists a'. split; [reflexivity|simpl; lia].
Qed.

Lemma WriteAnnexB_loop_reaches (pts dts : Z) (rest : bytes) (n : nat) :
  forall (a : bytes) (v : AVFrame), (length a <= n)%nat ->
  exists v1, WriteAnnexB_loop pts dts (a ++ NALU_Delimiter2 ++ rest) v
             = WriteAnnexB_loop pts dts rest v1.
Proof.
  induction n as [|n IH]; intros a v Hn;
    destruct (Cut_join a rest) as (bf & af & HC & Haf);
    (rewrite (WriteAnnexB_loop_found pts dts _ v bf af);
      [|destruct a; discriminate|exact HC]);
    (destruct Haf as [->|(a' & -> & Hl)]; [eexists; reflexivity|]).
  - lia.
  - apply IH. lia.
Qed.

Lemma spans_whole (s : bytes) :
  s <> [] -> occurs NALU_Delimiter2 s = false -> occurs NALU_Delimiter1 s = false ->
  spans s = [s].
Proof.
  intros Hs H2 H1.
  pose proof (Raw_WriteAnnexB_loop 0 0 s zero_frame) as HR.
  rewrite WriteAnnexB_loop_not_found in HR by assumption.
  rewrite writeAnnexBSlice_not_found in HR by assumption.
  cbv zeta in HR. cbn in HR.
  destruct (spans s) as [|x [|y l]]; cbn in HR; inversion HR. reflexivity.
Qed.

Lemma last_start_code (n : nat) : forall frame : bytes, (length frame <= n)%nat ->
  frame = [] \/ (exists a, frame = a ++ NALU_Delimiter2)
  \/ exists rest, remaining frame rest /\ rest <> []
                  /\ occurs NALU_Delimiter2 rest = false.
Proof.
  induction n as [|n IH]; intros frame Hn.
  - destruct frame; [now left|simpl in Hn; lia].
  - destruct frame as [|b t]; [now left|].
    destruct (Cut (b :: t) NALU_Delimiter2) as [[bf af] f] eqn:C. destruct f.
    + pose proof (Cut_found _ _ _ _ C) as Hs.
      assert (Hlt : (length af <= n)%nat).
      { pose proof (after_Cut_shorter (b :: t) NALU_Delimiter2 ltac:(discriminate)
                      bf af C). simpl in *. lia. }
      destruct (IH af Hlt) as [->|[(a & ->)|(rest & Hrem & Hne & Ho)]].
      * right. left. exists bf. exact Hs.
      * right. left. exists (bf ++ NALU_Delimiter2 ++ a). rewrite Hs.
        now rewrite <- !app_assoc.
      * right. right. exists rest. split; [|auto].
        right. destruct Hrem as [->|(p & ->)].
        -- exists bf. exact Hs.
        -- exists (bf ++ NALU_Delimiter2 ++ p). rewrite Hs. now rewrite <- !app_assoc.
    + right. right. exists (b :: t). split; [now left|]. split; [discriminate|].
      unfold occurs. now rewrite C.
Qed.

(** C6. One call to [WriteAnnexB] appends to the frame being assembled
    exactly the delimiter-separated spans of its input (3-byte and 4-byte
    start codes stripped, empty spans dropped), in input order.  Whatever
    came before, when bytes remain behind the last 4-byte start code (or the
    input has none) the frame is stamped with the supplied pts/dts if it then
    holds payload, and when those bytes hold no 3-byte start code either they
    are appended whole, as the trailing NALU; an input without any start code
    is appended whole.  When nothing remains (the input is empty or ends in a
    4-byte start code) the timestamps are left as they were; every input is
    of one of these kinds. *)
Theorem WriteAnnexB_appends_spans (pts dts : Z) (frame : bytes) (v : AVFrame) :
  let v' := WriteAnnexB pts dts frame v in
  Raw v' = Raw v ++ map single (spans frame)
  /\ (forall rest : bytes,
        remaining frame rest -> rest <> [] ->
        occurs NALU_Delimiter2 rest = false ->
        (Raw v' <> [] -> PTS v' = pts /\ DTS v' = dts)
        /\ (occurs NALU_Delimiter1 rest = false ->
            exists before, Raw v' = Raw v ++ before ++ [[rest]]))
  /\ (frame <> [] -> occurs NALU_Delimiter2 frame = false ->
      occurs NALU_Delimiter1 frame = false ->
      Raw v' = Raw v ++ [[frame]] /\ PTS v' = pts /\ DTS v' = dts)
  /\ (frame = [] \/ (exists a, frame = a ++ NALU_Delimiter2) ->
      PTS v' = PTS v /\ DTS v' = DTS v)
  /\ (frame = [] \/ (exists a, frame = a ++ NALU_Delimiter2)
      \/ exists rest, remaining frame rest /\ rest <> []
                      /\ occurs NALU_Delimiter2 rest = false).
Proof.
  unfold WriteAnnexB. cbv zeta. split; [apply Raw_WriteAnnexB_loop|].
  split; [|split; [|split]].
  - intros rest Hrem Hne Ho.
    assert (Hv : exists v1, WriteAnnexB_loop pts dts frame v
                            = WriteAnnexB_loop pts dts rest v1).
    { destruct Hrem as [->|(p & ->)]; [eexists; reflexivity|].
      apply (WriteAnnexB_loop_reaches pts dts rest (length p)). lia. }
    destruct Hv as (v1 & Hv). split.
    + rewrite Hv. rewrite WriteAnnexB_loop_not_found by assumption. cbv zeta.
      destruct (Raw (writeAnnexBSlice rest v1)) eqn:E; cbn [is_nil].
      * rewrite E. congruence.
      * auto.
    + intros H1. rewrite Raw_WriteAnnexB_loop.
      destruct Hrem as [->|(p & ->)].
      * exists []. rewrite spans_whole by assumption. reflexivity.
      * exists (map single (spans p)). unfold spans at 1.
        rewrite (spans_from_join _ p [] rest (le_n _)), map_app.
        rewrite (spans_whole rest) by assumption. reflexivity.
  - intros Hs H2 H1. rewrite WriteAnnexB_loop_not_found by assumption.
    rewrite writeAnnexBSlice_not_found by assumption. cbv zeta.
    rewrite Raw_WriteSlice. destruct (Raw v) eqn:E; simpl; rewrite ?E; auto.
  - intros [->|(a & ->)].
    + simp WriteAnnexB_loop. auto.
    + apply (WriteAnnexB_loop_trailing (length a)). lia.
  - apply (last_start_code (length frame)). lia.
Qed.

Lemma WriteAnnexB_appends_spans_witness :
  let frame := [0; 0; 0; 1; 103; 66; 0; 0; 0; 1; 104; 206; 0; 0; 1; 101; 136] in
  Raw (WriteAnnexB 90 0 frame (mkAVFrame 0 false 0 0 [] [] []))
    = [[[103; 66]]; [[104; 206]]; [[101; 136]]]
  /\ PTS (WriteAnnexB 90 45 [0; 0; 0; 1; 101; 136] zero_frame) = 90
  /\ DTS (WriteAnnexB 90 45 [0; 0; 0; 1; 101; 136] zero_frame) = 45
  /\ (exists before,
        Raw (WriteAnnexB 90 45 [0; 0; 0; 1; 103; 66; 0; 0; 0; 1; 101; 136] zero_frame)
        = Raw zero_frame ++ before ++ [[[101; 136]]])
  /\ PTS (WriteAnnexB 90 0 [101; 0; 0; 1; 136] (mkAVFrame 0 false 0 0 [] [] [])) = 90
  /\ Raw (WriteAnnexB 90 0 [101; 136] (mkAVFrame 0 false 0 0 [] [] [])) = [[[101; 136]]]
  /\ PTS (WriteAnnexB 90 45 [101; 136; 0; 0; 0; 1] zero_frame) = 0.
Proof.
  cbv zeta. split; [|split; [|split; [|split; [|split; [|split]]]]].
  - apply (WriteAnnexB_appends_spans 90 0
             [0; 0; 0; 1; 103; 66; 0; 0; 0; 1; 104; 206; 0; 0; 1; 101; 136]
             (mkAVFrame 0 false 0 0 [] [] [])).
  - destruct (WriteAnnexB_appends_spans 90 45 [0; 0; 0; 1; 101; 136] zero_frame)
      as (_ & H & _).
    destruct (H [101; 136]) as [Hs _];
      [right; exists []; reflexivity | discriminate | reflexivity |].
    apply Hs. vm_compute. discriminate.
  - destruct (WriteAnnexB_appends_spans 90 45 [0; 0; 0; 1; 101; 136] zero_frame)
      as (_ & H & _).
    destruct (H [101; 136]) as [Hs _];
      [right; exists []; reflexivity | discriminate | reflexivity |].
    apply Hs. vm_compute. discriminate.
  - destruct (WriteAnnexB_appends_spans 90 45
                [0; 0; 0; 1; 103; 66; 0; 0; 0; 1; 101; 136] zero_frame)
      as (_ & H & _).
    destruct (H [101; 136]) as [_ Ht];
      [right; exists [0; 0; 0; 1; 103; 66]; reflexivity | discriminate
      | reflexivity |].
    apply Ht. reflexivity.
  - destruct (WriteAnnexB_appends_spans 90 0 [101; 0; 0; 1; 136]
                (mkAVFrame 0 false 0 0 [] [] [])) as (_ & H & _).
    destruct (H [101; 0; 0; 1; 136]) as [Hs _];
      [left; reflexivity | discriminate | reflexivity |].
    apply Hs. vm_compute. discriminate.
  - destruct (WriteAnnexB_appends_spans 90 0 [101; 136]
                (mkAVFrame 0 false 0 0 [] [] [])) as (_ & _ & H & _).
    apply H; [discriminate | reflexivity | reflexivity].
  - destruct (WriteAnnexB_appends_spans 90 45 [101; 136; 0; 0; 0; 1] zero_frame)
      as (_ & _ & _ & H & _).
    apply H. right. exists [101; 136]. reflexivity.
Defined.

(** ** Degenerate AVCC inputs *)

Lemma WriteAVCC_loop_zero_width (n : Z) (nalus : bytes)
    (st : AVFrame * list LogEvent) :
  n = 0 -> 0 < len nalus -> WriteAVCC_loop n nalus st = Diverge.
Proof.
  funelim (WriteAVCC_loop n nalus st); intros Hn Hl; subst;
    try reflexivity;
    assert (Hend : int64 (ReadBE (slice_to 0 nalus) + 0) = 0) by reflexivity.
  - zbool e. lia.
  - discriminate.
  - zbool e1. rewrite Hend in E. lia.
  - zbool e2. lia.
  - zbool e3. rewrite Hend in E. lia.
Qed.

(** [WriteAVCC] on inputs at the edge: an input shorter than the 5-byte
    frame header panics; a prefix width of zero (no sequence header has set
    it) makes the loop turn for ever on any input longer than the header; an
    input that is the header alone appends no NALU and logs nothing. *)
Theorem WriteAVCC_degenerate_inputs (n ts : Z) (frame : bytes)
    (st : AVFrame * list LogEvent) :
  (len frame < 5 -> WriteAVCC n ts frame st = Panic)
  /\ (n = 0 -> 5 < len frame -> WriteAVCC n ts frame st = Diverge)
  /\ (len frame = 5 -> 0 <= n ->
      exists v, WriteAVCC n ts frame st = Ok (v, snd st)
                /\ Raw v = Raw (fst st)).
Proof.
  unfold WriteAVCC, Media_WriteAVCC. repeat split.
  - intros H. destruct (Z.ltb_spec (len frame) 5); [reflexivity|lia].
  - intros Hn H. destruct (Z.ltb_spec (len frame) 5); [lia|].
    apply WriteAVCC_loop_zero_width; [exact Hn|].
    unfold slice_from, len in *. rewrite length_skipn. lia.
  - intros H Hn. destruct (Z.ltb_spec (len frame) 5); [lia|].
    eexists. split.
    + apply WriteAVCC_loop_short. unfold slice_from, len in *.
      rewrite length_skipn. lia.
    + reflexivity.
Qed.

Lemma WriteAVCC_degenerate_inputs_witness :
  WriteAVCC 4 0 [23; 1; 0] (zero_frame, []) = Panic
  /\ WriteAVCC 0 0 [39; 1; 0; 0; 0; 65] (zero_frame, []) = Diverge
  /\ exists v, WriteAVCC 4 0 [39; 1; 0; 0; 0] (zero_frame, []) = Ok (v, [])
               /\ Raw v = [].
Proof.
  split; [|split].
  - apply (WriteAVCC_degenerate_inputs 4 0 [23; 1; 0] (zero_frame, [])).
    vm_compute. reflexivity.
  - apply (WriteAVCC_degenerate_inputs 0 0 [39; 1; 0; 0; 0; 65] (zero_frame, []));
      [reflexivity | vm_compute; reflexivity].
  - destruct (WriteAVCC_degenerate_inputs 4 0 [39; 1; 0; 0; 0] (zero_frame, []))
      as (_ & _ & H).
    destruct H as (v & H1 & H2); [reflexivity | lia |].
    exists v. auto.
Defined.

(** ** [Flush] *)

Lemma set_nth_idem {A} (i : nat) (x y : A) (l : list A) :
  set_nth i x (set_nth i y l) = set_nth i x l.
Proof.
  revert i; induction l as [|z l IH]; intros [|i]; simpl; auto.
  now rewrite IH.
Qed.

Lemma Flush_AVCC_FLV (cfg : Config) (codecID : Z) (v : AVFrame) :
  FLV (Flush_AVCC cfg codecID v) = FLV v.
Proof.
  unfold Flush_AVCC.
  destruct (is_nil (AVCC v) && (EnableAVCC cfg || EnableFLV cfg)); [|reflexivity].
  destruct (AVCC_fold_AppendAVCC (Raw v)
              (AppendAVCC v [[Z.lor (uint8 codecID) (if IFrame v then 16 else 32); 1]
                               ++ PutBE 3 (uint32 (PTS v - DTS v) / 90)]))
    as (_ & _ & _ & _ & _ & _ & H).
  exact H.
Qed.

Section FlushEdges.

Variable FillFLV : Z -> Z -> AVFrame -> Buffers.
Variable cfg : Config.

(** [Flush] on a frame without raw payload takes no slot: the frame under
    the cursor is reset where it is, the ring, the keyframe marker, the
    recorded size and the keyframe counter stay, and a second [Flush] changes
    nothing more. *)
Theorem Flush_without_payload (t : Video) :
  ring_wf t -> Raw (Value t) = [] ->
  let t' := Flush FillFLV cfg t in
  ring t' = ring t /\ idrCount t' = idrCount t /\ IDRing t' = IDRing t
  /\ Size t' = Size t /\ GOP t' = GOP t
  /\ Value t' = Reset (Value t)
  /\ (forall i, i <> cursor t -> slot t' i = slot t i)
  /\ Flush FillFLV cfg t' = t'.
Proof.
  intros Hwf Hraw. cbv zeta. unfold Flush at 1 2 3 4 5 6 7. rewrite Hraw. cbn [is_nil].
  repeat split.
  - now apply Value_set_Value.
  - intros i Hi. rewrite slot_set_Value.
    destruct (Nat.eqb_spec (cursor t) i); [congruence|reflexivity].
  - unfold Flush. rewrite Hraw. cbn [is_nil].
    rewrite (Value_set_Value t _ Hwf). cbn [Raw Reset is_nil].
    unfold set_Value, set_slots. cbn [slots ring Size CodecID IDRing GOP nalulenSize idrCount log cursor].
    change (cursor {| slots := set_nth (cursor t) (Reset (Value t)) (slots t);
                      ring := ring t; Size := Size t; CodecID := CodecID t;
                      IDRing := IDRing t; GOP := GOP t; nalulenSize := nalulenSize t;
                      idrCount := idrCount t; log := log t |}) with (cursor t).
    now rewrite set_nth_idem.
Qed.

(** The container-tag form is completed after the AVCC form: with the FLV
    flag set and no tag memoized, [FillFLV] receives the frame with its AVCC
    form in place (built even when the AVCC flag is off) and the timestamp
    DTS/90; otherwise the FLV field is left alone.  The raw NALUs, the
    timestamps, the keyframe flag and the sequence number of the finalized
    frame are those of the frame assembled. *)
Theorem Flush_completes_FLV (t : Video) :
  ring_wf t -> Raw (Value t) <> [] ->
  let v := Value t in
  let f := slot (Flush FillFLV cfg t) (cursor t) in
  (FLV v = [] -> EnableFLV cfg = true ->
   FLV f = FillFLV FLV_TAG_TYPE_VIDEO (DTS v / 90)
             (mkAVFrame (SeqInTrack v) (IFrame v) (PTS v) (DTS v)
                (if is_nil (AVCC v) then avcc_of (CodecID t) v else AVCC v)
                [] (Raw v)))
  /\ (FLV v <> [] \/ EnableFLV cfg = false -> FLV f = FLV v)
  /\ Raw f = Raw v /\ PTS f = PTS v /\ DTS f = DTS v
  /\ IFrame f = IFrame v /\ SeqInTrack f = SeqInTrack v.
Proof.
  intros Hwf Hraw v f. subst f. rewrite (Flush_finalized FillFLV cfg t Hwf Hraw).
  subst v. set (v := Value t).
  destruct (Flush_AVCC_spec cfg (CodecID t) v) as (HR & HI & HP & HD & HS & HA).
  cbv zeta in HR, HI, HP, HD, HS, HA.
  pose proof (Flush_AVCC_FLV cfg (CodecID t) v) as HF.
  unfold Flush_FLV. rewrite HF.
  split; [|split].
  - intros Hnil Hen. rewrite Hnil, Hen. cbn [is_nil andb FLV].
    rewrite Hen, orb_true_r, andb_true_r in HA.
    destruct (Flush_AVCC cfg (CodecID t) v) as [s i p d a fl r].
    cbn [SeqInTrack IFrame PTS DTS AVCC FLV Raw] in *. congruence.
  - intros [Hnn|Hoff].
    + destruct (FLV v); [congruence|]. cbn [is_nil andb]. exact HF.
    + rewrite Hoff, andb_false_r. exact HF.
  - destruct (is_nil (FLV v) && EnableFLV cfg);
      cbn [Raw PTS DTS IFrame SeqInTrack]; auto.
Qed.

End FlushEdges.

Section FlushRing.

Variable FillFLV : Z -> Z -> AVFrame -> Buffers.
Variable cfg : Config.

(** When the slot about to be overwritten holds the only keyframe the
    counter knows and the recorded size is below 256, [Flush] puts five fresh
    slots between the cursor and that slot and moves onto the first of them:
    the keyframe and the other frames stay where they are and the counter
    stays 1. *)
Theorem Flush_grows_ring_for_sole_keyframe (t : Video) (c n : nat)
    (rest : list nat) :
  ring_wf t -> Raw (Value t) <> [] -> ring t = c :: n :: rest ->
  IFrame (slot t n) = true -> idrCount t = 1 -> Size t < 256 ->
  let t' := Flush FillFLV cfg t in
  let L := length (slots t) in
  ring t' = L :: seq (S L) 4 ++ n :: rest ++ [c]
  /\ length (slots t') = (L + 5)%nat
  /\ (forall i, (i < L)%nat -> i <> c -> slot t' i = slot t i)
  /\ idrCount t' = 1
  /\ Raw (Value t') = [] /\ IFrame (Value t') = false.
Proof.
  intros Hwf Hraw Hr Hkey Hcount Hsize. cbv zeta.
  destruct (ring_wf_cons t c n rest Hwf Hr) as (Hcn & Hc & Hn & Hcl & Hnl).
  unfold Flush.
  destruct (Raw (Value t)) as [|r0 raw] eqn:ER; [congruence|]. cbn [is_nil]. cbv zeta.
  set (v1 := Flush_FLV FillFLV cfg (Flush_AVCC cfg (CodecID t) (Value t))).
  set (t1 := set_Value t v1).
  assert (Hr1 : ring t1 = c :: n :: rest) by exact Hr.
  assert (HN : Next t1 = n) by (unfold Next; now rewrite Hr1).
  assert (Hs1 : slot t1 n = slot t n).
  { unfold t1. rewrite slot_set_Value. unfold cursor. rewrite Hr. cbn [hd].
    destruct (Nat.eqb_spec c n); [congruence|reflexivity]. }
  assert (HL1 : length (slots t1) = length (slots t))
    by (unfold t1, set_Value; cbn [slots set_slots]; apply length_set_nth).
  rewrite HN, Hs1, Hkey.
  change (idrCount t1) with (idrCount t). change (Size t1) with (Size t).
  rewrite Hcount. cbn [Z.eqb Pos.eqb].
  destruct (Z.ltb_spec (Size t) 256); [|lia].
  set (t2 := Link_new t1 5).
  assert (Hr2 : ring t2 = c :: length (slots t) :: seq (S (length (slots t))) 4 ++ n :: rest).
  { unfold t2, Link_new. cbn [ring set_ring set_slots]. rewrite Hr1, HL1. reflexivity. }
  destruct (Media_Flush_spec t2 _ _ _ Hr2) as (HR & (v & Hsl & Hvi & Hvr) & Hi & Hsz & _).
  cbv zeta in HR, Hsl, Hi, Hsz.
  assert (HL2 : length (slots t2) = (length (slots t) + 5)%nat).
  { unfold t2, Link_new. cbn [slots set_ring set_slots].
    rewrite length_app, repeat_length, HL1. reflexivity. }
  assert (Hval : Value (Media_Flush t2) = v).
  { unfold Value, cursor, slot. rewrite HR, Hsl. cbn [hd].
    rewrite nth_set_nth, Nat.eqb_refl.
    destruct (Nat.ltb_spec (length (slots t)) (length (slots t2))); [reflexivity|lia]. }
  split; [rewrite HR, <- app_assoc; reflexivity|].
  split; [rewrite Hsl, length_set_nth; exact HL2|].
  split.
  { intros i Hi' Hic. unfold slot at 1. rewrite Hsl, nth_set_nth.
    destruct (Nat.eqb_spec (length (slots t)) i); [lia|]. cbn [andb].
    change (nth i (slots t2) zero_frame) with (slot t2 i).
    unfold t2. rewrite slot_Link_new by lia.
    unfold t1. rewrite slot_set_Value. unfold cursor. rewrite Hr. cbn [hd].
    destruct (Nat.eqb_spec c i); [congruence|reflexivity]. }
  split; [rewrite Hi; exact Hcount|].
  rewrite Hval. auto.
Qed.

(** Otherwise the cursor moves onto the next slot, which is cleared: when it
    held no keyframe the counter stays, and when it held one of several
    keyframes the counter goes down by one. *)
Theorem Flush_recycles_next_slot (t : Video) (c n : nat) (rest : list nat) :
  ring_wf t -> Raw (Value t) <> [] -> ring t = c :: n :: rest ->
  IFrame (slot t n) = false \/ idrCount t <> 1 ->
  let t' := Flush FillFLV cfg t in
  ring t' = n :: rest ++ [c]
  /\ (forall i, i <> c -> i <> n -> slot t' i = slot t i)
  /\ idrCount t' = idrCount t - b2z (IFrame (slot t n))
  /\ Size t' = Size t
  /\ Raw (Value t') = [] /\ IFrame (Value t') = false.
Proof.
  intros Hwf Hraw Hr Hcase. cbv zeta.
  destruct (ring_wf_cons t c n rest Hwf Hr) as (Hcn & Hc & Hn & Hcl & Hnl).
  assert (Hcur : cursor t = c) by (unfold cursor; now rewrite Hr).
  unfold Flush.
  destruct (Raw (Value t)) as [|r0 raw] eqn:ER; [congruence|]. cbn [is_nil]. cbv zeta.
  set (v1 := Flush_FLV FillFLV cfg (Flush_AVCC cfg (CodecID t) (Value t))).
  set (t1 := set_Value t v1).
  assert (Hr1 : ring t1 = c :: n :: rest) by exact Hr.
  assert (HN : Next t1 = n) by (unfold Next; now rewrite Hr1).
  assert (Hs1 : slot t1 n = slot t n).
  { unfold t1. rewrite slot_set_Value, Hcur.
    destruct (Nat.eqb_spec c n); [congruence|reflexivity]. }
  assert (HL1 : length (slots t1) = length (slots t))
    by (unfold t1, set_Value; cbn [slots set_slots]; apply length_set_nth).
  rewrite HN, Hs1.
  change (idrCount t1) with (idrCount t). change (Size t1) with (Size t).
  assert (Hgo : forall t2, ring t2 = c :: n :: rest -> slots t2 = slots t1 ->
            Size t2 = Size t ->
            ring (Media_Flush t2) = n :: rest ++ [c]
            /\ (forall i, i <> c -> i <> n -> slot (Media_Flush t2) i = slot t i)
            /\ idrCount (Media_Flush t2) = idrCount t2
            /\ Size (Media_Flush t2) = Size t
            /\ Raw (Value (Media_Flush t2)) = []
            /\ IFrame (Value (Media_Flush t2)) = false).
  { intros t2 Hr2 Hs2 Hz2.
    destruct (Media_Flush_spec t2 _ _ _ Hr2) as (HR & (v & Hsl & Hvi & Hvr) & Hi & Hsz & _).
    cbv zeta in HR, Hsl, Hi, Hsz.
    assert (Hval : Value (Media_Flush t2) = v).
    { unfold Value, cursor, slot. rewrite HR, Hsl. cbn [hd].
      rewrite nth_set_nth, Nat.eqb_refl, Hs2, HL1.
      destruct (Nat.ltb_spec n (length (slots t))); [reflexivity|lia]. }
    rewrite Hval, HR, Hi, Hsz, Hz2. repeat split; auto.
    intros i Hic Hin'. unfold slot at 1. rewrite Hsl, Hs2, nth_set_nth.
    destruct (Nat.eqb_spec n i); [congruence|]. cbn [andb].
    change (nth i (slots t1) zero_frame) with (slot t1 i).
    unfold t1. rewrite slot_set_Value, Hcur.
    destruct (Nat.eqb_spec c i); [congruence|reflexivity]. }
  destruct (IFrame (slot t n)) eqn:Hkey; cbn [b2z].
  - destruct Hcase as [?|Hne]; [discriminate|].
    destruct (Z.eqb_spec (idrCount t) 1); [congruence|].
    destruct (Hgo (set_idrCount t1 (idrCount t - 1)) Hr1 eq_refl eq_refl)
      as (H1 & H2 & H3 & H4 & H5 & H6).
    rewrite H1, H3, H4, H5, H6. repeat split; auto.
  - destruct (Hgo t1 Hr1 eq_refl eq_refl) as (H1 & H2 & H3 & H4 & H5 & H6).
    rewrite H1, H3, H4, H5, H6. change (idrCount t1) with (idrCount t).
    repeat split; auto; lia.
Qed.

End FlushRing.

(** ** [ComputeGOP] *)

(** The GOP bookkeeping at a keyframe: the cursor, its frame and the slot
    store are left alone and the marker is put on the cursor.  At the first
    keyframe nothing else changes but the counter.  Later the GOP becomes the
    distance in sequence numbers to the marked keyframe, and when the
    recorded size exceeds it by more than 10 the size is cut to GOP + 5 and
    as many slots as were cut leave the ring right after the cursor, the
    counter dropping by the keyframes among them; the recorded size never
    grows and ends at most 10 above the GOP. *)
Theorem ComputeGOP_bookkeeping (t : Video) :
  ring_wf t -> Size t <= len (ring t) ->
  let t' := ComputeGOP t in
  cursor t' = cursor t /\ slots t' = slots t /\ IDRing t' = Some (cursor t)
  /\ Size t' <= Size t
  /\ (IDRing t = None ->
      ring t' = ring t /\ Size t' = Size t /\ GOP t' = GOP t
      /\ idrCount t' = idrCount t + 1)
  /\ (forall idr, IDRing t = Some idr ->
      let g := uint32 (SeqInTrack (Value t) - SeqInTrack (slot t idr)) in
      let l := Size t - g - 5 in
      GOP t' = g /\ Size t' <= g + 10
      /\ (5 < l ->
          Size t' = g + 5
          /\ ring t' = cursor t :: skipn (Z.to_nat l) (tl (ring t))
          /\ len (ring t') = len (ring t) - l
          /\ idrCount t'
             = idrCount t + 1 - kf (slots t) (firstn (Z.to_nat l) (tl (ring t))))
      /\ (l <= 5 ->
          ring t' = ring t /\ Size t' = Size t /\ idrCount t' = idrCount t + 1)).
Proof.
  intros Hwf Hsize. cbv zeta.
  destruct Hwf as (Hnd & Hlen & Hin).
  destruct (ring t) as [|c rest] eqn:Hr; [simpl in Hlen; lia|].
  assert (Hcur : cursor t = c) by (unfold cursor; now rewrite Hr).
  unfold ComputeGOP. cbv zeta.
  cbn [IDRing set_idrCount].
  destruct (IDRing t) as [idr|] eqn:HI.
  - set (g := uint32 (SeqInTrack (Value t) - SeqInTrack (slot t idr))).
    change (uint32 (SeqInTrack (Value (set_idrCount t (idrCount t + 1)))
                    - SeqInTrack (slot (set_idrCount t (idrCount t + 1)) idr)))
      with g.
    cbn [Size GOP set_GOP set_idrCount].
    assert (Hg : 0 <= g) by (unfold g, uint32; apply Z.mod_pos_bound; lia).
    destruct (Z.gtb_spec (Size t - g - 5) 5) as [Hl|Hl].
    + cbn [ring set_ring set_Size set_GOP set_idrCount]. rewrite Hr.
      rewrite Unlink_inside by (unfold len in *; cbn [length] in *; lia).
      match goal with |- context [Do_uncount ?a ?b] =>
        destruct (Do_uncount_spec b a) as (H1 & H2 & H3 & H4 & H5 & H6 & _) end.
      cbv zeta in H1, H2, H3, H4, H5, H6.
      cbn [idrCount slots ring Size IDRing GOP set_ring set_Size set_GOP set_idrCount]
        in H1, H2, H3, H4, H5, H6.
      unfold cursor. cbn [ring slots Size IDRing GOP idrCount set_IDRing].
      rewrite H1, H2, H3, H4, H6, ?Hr. cbn [hd tl].
      assert (Hlen' : len (c :: skipn (Z.to_nat (Size t - g - 5)) rest)
                      = len (c :: rest) - (Size t - g - 5)).
      { unfold len in *. cbn [length] in *. rewrite length_skipn. lia. }
      split; [reflexivity|]. split; [reflexivity|]. split; [reflexivity|].
      split; [lia|]. split; [discriminate|].
      intros idr' Hidr. inversion Hidr; subst idr'. fold g.
      split; [reflexivity|]. split; [lia|].
      split; [intros _; repeat split; try reflexivity; lia | intros; lia].
    + unfold cursor. cbn [ring slots Size IDRing GOP idrCount set_IDRing set_GOP set_idrCount].
      rewrite Hr. cbn [hd tl].
      split; [reflexivity|]. split; [reflexivity|]. split; [reflexivity|].
      split; [lia|]. split; [discriminate|].
      intros idr' Hidr. inversion Hidr; subst idr'. fold g.
      split; [reflexivity|]. split; [lia|].
      split; [intros; lia | intros _; repeat split; reflexivity].
  - unfold cursor. cbn [ring slots Size IDRing GOP idrCount set_IDRing set_idrCount].
    rewrite Hr. cbn [hd].
    split; [reflexivity|]. split; [reflexivity|]. split; [reflexivity|].
    split; [lia|]. split; [intros _; repeat split; reflexivity|].
    intros idr' Hidr. discriminate.
Qed.

(** ** The memory TS writer, continued *)


Lemma Buffers_Read_spec (bufs : Buffers) : forall (n : nat) (got : bytes) (rem : Buffers),
  Buffers_Read n bufs = (got, rem) ->
  concat bufs = got ++ concat rem /\ (length got <= n)%nat
  /\ (rem <> [] -> length got = n)
  /\ ((length (concat bufs) <= n)%nat -> rem = []).
Proof.
  induction bufs as [|b rest IH]; intros n got rem H.
  - simpl in H. inversion H; subst. repeat split; auto; simpl; try lia. congruence.
  - cbn [Buffers_Read] in H.
    destruct (Nat.leb_spec (length b) n).
    + destruct (Buffers_Read (n - length b) rest) as [g r] eqn:E.
      inversion H; subst. destruct (IH _ _ _ E) as (H1 & H2 & H3 & H4).
      cbn [concat]. rewrite H1, app_assoc, !length_app.
      split; [reflexivity|]. split; [lia|]. split.
      * intros Hr. specialize (H3 Hr). lia.
      * intros Hl. apply H4. rewrite H1, length_app. lia.
    + inversion H; subst. cbn [concat].
      rewrite <- (firstn_skipn n b) at 1. rewrite <- app_assoc.
      split; [reflexivity|]. rewrite length_firstn.
      split; [lia|]. split; [lia|]. rewrite length_app. lia.
Qed.

Lemma consume_concat (bufs : Buffers) (n : nat) (got : bytes) (rem : Buffers) :
  consume n bufs = (got, rem) ->
  concat bufs = got ++ concat rem /\ (length got <= n)%nat.
Proof.
  unfold consume. destruct n as [|n].
  - intros H. inversion H; subst. split; [reflexivity|simpl; lia].
  - intros H. apply Buffers_Read_spec in H. tauto.
Qed.

Lemma pool_item_full (a : bytes) : len a = 188 -> pool_item 188 a = a.
Proof.
  intros H. unfold pool_item. unfold len in H.
  replace (188 - length a)%nat with 0%nat by lia.
  cbn [Stuffing repeat]. rewrite app_nil_r. apply firstn_all2. lia.
Qed.

Section PacketizerMore.

Variable WritePESHeader : MpegTsPESHeader -> bytes * bool.
Variable WriteTsHeader : MpegTsHeader -> bytes * Z * bool.

Ltac loop_step :=
  cbn [WritePESPacket_loop].

Lemma WritePESPacket_loop_payload (fuel : nat) :
  forall (i : Z) (packet : MpegTsPESPacket) (bufs : Buffers) (L : Z) (r : PESRun),
  let r' := WritePESPacket_loop WritePESHeader WriteTsHeader fuel i packet bufs L r in
  0 <= i -> ended r' = Returned None ->
  exists hs chunks,
    handed r' = handed r ++ hs
    /\ length chunks = length hs
    /\ concat chunks = concat bufs
    /\ BLL r' = BLL r
         ++ assemble WriteTsHeader
              (if i =? 0 then fst (WritePESHeader (Header packet)) else [])
              hs chunks.
Proof.
  induction fuel as [|fuel IH]; intros i packet bufs L r; cbv zeta.
  - simpl. destruct bufs; simpl; [|discriminate]. intros _ _.
    exists [], []. simpl. rewrite !app_nil_r. auto.
  - cbn [WritePESPacket_loop]. intros Hi.
    destruct bufs as [|b0 bufs0] eqn:Eb; cbn [is_nil].
    { intros _. exists [], []. simpl. rewrite !app_nil_r. auto. }
    rewrite <- Eb. clear Eb.
    destruct (if i =? 0 then WritePESHeader (Header packet) else ([], false))
      as [pes_bytes pes_err] eqn:EP.
    destruct pes_err; [discriminate|].
    match goal with
    | |- context [if ?c then padded_header ?h ?l else (?h, 0)] =>
        destruct (if c then padded_header h l else (h, 0)) as [tsHeader st]
    end.
    destruct (WriteTsHeader tsHeader) as [[ts_bytes written] ts_err] eqn:ET.
    destruct ts_err; [discriminate|].
    destruct (consume _ bufs) as [got rem] eqn:EC.
    apply consume_concat in EC. destruct EC as [EC _].
    set (n := len (pes_bytes ++ ts_bytes ++ got)).
    destruct (Z.eqb_spec n TS_PACKET_SIZE) as [Heq|Hne]; cbn [negb];
      [|discriminate].
    intros Hend.
    match goal with
    | |- context [WritePESPacket_loop _ _ fuel ?i' packet rem ?L' ?r0] =>
        destruct (IH i' packet rem L' r0 ltac:(lia) Hend)
          as (hs & chunks & H1 & H2 & H3 & H4)
    end.
    cbn [BLL handed] in H1, H4.
    exists (tsHeader :: hs), (got :: chunks).
    rewrite H1, H4, <- !app_assoc. cbn [app length concat assemble].
    rewrite ET. cbn [fst]. rewrite H2, H3, EC.
    repeat split; try reflexivity.
    f_equal. f_equal.
    + rewrite pool_item_full by exact Heq.
      destruct (i =? 0); [rewrite EP|inversion EP; subst]; reflexivity.
    + destruct (Z.eqb_spec (i + 1) 0); [lia|reflexivity].
Qed.


(** A call that returns without error has cut the payload into consecutive
    chunks, one behind each TS header: the buffers it pushed are the PES
    header (first packet only), the bytes of the TS header and the chunk, and
    the chunks put end to end are the payload. *)
Theorem WritePESPacket_payload_in_order (fuel : nat) (ts : list bytes)
    (frame : MpegtsPESFrame) (packet : MpegTsPESPacket) :
  let r := WritePESPacket WritePESHeader WriteTsHeader fuel ts frame packet in
  ended r = Returned None ->
  exists chunks : list bytes,
    length chunks = length (handed r)
    /\ concat chunks = concat (Payload packet)
    /\ BLL r = ts ++ assemble WriteTsHeader (fst (WritePESHeader (Header packet)))
                       (handed r) chunks.
Proof.
  cbv zeta. unfold WritePESPacket. destruct (negb _); [discriminate|].
  intros Hend.
  destruct (WritePESPacket_loop_payload fuel 0 packet (Payload packet) 0
              (mkPESRun ts frame [] [] Running) ltac:(lia) Hend)
    as (hs & chunks & H1 & H2 & H3 & H4).
  cbn [handed BLL app Z.eqb] in H1, H4. rewrite H1. exists chunks. auto.
Qed.

(** *** The fields of the TS headers *)


Lemma WritePESPacket_loop_headers (fuel : nat) :
  forall (i : Z) (packet : MpegTsPESPacket) (bufs : Buffers) (L : Z) (r : PESRun),
  let r' := WritePESPacket_loop WritePESHeader WriteTsHeader fuel i packet bufs L r in
  let frame := frame_ctx r in
  let key := IsKeyFrame frame in
  let L0 := len (fst (WritePESHeader (Header packet))) + SizeOfBuffers bufs in
  0 <= i -> (i <> 0 -> 0 <= L) ->
  exists hs,
    handed r' = handed r ++ hs
    /\ IsKeyFrame (frame_ctx r') = key /\ Pid (frame_ctx r') = Pid frame
    /\ if i =? 0 then
         match hs with
         | [] => True
         | h :: rest =>
             h = mkTsHeader 71 0 1 0 (Pid frame) 0
                   (if key || (L0 <? 184) then 3 else 1)
                   (ContinuityCounter frame)
                   (if L0 <? 184 then 183 - L0 else if key then 7 else 0)
                   (b2z key) (b2z key)
                   (if key then ProgramClockReferenceBase frame else 0)
             /\ Forall (later_header (Pid frame) L0) rest
         end
       else Forall (later_header (Pid frame) L) hs.
Proof.
  induction fuel as [|fuel IH]; intros i packet bufs L r; cbv zeta; intros Hi HL.
  - exists []. simpl. destruct (is_nil bufs); simpl; rewrite app_nil_r;
      destruct (i =? 0); auto.
  - cbn [WritePESPacket_loop].
    destruct (is_nil bufs).
    { exists []. simpl. rewrite app_nil_r. destruct (i =? 0); auto. }
    assert (Hu : forall x, 0 <= x < 184 -> uint8 (TS_PACKET_SIZE - 4 - 1 - x) = 183 - x).
    { intros x Hx. unfold uint8, TS_PACKET_SIZE. rewrite Z.mod_small; lia. }
    assert (HL0 : 0 <= len (fst (WritePESHeader (Header packet))) + SizeOfBuffers bufs).
    { unfold SizeOfBuffers.
      pose proof (len_nonneg (fst (WritePESHeader (Header packet)))).
      pose proof (len_nonneg (concat bufs)). lia. }
    destruct (Z.eqb_spec i 0) as [Hi0|Hi0].
    + (* the first packet *)
      destruct (WritePESHeader (Header packet)) as [pes_bytes pes_err] eqn:EP.
      cbn [fst] in *.
      destruct pes_err.
      { exists []. simpl. rewrite app_nil_r. auto. }
      set (L0 := len pes_bytes + SizeOfBuffers bufs) in *.
      assert (Hh : exists h st,
                 (if L0 <? TS_PACKET_SIZE - 4
                  then padded_header (first_header i (frame_ctx r)) L0
                  else (first_header i (frame_ctx r), 0)) = (h, st)
                 /\ h = mkTsHeader 71 0 1 0 (Pid (frame_ctx r)) 0
                          (if IsKeyFrame (frame_ctx r) || (L0 <? 184) then 3 else 1)
                          (ContinuityCounter (frame_ctx r))
                          (if L0 <? 184 then 183 - L0
                           else if IsKeyFrame (frame_ctx r) then 7 else 0)
                          (b2z (IsKeyFrame (frame_ctx r)))
                          (b2z (IsKeyFrame (frame_ctx r)))
                          (if IsKeyFrame (frame_ctx r)
                           then ProgramClockReferenceBase (frame_ctx r) else 0)).
      { unfold padded_header, first_header. rewrite Hi0. cbn [Z.eqb].
        change (TS_PACKET_SIZE - 4) with 184.
        destruct (Z.ltb_spec L0 184).
        - eexists _, _. split; [reflexivity|].
          rewrite Hu by lia.
          destruct (IsKeyFrame (frame_ctx r)); reflexivity.
        - eexists _, _. split; [reflexivity|].
          destruct (IsKeyFrame (frame_ctx r)); reflexivity. }
      destruct Hh as (h & st & -> & Hh).
      destruct (WriteTsHeader h) as [[ts_bytes written] ts_err].
      destruct ts_err.
      { exists [h]. cbn [handed frame_ctx set_ContinuityCounter IsKeyFrame Pid].
        repeat split; auto. }
      destruct (consume _ bufs) as [got rem].
      destruct (negb _).
      { exists [h]. cbn [handed frame_ctx set_ContinuityCounter IsKeyFrame Pid].
        repeat split; auto. }
      match goal with
      | |- context [WritePESPacket_loop _ _ fuel ?i' packet rem ?L' ?r0] =>
          destruct (IH i' packet rem L' r0 ltac:(lia) ltac:(intros; exact HL0))
            as (hs & H1 & H2 & H3 & H4)
      end.
      cbv zeta in H1, H2, H3, H4.
      cbn [handed frame_ctx set_ContinuityCounter IsKeyFrame Pid] in H1, H2, H3, H4.
      destruct (Z.eqb_spec (i + 1) 0); [lia|].
      exists (h :: hs). rewrite H1, <- app_assoc. repeat split; auto.
    + (* a later packet *)
      specialize (HL Hi0).
      assert (Hh : exists h st,
                 (if L <? TS_PACKET_SIZE - 4
                  then padded_header (first_header i (frame_ctx r)) L
                  else (first_header i (frame_ctx r), 0)) = (h, st)
                 /\ later_header (Pid (frame_ctx r)) L h).
      { unfold padded_header, first_header, later_header.
        destruct (Z.eqb_spec i 0); [lia|].
        change (TS_PACKET_SIZE - 4) with 184.
        destruct (Z.ltb_spec L 184).
        - eexists _, _. split; [reflexivity|]. rewrite Hu by lia. reflexivity.
        - eexists _, _. split; [reflexivity|]. reflexivity. }
      destruct Hh as (h & st & -> & Hh).
      destruct (WriteTsHeader h) as [[ts_bytes written] ts_err].
      destruct ts_err.
      { exists [h]. cbn [handed frame_ctx set_ContinuityCounter IsKeyFrame Pid].
        repeat split; auto. }
      destruct (consume _ bufs) as [got rem].
      destruct (negb _).
      { exists [h]. cbn [handed frame_ctx set_ContinuityCounter IsKeyFrame Pid].
        repeat split; auto. }
      match goal with
      | |- context [WritePESPacket_loop _ _ fuel ?i' packet rem ?L' ?r0] =>
          destruct (IH i' packet rem L' r0 ltac:(lia) ltac:(intros; exact HL))
            as (hs & H1 & H2 & H3 & H4)
      end.
      cbv zeta in H1, H2, H3, H4.
      cbn [handed frame_ctx set_ContinuityCounter IsKeyFrame Pid] in H1, H2, H3, H4.
      destruct (Z.eqb_spec (i + 1) 0); [lia|].
      exists (h :: hs). rewrite H1, <- app_assoc. repeat split; auto.
Qed.


(** The TS headers of one call: the first starts a payload unit and, for a
    keyframe, carries the PCR with an adaptation field of 7 bytes; a PES
    packet shorter than 184 bytes turns the adaptation field into padding of
    183 bytes less the PES length, on the first header and on the later ones,
    which never start a payload unit or carry a PCR. *)
Theorem WritePESPacket_header_fields (fuel : nat) (ts : list bytes)
    (frame : MpegtsPESFrame) (packet : MpegTsPESPacket) :
  let r := WritePESPacket WritePESHeader WriteTsHeader fuel ts frame packet in
  let key := IsKeyFrame frame in
  let L := len (fst (WritePESHeader (Header packet)))
           + SizeOfBuffers (Payload packet) in
  match handed r with
  | [] => True
  | h :: rest =>
      h = mkTsHeader 71 0 1 0 (Pid frame) 0
            (if key || (L <? 184) then 3 else 1)
            (ContinuityCounter frame)
            (if L <? 184 then 183 - L else if key then 7 else 0)
            (b2z key) (b2z key)
            (if key then ProgramClockReferenceBase frame else 0)
      /\ Forall (fun h' =>
                   h' = mkTsHeader 71 0 0 0 (Pid frame) 0
                          (if L <? 184 then 3 else 1) (hContinuityCounter h')
                          (if L <? 184 then 183 - L else 0) 0 0 0) rest
  end.
Proof.
  cbv zeta. unfold WritePESPacket. destruct (negb _); [exact I|].
  destruct (WritePESPacket_loop_headers fuel 0 packet (Payload packet) 0
              (mkPESRun ts frame [] [] Running) ltac:(lia) ltac:(congruence))
    as (hs & H1 & _ & _ & H4).
  cbv zeta in H1, H4. cbn [handed frame_ctx app Z.eqb] in H1, H4. rewrite H1.
  exact H4.
Qed.

(** *** Fuel *)

Lemma WritePESPacket_loop_more_fuel (fuel : nat) :
  forall (i : Z) (packet : MpegTsPESPacket) (bufs : Buffers) (L : Z) (r : PESRun),
  ended (WritePESPacket_loop WritePESHeader WriteTsHeader fuel i packet bufs L r)
    <> Running ->
  WritePESPacket_loop WritePESHeader WriteTsHeader (S fuel) i packet bufs L r
  = WritePESPacket_loop WritePESHeader WriteTsHeader fuel i packet bufs L r.
Proof.
  induction fuel as [|fuel IH]; intros i packet bufs L r.
  - cbn [WritePESPacket_loop]. destruct (is_nil bufs); [reflexivity|].
    cbn [ended]. congruence.
  - intros H. remember (S fuel) as f eqn:Ef.
    cbn [WritePESPacket_loop]. rewrite Ef in *. clear Ef.
    cbn [WritePESPacket_loop] in H |- *.
    destruct (is_nil bufs); [reflexivity|].
    destruct (if i =? 0 then WritePESHeader (Header packet) else ([], false))
      as [pes_bytes pes_err].
    destruct pes_err; [reflexivity|].
    match goal with
    | |- context [if ?c then padded_header ?h ?l else (?h, 0)] =>
        destruct (if c then padded_header h l else (h, 0)) as [tsHeader st]
    end.
    destruct (WriteTsHeader tsHeader) as [[ts_bytes written] ts_err].
    destruct ts_err; [reflexivity|].
    destruct (consume _ bufs) as [got rem].
    destruct (negb _); [reflexivity|].
    apply IH. exact H.
Qed.

Lemma WritePESPacket_loop_fuel_le (k fuel : nat) (i : Z) (packet : MpegTsPESPacket)
    (bufs : Buffers) (L : Z) (r : PESRun) :
  ended (WritePESPacket_loop WritePESHeader WriteTsHeader fuel i packet bufs L r)
    <> Running ->
  WritePESPacket_loop WritePESHeader WriteTsHeader (k + fuel) i packet bufs L r
  = WritePESPacket_loop WritePESHeader WriteTsHeader fuel i packet bufs L r.
Proof.
  intros H. induction k as [|k IH]; [reflexivity|].
  cbn [Nat.add]. rewrite WritePESPacket_loop_more_fuel; rewrite IH; auto.
Qed.

Section Returns.

Hypothesis WriteTsHeader_short :
  forall h, len (fst (fst (WriteTsHeader h))) < 188.

Lemma WritePESPacket_loop_returns (fuel : nat) :
  forall (i : Z) (packet : MpegTsPESPacket) (bufs : Buffers) (L : Z) (r : PESRun),
  0 <= i ->
  SizeOfBuffers bufs + (if i =? 0 then 1 else 0) < Z.of_nat fuel ->
  ended (WritePESPacket_loop WritePESHeader WriteTsHeader fuel i packet bufs L r)
    <> Running.
Proof.
  induction fuel as [|fuel IH]; intros i packet bufs L r Hi Hf.
  - exfalso. unfold SizeOfBuffers in Hf. pose proof (len_nonneg (concat bufs)).
    destruct (i =? 0); simpl in Hf; lia.
  - cbn [WritePESPacket_loop].
    destruct (is_nil bufs); [discriminate|].
    destruct (if i =? 0 then WritePESHeader (Header packet) else ([], false))
      as [pes_bytes pes_err] eqn:EP.
    destruct pes_err; [discriminate|].
    match goal with
    | |- context [if ?c then padded_header ?h ?l else (?h, 0)] =>
        destruct (if c then padded_header h l else (h, 0)) as [tsHeader st]
    end.
    pose proof (WriteTsHeader_short tsHeader) as Hs.
    destruct (WriteTsHeader tsHeader) as [[ts_bytes written] ts_err].
    cbn [fst] in Hs.
    destruct ts_err; [discriminate|].
    destruct (consume _ bufs) as [got rem] eqn:EC.
    apply consume_concat in EC. destruct EC as [EC _].
    destruct (Z.eqb_spec (len (pes_bytes ++ ts_bytes ++ got)) TS_PACKET_SIZE)
      as [Heq|Hne]; cbn [negb]; [|discriminate].
    apply IH; [lia|].
    assert (Hsz : SizeOfBuffers bufs = len got + SizeOfBuffers rem).
    { unfold SizeOfBuffers. rewrite EC, len_app. reflexivity. }
    destruct (Z.eqb_spec (i + 1) 0); [lia|].
    destruct (Z.eqb_spec i 0).
    + pose proof (len_nonneg got). lia.
    + inversion EP; subst pes_bytes. cbn [app] in Heq.
      rewrite len_app in Heq. unfold TS_PACKET_SIZE in Heq. lia.
Qed.

(** A TS header writer that appends fewer than 188 bytes makes the loop end:
    every later turn that does not return takes payload bytes, so the call
    has returned within as many turns as the payload has bytes, and two more;
    turns it is given beyond that change nothing. *)
Theorem WritePESPacket_returns (fuel fuel' : nat) (ts : list bytes)
    (frame : MpegtsPESFrame) (packet : MpegTsPESPacket) :
  SizeOfBuffers (Payload packet) + 1 < Z.of_nat fuel -> (fuel <= fuel')%nat ->
  ended (WritePESPacket WritePESHeader WriteTsHeader fuel ts frame packet) <> Running
  /\ WritePESPacket WritePESHeader WriteTsHeader fuel' ts frame packet
     = WritePESPacket WritePESHeader WriteTsHeader fuel ts frame packet.
Proof.
  intros Hf Hle. unfold WritePESPacket.
  destruct (negb _); [split; [discriminate|reflexivity]|].
  assert (H : ended (WritePESPacket_loop WritePESHeader WriteTsHeader fuel 0 packet
                       (Payload packet) 0 (mkPESRun ts frame [] [] Running))
              <> Running)
    by (apply WritePESPacket_loop_returns; [lia|exact Hf]).
  split; [exact H|].
  replace fuel' with ((fuel' - fuel) + fuel)%nat by lia.
  now apply WritePESPacket_loop_fuel_le.
Qed.

End Returns.

(** *** Buffers and errors *)

Lemma WritePESPacket_loop_buffers (fuel : nat) :
  forall (i : Z) (packet : MpegTsPESPacket) (bufs : Buffers) (L : Z) (r : PESRun),
  let r' := WritePESPacket_loop WritePESHeader WriteTsHeader fuel i packet bufs L r in
  ended r' <> Returned (Some ErrStartCode)
  /\ (length (BLL r') + length (handed r)
      = length (BLL r) + length (handed r')
        + match ended r' with Returned (Some ErrPESHeader) => 1 | _ => 0 end)%nat
  /\ (length (handed r) <= length (handed r'))%nat
  /\ (length (BLL r) <= length (BLL r'))%nat
  /\ (forall e, ended r' = Returned (Some e) ->
      (length (BLL r) < length (BLL r'))%nat)
  /\ (bufs <> [] -> fuel <> O -> (length (BLL r) < length (BLL r'))%nat).
Proof.
  induction fuel as [|fuel IH]; intros i packet bufs L r; cbv zeta.
  - simpl. destruct (is_nil bufs); simpl; repeat split; try discriminate;
      try congruence; lia.
  - cbn [WritePESPacket_loop].
    destruct bufs as [|b0 bufs0] eqn:Eb; cbn [is_nil].
    { simpl; repeat split; try discriminate; try congruence; lia. }
    rewrite <- Eb. clear Eb.
    destruct (if i =? 0 then WritePESHeader (Header packet) else ([], false))
      as [pes_bytes pes_err].
    destruct pes_err.
    { cbn [BLL handed ended]. rewrite length_app. cbn [length].
      repeat split; try discriminate; lia. }
    match goal with
    | |- context [if ?c then padded_header ?h ?l else (?h, 0)] =>
        destruct (if c then padded_header h l else (h, 0)) as [tsHeader st]
    end.
    destruct (WriteTsHeader tsHeader) as [[ts_bytes written] ts_err].
    destruct ts_err.
    { cbn [BLL handed ended]. rewrite !length_app. cbn [length].
      repeat split; try discriminate; lia. }
    destruct (consume _ bufs) as [got rem].
    destruct (negb _).
    { cbn [BLL handed ended]. rewrite !length_app. cbn [length].
      repeat split; try discriminate; lia. }
    match goal with
    | |- context [WritePESPacket_loop _ _ fuel ?i' packet rem ?L' ?r0] =>
        pose proof (IH i' packet rem L' r0) as IH'; cbv zeta in IH';
        set (rr := WritePESPacket_loop WritePESHeader WriteTsHeader fuel i' packet
                     rem L' r0) in *
    end.
    cbn [BLL handed] in IH'. rewrite !length_app in IH'. cbn [length] in IH'.
    destruct IH' as (H1 & H2 & H3 & H4 & H5 & _).
    split; [exact H1|]. split; [lia|]. split; [lia|]. split; [lia|].
    split; [intros e He; specialize (H5 e He); lia | intros _ _; lia].
Qed.

(** One buffer is pushed for every TS header handed to the writer, and one
    more when the PES header could not be written; so a call that fails after
    the start-code check leaves the buffer it was filling on the list. *)
Theorem WritePESPacket_failed_buffer_stays (fuel : nat) (ts : list bytes)
    (frame : MpegtsPESFrame) (packet : MpegTsPESPacket) :
  PacketStartCodePrefix (Header packet) = 1 ->
  let r := WritePESPacket WritePESHeader WriteTsHeader fuel ts frame packet in
  ended r <> Returned (Some ErrStartCode)
  /\ length (BLL r)
     = (length ts + length (handed r)
        + match ended r with Returned (Some ErrPESHeader) => 1 | _ => 0 end)%nat
  /\ (forall e, ended r = Returned (Some e) -> (length ts < length (BLL r))%nat).
Proof.
  intros Hsc. cbv zeta. unfold WritePESPacket. rewrite Hsc. cbn [Z.eqb Pos.eqb negb].
  destruct (WritePESPacket_loop_buffers fuel 0 packet (Payload packet) 0
              (mkPESRun ts frame [] [] Running)) as (H1 & H2 & H3 & H4 & H5 & _).
  cbv zeta in H1, H2, H3, H4, H5. cbn [BLL handed length] in H2, H3, H4, H5.
  split; [exact H1|]. split; [lia|exact H5].
Qed.

End PacketizerMore.

(** *** One packet to a call *)

Lemma consume_spec (n : nat) (bufs : Buffers) (got : bytes) (rem : Buffers) :
  consume n bufs = (got, rem) -> n <> O ->
  (rem <> [] -> length got = n)
  /\ ((length (concat bufs) <= n)%nat -> rem = []).
Proof.
  unfold consume. destruct n as [|n]; [congruence|]. intros H _.
  apply Buffers_Read_spec in H. tauto.
Qed.

Section OnePacket.

Variable WritePESHeader : MpegTsPESHeader -> bytes * bool.
Variable WriteTsHeader : MpegTsHeader -> bytes * Z * bool.

(** What the code itself assumes of the two header writers: a PES header
    that was written has at least the 9 bytes of its fixed part (the length
    field is computed with 8 and 13 bytes behind the 6 of the packet start),
    and the TS header writer reports at most the 12 bytes of a header with
    PCR and appends no fewer bytes than it reports. *)
Hypothesis WritePESHeader_length :
  forall hdr b, WritePESHeader hdr = (b, false) -> 9 <= len b.
Hypothesis WriteTsHeader_length :
  forall h b w e, WriteTsHeader h = (b, w, e) -> 0 <= w <= 12 /\ w <= len b.

Lemma padded_header_stuffing (h : MpegTsHeader) (L : Z) :
  0 <= L < 184 ->
  snd (padded_header h L) = (if L =? 183 then 0 else 182 - L).
Proof.
  intros HL. unfold padded_header. cbn [snd].
  unfold uint8, TS_PACKET_SIZE.
  rewrite (Z.mod_small (188 - 4 - 1 - L)) by lia.
  destruct (Z.geb_spec (188 - 4 - 1 - L) 1), (Z.eqb_spec L 183); try lia.
  rewrite Z.mod_small; lia.
Qed.

Lemma WritePESPacket_loop_one_packet (fuel : nat) (packet : MpegTsPESPacket)
    (bufs : Buffers) (L : Z) (r : PESRun) :
  let r' := WritePESPacket_loop WritePESHeader WriteTsHeader fuel 0 packet bufs L r in
  (length (handed r') <= S (length (handed r)))%nat
  /\ (189 <= SizeOfBuffers bufs -> fuel <> O ->
      match ended r' with
      | Returned (Some ErrPESHeader) | Returned (Some ErrTsHeader) => True
      | Returned (Some (ErrPacketSize n)) => 188 < n
      | _ => False
      end).
Proof.
  cbv zeta. destruct fuel as [|fuel].
  - simpl. destruct (is_nil bufs); simpl; split; try lia; congruence.
  - cbn [WritePESPacket_loop].
    destruct bufs as [|b0 bufs0] eqn:Eb; cbn [is_nil].
    { cbn [handed ended]. split; [lia|]. unfold SizeOfBuffers, len. simpl. intros; lia. }
    rewrite <- Eb. assert (Hne : bufs <> []) by (rewrite Eb; discriminate). clear Eb.
    cbn [Z.eqb].
    destruct (WritePESHeader (Header packet)) as [pes_bytes pes_err] eqn:EP.
    destruct pes_err.
    { cbn [handed ended]. split; [lia|auto]. }
    pose proof (WritePESHeader_length _ _ EP) as Hh.
    set (L0 := len pes_bytes + SizeOfBuffers bufs).
    assert (Hsz : 0 <= SizeOfBuffers bufs) by (unfold SizeOfBuffers; apply len_nonneg).
    destruct (if L0 <? TS_PACKET_SIZE - 4
              then padded_header (first_header 0 (frame_ctx r)) L0
              else (first_header 0 (frame_ctx r), 0)) as [tsHeader st] eqn:EH.
    assert (Hst : (L0 < 183 -> st = 182 - L0) /\ (183 <= L0 -> st = 0)).
    { change (TS_PACKET_SIZE - 4) with 184 in EH.
      destruct (Z.ltb_spec L0 184).
      - pose proof (padded_header_stuffing (first_header 0 (frame_ctx r)) L0) as Hp.
        rewrite EH in Hp. cbn [snd] in Hp. rewrite Hp by (subst L0; lia).
        destruct (Z.eqb_spec L0 183); split; intros; lia.
      - inversion EH; subst st. split; intros; lia. }
    clear EH. destruct Hst as [Hst1 Hst2].
    destruct (WriteTsHeader tsHeader) as [[ts_bytes written] ts_err] eqn:ET.
    destruct (WriteTsHeader_length _ _ _ _ ET) as [Hw Hwb].
    destruct ts_err.
    { cbn [handed ended]. rewrite length_app. cbn [length]. split; [lia|auto]. }
    destruct (consume _ bufs) as [got rem] eqn:EC.
    set (n := len (pes_bytes ++ ts_bytes ++ got)).
    destruct (Z.eqb_spec n TS_PACKET_SIZE) as [Heq|Hne']; cbn [negb].
    + (* a packet of 188 bytes: nothing can be left *)
      assert (Hroom : Z.to_nat (TS_PACKET_SIZE - (written + st)) <> O).
      { unfold TS_PACKET_SIZE.
        destruct (Z.ltb_spec L0 183); [rewrite Hst1 by lia|rewrite Hst2 by lia];
          subst L0; lia. }
      destruct (consume_spec _ _ _ _ EC Hroom) as [Hfull Hall].
      assert (Hrem : rem = []).
      { destruct rem as [|r0 rem0]; [reflexivity|exfalso].
        assert (Hg : length got = Z.to_nat (TS_PACKET_SIZE - (written + st)))
          by (apply Hfull; discriminate).
        destruct (Z.ltb_spec L0 184) as [Hlt|Hge].
        - (* padded: the room takes the whole payload *)
          assert (Hnil : r0 :: rem0 = []); [|discriminate].
          apply Hall. unfold SizeOfBuffers, len in *. unfold TS_PACKET_SIZE.
          destruct (Z.ltb_spec L0 183); [rewrite Hst1 by lia|rewrite Hst2 by lia];
            subst L0; lia.
        - (* not padded: a full room behind the PES header is too much *)
          unfold n in Heq. rewrite !len_app in Heq. unfold len in Heq, Hwb, Hh.
          rewrite Hg in Heq. unfold TS_PACKET_SIZE in *.
          rewrite Hst2 in Heq by lia. lia. }
      subst rem. destruct fuel; cbn [WritePESPacket_loop is_nil handed ended];
        rewrite length_app; cbn [length]; (split; [lia|]).
      * intros Hbig _. exfalso.
        apply consume_concat in EC. destruct EC as [EC Hle].
        unfold SizeOfBuffers, len in Hbig. rewrite EC, app_nil_r in Hbig.
        cbn [concat] in Hbig. unfold TS_PACKET_SIZE in *. lia.
      * intros Hbig _. exfalso.
        apply consume_concat in EC. destruct EC as [EC Hle].
        unfold SizeOfBuffers, len in Hbig. rewrite EC, app_nil_r in Hbig.
        cbn [concat] in Hbig. unfold TS_PACKET_SIZE in *. lia.
    + cbn [handed ended]. rewrite length_app. cbn [length]. split; [lia|].
      intros Hbig _.
      assert (Hroom : Z.to_nat (TS_PACKET_SIZE - (written + st)) <> O).
      { unfold TS_PACKET_SIZE.
        destruct (Z.ltb_spec L0 183); [rewrite Hst1 by lia|rewrite Hst2 by lia];
          subst L0; lia. }
      destruct (consume_spec _ _ _ _ EC Hroom) as [Hfull Hall].
      assert (Hst0 : st = 0) by (apply Hst2; subst L0; lia).
      assert (Hrem : rem <> []).
      { intros ->. apply consume_concat in EC. destruct EC as [EC Hle].
        unfold SizeOfBuffers, len in Hbig. rewrite EC, app_nil_r in Hbig.
        unfold TS_PACKET_SIZE in *. lia. }
      specialize (Hfull Hrem). unfold n. rewrite !len_app. unfold len in *.
      rewrite Hfull. unfold TS_PACKET_SIZE. lia.
Qed.



(** A PES packet with 189 payload bytes or more cannot be written: the PES
    header is in the buffer of the first TS packet but not in the length the
    room for the payload is computed from, so the first packet comes out
    longer than 188 bytes by the PES header and the call ends with the
    packet-size error (unless a header writer failed before). *)
Theorem WritePESPacket_large_packet_fails (fuel : nat) (ts : list bytes)
    (frame : MpegtsPESFrame) (packet : MpegTsPESPacket) :
  PacketStartCodePrefix (Header packet) = 1 ->
  189 <= SizeOfBuffers (Payload packet) ->
  let r := WritePESPacket WritePESHeader WriteTsHeader (S fuel) ts frame packet in
  match ended r with
  | Returned (Some ErrPESHeader) | Returned (Some ErrTsHeader) => True
  | Returned (Some (ErrPacketSize n)) => 188 < n
  | _ => False
  end.
Proof.
  intros Hsc Hbig. cbv zeta. unfold WritePESPacket. rewrite Hsc.
  cbn [Z.eqb Pos.eqb negb].
  destruct (WritePESPacket_loop_one_packet (S fuel) packet (Payload packet) 0
              (mkPESRun ts frame [] [] Running)) as [_ H].
  apply H; [exact Hbig|discriminate].
Qed.

End OnePacket.

(** ** The frame writers *)

Section FrameWriters.

Variable WritePESHeader : MpegTsPESHeader -> bytes * bool.
Variable WriteTsHeader : MpegTsHeader -> bytes * Z * bool.
Variable AudioSpecificConfig : Type.
Variable ToADTS : AudioSpecificConfig -> Z -> bytes.
Variable STREAM_ID_AUDIO : Z.
Variable NALU_AUD_BYTE : bytes.
Variable AudNalu : bytes.
Variable STREAM_ID_VIDEO : Z.
Variable ParamaterSets_GetAnnexB : list bytes -> Buffers.

(** The PES packet of a video frame: the payload is the access-unit
    delimiter (the one of [NALU_AUD_BYTE] for exactly two parameter sets),
    the parameter sets for a keyframe only, then the frame; the length field
    is the payload size plus 13, or 0 when that exceeds 16 bits, so it is
    never a wrapped value. *)
Theorem WriteVideoFrame_packet_length (frame : VideoFrame)
    (paramaterSets : list bytes) :
  let packet := video_packet NALU_AUD_BYTE AudNalu STREAM_ID_VIDEO
                  ParamaterSets_GetAnnexB frame paramaterSets in
  let size := SizeOfBuffers (Payload packet) in
  Payload packet
  = [if (length paramaterSets =? 2)%nat then NALU_AUD_BYTE else AudNalu]
      ++ (if vIFrame frame then ParamaterSets_GetAnnexB paramaterSets else [])
      ++ vGetAnnexB frame
  /\ PesPacketLength (Header packet)
     = (if size + 13 <=? 65535 then size + 13 else 0)
  /\ PtsDtsFlags (Header packet) = 192
  /\ Pts (Header packet) = vPTS frame /\ Dts (Header packet) = vDTS frame.
Proof.
  cbv zeta. unfold video_packet. cbn [Payload Header PesPacketLength PtsDtsFlags Pts Dts].
  split.
  - destruct (length paramaterSets =? 2)%nat, (vIFrame frame);
      rewrite <- ?app_assoc; reflexivity.
  - split; [|auto].
    match goal with |- context [SizeOfBuffers ?b] => set (n := SizeOfBuffers b) end.
    assert (Hn : 0 <= n) by (unfold n, SizeOfBuffers; apply len_nonneg).
    rewrite Z.gtb_ltb.
    destruct (Z.ltb_spec 65535 (n + 10 + 3)), (Z.leb_spec (n + 13) 65535);
      try lia; unfold uint16; rewrite Z.mod_small; lia.
Qed.

(** Both frame writers hand over a packet with the start code 0x000001 and
    a payload that begins with a fragment of their own (the ADTS header, the
    access-unit delimiter): they never return the start-code error, and a
    call pushes at least one buffer whatever the frame holds. *)
Theorem frame_writers_push_a_buffer (fuel : nat) (ts : list bytes)
    (pes : MpegtsPESFrame) :
  (forall (frame : AudioFrame) (aac_asc : AudioSpecificConfig),
     let r := WriteAudioFrame WritePESHeader WriteTsHeader AudioSpecificConfig ToADTS
                STREAM_ID_AUDIO (S fuel) ts frame aac_asc pes in
     ended r <> Returned (Some ErrStartCode)
     /\ (length ts < length (BLL r))%nat)
  /\ (forall (frame : VideoFrame) (paramaterSets : list bytes),
     let r := WriteVideoFrame WritePESHeader WriteTsHeader NALU_AUD_BYTE AudNalu
                STREAM_ID_VIDEO ParamaterSets_GetAnnexB (S fuel) ts frame
                paramaterSets pes in
     ended r <> Returned (Some ErrStartCode)
     /\ (length ts < length (BLL r))%nat).
Proof.
  assert (H : forall packet : MpegTsPESPacket,
            PacketStartCodePrefix (Header packet) = 1 -> Payload packet <> [] ->
            let r := WritePESPacket WritePESHeader WriteTsHeader (S fuel) ts pes packet in
            ended r <> Returned (Some ErrStartCode)
            /\ (length ts < length (BLL r))%nat).
  { intros packet Hsc Hp. cbv zeta. unfold WritePESPacket. rewrite Hsc.
    cbn [Z.eqb Pos.eqb negb].
    destruct (WritePESPacket_loop_buffers WritePESHeader WriteTsHeader (S fuel) 0 packet
                (Payload packet) 0 (mkPESRun ts pes [] [] Running))
      as (H1 & _ & _ & _ & _ & H6).
    split; [exact H1|]. apply H6; [exact Hp|discriminate]. }
  split.
  - intros frame aac_asc. apply H; [reflexivity|]. discriminate.
  - intros frame paramaterSets. apply H; [reflexivity|].
    unfold video_packet. cbn [Payload].
    destruct (length paramaterSets =? 2)%nat, (vIFrame frame); discriminate.
Qed.

End FrameWriters.


(** ** The track of a codec not known yet *)


Section UnknownProps.

Context {tracks : VideoTracks}.

Lemma UnknowVideo_unopened (frames : list (Z * bytes)) : forall vt : UnknowVideo,
  VideoTrack_of vt = None ->
  Forall (fun f => opens (snd f) = false) frames ->
  let vt' := UnknowVideo_WriteAVCCs vt frames in
  VideoTrack_of vt' = None
  /\ length (unknown_log vt') = (length (unknown_log vt) + length frames)%nat
  /\ (Name vt <> String.EmptyString -> Name vt' = Name vt).
Proof.
  induction frames as [|f frames IH]; intros vt Hnone Hall; cbv zeta.
  - simpl. split; [exact Hnone|]. split; [lia|reflexivity].
  - inversion Hall as [|? ? Hf Hall']; subst.
    unfold UnknowVideo_WriteAVCCs. cbn [fold_left].
    fold (UnknowVideo_WriteAVCCs (UnknowVideo_WriteAVCC vt (fst f) (snd f)) frames).
    assert (H1 : VideoTrack_of (UnknowVideo_WriteAVCC vt (fst f) (snd f)) = None
                 /\ length (unknown_log (UnknowVideo_WriteAVCC vt (fst f) (snd f)))
                    = S (length (unknown_log vt))
                 /\ (Name vt <> String.EmptyString ->
                     Name (UnknowVideo_WriteAVCC vt (fst f) (snd f)) = Name vt)).
    { unfold UnknowVideo_WriteAVCC, opens in *. rewrite Hnone.
      destruct (IsSequence (snd f)); cbn [andb] in Hf.
      - apply orb_false_elim in Hf as [-> ->].
        cbn [VideoTrack_of unknown_log Name]. rewrite length_app. simpl.
        split; [reflexivity|]. split; [lia|].
        intros Hn. destruct (String.eqb_spec (Name vt) String.EmptyString);
          [congruence|reflexivity].
      - cbn [VideoTrack_of unknown_log Name]. rewrite length_app. simpl.
        split; [reflexivity|]. split; [lia|reflexivity]. }
    destruct H1 as (H1 & H2 & H3). destruct (IH _ H1 Hall') as (H4 & H5 & H6).
    cbv zeta in H4, H5, H6.
    split; [exact H4|]. split; [rewrite H5, H2; cbn [length]; lia|].
    intros Hn. rewrite H6; rewrite (H3 Hn); auto.
Qed.

Lemma UnknowVideo_forwarding (frames : list (Z * bytes)) :
  forall (track : VideoTrack) (name : String.string) (l : list UnknownLog),
  UnknowVideo_WriteAVCCs (mkUnknowVideo _ name (Some track) l) frames
  = mkUnknowVideo _ name (Some (forward track frames)) l.
Proof.
  induction frames as [|f frames IH]; intros track name l.
  - reflexivity.
  - unfold UnknowVideo_WriteAVCCs, forward. cbn [fold_left].
    unfold UnknowVideo_WriteAVCC at 2. cbn [VideoTrack_of Name unknown_log].
    apply IH.
Qed.

(** Until a sequence header of a supported codec arrives, every frame is
    dropped and the track stays unknown; each dropped frame logs one line,
    that its codec is not supported when it is a sequence header and that a
    sequence frame is needed otherwise; a name already given is kept. *)
Theorem UnknowVideo_drops_until_sequence (vt : UnknowVideo)
    (frames : list (Z * bytes)) :
  VideoTrack_of vt = None ->
  Forall (fun f => opens (snd f) = false) frames ->
  let vt' := UnknowVideo_WriteAVCCs vt frames in
  VideoTrack_of vt' = None
  /\ unknown_log vt'
     = unknown_log vt
       ++ map (fun f => if IsSequence (snd f)
                        then codec_not_supported (VideoCodecID (snd f))
                        else need_sequence_frame) frames
  /\ (Name vt <> String.EmptyString -> Name vt' = Name vt).
Proof.
  intros Hnone Hall. cbv zeta. revert vt Hnone.
  induction Hall as [|f frames Hf _ IH]; intros vt Hnone.
  - simpl. rewrite app_nil_r. auto.
  - unfold UnknowVideo_WriteAVCCs. cbn [fold_left map].
    fold (UnknowVideo_WriteAVCCs (UnknowVideo_WriteAVCC vt (fst f) (snd f)) frames).
    assert (H1 : VideoTrack_of (UnknowVideo_WriteAVCC vt (fst f) (snd f)) = None
                 /\ unknown_log (UnknowVideo_WriteAVCC vt (fst f) (snd f))
                    = unknown_log vt
                      ++ [if IsSequence (snd f)
                          then codec_not_supported (VideoCodecID (snd f))
                          else need_sequence_frame]
                 /\ (Name vt <> String.EmptyString ->
                     Name (UnknowVideo_WriteAVCC vt (fst f) (snd f)) = Name vt)).
    { unfold UnknowVideo_WriteAVCC, opens in *. rewrite Hnone.
      destruct (IsSequence (snd f)); cbn [andb] in Hf.
      - apply orb_false_elim in Hf as [-> ->].
        cbn [VideoTrack_of unknown_log Name].
        split; [reflexivity|]. split; [reflexivity|].
        intros Hn. destruct (String.eqb_spec (Name vt) String.EmptyString);
          [congruence|reflexivity].
      - cbn [VideoTrack_of unknown_log Name]. auto. }
    destruct H1 as (H1 & H2 & H3). destruct (IH _ H1) as (H4 & H5 & H6).
    split; [exact H4|]. split; [rewrite H5, H2, <- app_assoc; reflexivity|].
    intros Hn. rewrite H6; rewrite (H3 Hn); auto.
Qed.

(** The first sequence header of a supported codec creates the track of its
    codec and is written to it with the timestamp 0, whatever timestamp it
    came with; every frame after it goes to that track with its own
    timestamp, a sequence header of another codec included, and nothing more
    is logged. *)
Theorem UnknowVideo_opens_once (vt : UnknowVideo)
    (before after : list (Z * bytes)) (ts : Z) (seqframe : bytes) :
  VideoTrack_of vt = None ->
  Forall (fun f => opens (snd f) = false) before ->
  opens seqframe = true ->
  let vt' := UnknowVideo_WriteAVCCs vt (before ++ (ts, seqframe) :: after) in
  let opened := if VideoCodecID seqframe =? CodecID_H264 then NewH264 else NewH265 in
  VideoTrack_of vt' = Some (forward (Track_WriteAVCC 0 seqframe opened) after)
  /\ length (unknown_log vt') = (length (unknown_log vt) + length before)%nat.
Proof.
  intros Hnone Hbefore Hopen. cbv zeta.
  destruct (UnknowVideo_unopened before vt Hnone Hbefore) as (H1 & H2 & _).
  cbv zeta in H1, H2.
  set (opened := if VideoCodecID seqframe =? CodecID_H264 then NewH264 else NewH265).
  assert (Hstep : exists name,
            UnknowVideo_WriteAVCC (UnknowVideo_WriteAVCCs vt before) ts seqframe
            = mkUnknowVideo _ name (Some (Track_WriteAVCC 0 seqframe opened))
                (unknown_log (UnknowVideo_WriteAVCCs vt before))).
  { unfold UnknowVideo_WriteAVCC. rewrite H1.
    unfold opens in Hopen. apply andb_prop in Hopen as [Hs Hc]. rewrite Hs.
    cbv zeta. unfold opened.
    destruct (VideoCodecID seqframe =? CodecID_H264); [eexists; reflexivity|].
    cbn [orb] in Hc. rewrite Hc. eexists; reflexivity. }
  destruct Hstep as (name & Hstep).
  assert (Hall : UnknowVideo_WriteAVCCs vt (before ++ (ts, seqframe) :: after)
                 = mkUnknowVideo _ name
                     (Some (forward (Track_WriteAVCC 0 seqframe opened) after))
                     (unknown_log (UnknowVideo_WriteAVCCs vt before))).
  { unfold UnknowVideo_WriteAVCCs at 1. rewrite fold_left_app. cbn [fold_left fst snd].
    fold (UnknowVideo_WriteAVCCs vt before). rewrite Hstep.
    apply UnknowVideo_forwarding. }
  rewrite Hall. cbn [VideoTrack_of unknown_log]. auto.
Qed.

End UnknownProps.

Lemma UnknowVideo_drops_until_sequence_witness :
  let vt := @mkUnknowVideo recording_tracks String.EmptyString None [] in
  let vt' := @UnknowVideo_WriteAVCCs recording_tracks vt
               [(40, [39; 1; 0; 0; 0; 65]); (80, [25; 0; 0; 0; 0])] in
  @VideoTrack_of recording_tracks vt' = None
  /\ @unknown_log recording_tracks vt' = [need_sequence_frame; codec_not_supported 9].
Proof.
  cbv zeta.
  destruct (@UnknowVideo_drops_until_sequence recording_tracks
              (@mkUnknowVideo recording_tracks String.EmptyString None [])
              [(40, [39; 1; 0; 0; 0; 65]); (80, [25; 0; 0; 0; 0])])
    as (H1 & H2 & _).
  - reflexivity.
  - repeat constructor.
  - split; [exact H1|exact H2].
Defined.

Lemma UnknowVideo_opens_once_witness :
  let vt := @mkUnknowVideo recording_tracks String.EmptyString None [] in
  let vt' := @UnknowVideo_WriteAVCCs recording_tracks vt
               ([(40, [39; 1; 0; 0; 0; 65])]
                  ++ (80, [23; 0; 0; 0; 0; 1]) :: [(120, [28; 0; 0; 0; 0]);
                                                  (160, [39; 1; 0; 0; 0; 65])]) in
  @VideoTrack_of recording_tracks vt'
  = Some (7, [(0, [23; 0; 0; 0; 0; 1]); (120, [28; 0; 0; 0; 0]);
              (160, [39; 1; 0; 0; 0; 65])]).
Proof.
  cbv zeta.
  destruct (@UnknowVideo_opens_once recording_tracks
              (@mkUnknowVideo recording_tracks String.EmptyString None [])
              [(40, [39; 1; 0; 0; 0; 65])]
              [(120, [28; 0; 0; 0; 0]); (160, [39; 1; 0; 0; 0; 65])]
              80 [23; 0; 0; 0; 0; 1]) as (H1 & _).
  - reflexivity.
  - repeat constructor.
  - reflexivity.
  - exact H1.
Defined.

(** ** Runs on concrete inputs *)

Lemma Flush_without_payload_witness :
  let t' := Flush no_FLV (mkConfig true false) (new_track 4 7 4) in
  ring t' = [0; 1; 2; 3]%nat /\ idrCount t' = 0
  /\ Flush no_FLV (mkConfig true false) t' = t'.
Proof.
  cbv zeta.
  destruct (Flush_without_payload no_FLV (mkConfig true false) (new_track 4 7 4))
    as (H1 & H2 & _ & _ & _ & _ & _ & H8).
  - apply ring_wf_new_track. lia.
  - reflexivity.
  - split; [exact H1|]. split; [exact H2|exact H8].
Defined.

Lemma Flush_completes_FLV_witness :
  let f := slot (Flush FLV_stub (mkConfig false true) scenario_track) 0 in
  FLV f = [9; 0] :: avcc_of 7 (Value scenario_track)
  /\ Raw f = [[scenario_SPS]; [scenario_PPS]; [scenario_IDR]].
Proof.
  cbv zeta.
  assert (Hwf : ring_wf scenario_track).
  { apply ring_wf_set_Value. apply ring_wf_new_track. lia. }
  assert (Hraw : Raw (Value scenario_track) <> []) by (vm_compute; discriminate).
  destruct (Flush_completes_FLV FLV_stub (mkConfig false true) scenario_track Hwf Hraw)
    as (H1 & _ & H3 & _).
  split.
  - exact (H1 eq_refl eq_refl).
  - exact H3.
Defined.

Lemma ring_wf_sole_keyframe_cache : ring_wf sole_keyframe_cache.
Proof.
  unfold ring_wf, sole_keyframe_cache. cbn [ring slots length].
  split; [|split; [lia|]].
  - repeat constructor; simpl; intuition lia.
  - intros i Hi. simpl in Hi. lia.
Qed.

Lemma ring_wf_early_cache : ring_wf early_cache.
Proof.
  unfold ring_wf, early_cache. cbn [ring slots length].
  split; [|split; [lia|]].
  - repeat constructor; simpl; intuition lia.
  - intros i Hi. simpl in Hi. lia.
Qed.

Lemma Flush_grows_ring_for_sole_keyframe_witness :
  let t' := Flush no_FLV (mkConfig true false) sole_keyframe_cache in
  ring t' = [3; 4; 5; 6; 7; 0; 1; 2]%nat
  /\ length (slots t') = 8%nat
  /\ slot t' 0 = slot sole_keyframe_cache 0
  /\ idrCount t' = 1.
Proof.
  cbv zeta.
  destruct (Flush_grows_ring_for_sole_keyframe no_FLV (mkConfig true false)
              sole_keyframe_cache 2%nat 0%nat [1%nat])
    as (H1 & H2 & H3 & H4 & _).
  - exact ring_wf_sole_keyframe_cache.
  - vm_compute. discriminate.
  - reflexivity.
  - reflexivity.
  - reflexivity.
  - vm_compute. reflexivity.
  - split; [exact H1|]. split; [exact H2|]. split; [|exact H4].
    apply H3; [simpl; lia|discriminate].
Defined.

Lemma Flush_recycles_next_slot_witness :
  let t' := Flush no_FLV (mkConfig true false) early_cache in
  ring t' = [2; 0; 1]%nat /\ slot t' 0 = slot early_cache 0
  /\ idrCount t' = 1 /\ Raw (Value t') = [].
Proof.
  cbv zeta.
  destruct (Flush_recycles_next_slot no_FLV (mkConfig true false)
              early_cache 1%nat 2%nat [0%nat])
    as (H1 & H2 & H3 & _ & H5 & _).
  - exact ring_wf_early_cache.
  - vm_compute. discriminate.
  - reflexivity.
  - left. reflexivity.
  - split; [exact H1|]. split; [apply H2; discriminate|].
    split; [exact H3|exact H5].
Defined.

Lemma ComputeGOP_bookkeeping_witness :
  let t := set_IDRing (new_track 20 7 4) (Some 0%nat) in
  let t' := ComputeGOP t in
  Size t' = 5 /\ GOP t' = 0 /\ ring t' = [0; 16; 17; 18; 19]%nat
  /\ IDRing t' = Some 0%nat
  /\ Size (ComputeGOP (new_track 20 7 4)) = 20.
Proof.
  cbv zeta.
  assert (Hwf : ring_wf (set_IDRing (new_track 20 7 4) (Some 0%nat)))
    by (apply (ring_wf_new_track 20 7 4); lia).
  assert (Hsz : Size (set_IDRing (new_track 20 7 4) (Some 0%nat))
                <= len (ring (set_IDRing (new_track 20 7 4) (Some 0%nat))))
    by (vm_compute; discriminate).
  destruct (ComputeGOP_bookkeeping _ Hwf Hsz) as (_ & _ & H3 & _ & _ & H6).
  destruct (H6 0%nat eq_refl) as (H7 & _ & H9 & _).
  destruct H9 as (H10 & H11 & _); [vm_compute; reflexivity|].
  assert (Hwf0 : ring_wf (new_track 20 7 4)) by (apply ring_wf_new_track; lia).
  assert (Hsz0 : Size (new_track 20 7 4) <= len (ring (new_track 20 7 4)))
    by (vm_compute; discriminate).
  destruct (ComputeGOP_bookkeeping _ Hwf0 Hsz0) as (_ & _ & _ & _ & H5 & _).
  destruct (H5 eq_refl) as (_ & H12 & _).
  split; [exact H10|]. split; [exact H7|]. split; [exact H11|].
  split; [exact H3|exact H12].
Defined.

Lemma WritePESPacket_payload_in_order_witness :
  let r := WritePESPacket PESHeader_stub TsHeader_stub 10 []
             (mkPESFrame 256 false 0 0) (sample_packet 368) in
  exists chunks : list bytes,
    length chunks = 2%nat
    /\ concat chunks = repeat 7 368
    /\ BLL r = assemble TsHeader_stub [] (handed r) chunks.
Proof.
  cbv zeta.
  destruct (WritePESPacket_payload_in_order PESHeader_stub TsHeader_stub 10 []
              (mkPESFrame 256 false 0 0) (sample_packet 368))
    as (chunks & H1 & H2 & H3).
  - vm_compute. reflexivity.
  - exists chunks. split; [exact H1|]. split; [|exact H3].
    rewrite H2. cbn [sample_packet Payload concat]. apply app_nil_r.
Defined.

Lemma WritePESPacket_returns_witness :
  ended (WritePESPacket PESHeader_stub TsHeader_stub 202 []
           (mkPESFrame 256 false 0 0) (sample_packet 200)) <> Running
  /\ WritePESPacket PESHeader_stub TsHeader_stub 1000 []
       (mkPESFrame 256 false 0 0) (sample_packet 200)
     = WritePESPacket PESHeader_stub TsHeader_stub 202 []
         (mkPESFrame 256 false 0 0) (sample_packet 200).
Proof.
  apply (WritePESPacket_returns PESHeader_stub TsHeader_stub).
  - intros h. vm_compute. reflexivity.
  - vm_compute. reflexivity.
  - lia.
Defined.

Lemma WritePESPacket_failed_buffer_stays_witness :
  let r := WritePESPacket PESHeader_stub TsHeader_stub 10 []
             (mkPESFrame 256 false 0 0) (sample_packet 200) in
  ended r <> Returned (Some ErrStartCode)
  /\ length (BLL r) = 2%nat
  /\ ended r = Returned (Some (ErrPacketSize 20)).
Proof.
  cbv zeta.
  destruct (WritePESPacket_failed_buffer_stays PESHeader_stub TsHeader_stub 10 []
              (mkPESFrame 256 false 0 0) (sample_packet 200) eq_refl)
    as (H1 & H2 & H3).
  split; [exact H1|]. split; [|reflexivity].
  rewrite H2. reflexivity.
Defined.

Lemma WritePESPacket_sizes_witness :
  let r := WritePESPacket PESHeader_stub TsHeader_stub 10 []
             (mkPESFrame 256 false 0 0) (sample_packet 200) in
  (exists items, BLL r = [] ++ items /\ Forall (fun b => len b = 188) items)
  /\ exists zs0, sizes r = zs0 ++ [20] /\ 20 <> 188
                 /\ Forall (fun z => z = 188) zs0.
Proof.
  cbv zeta.
  destruct (WritePESPacket_sizes PESHeader_stub TsHeader_stub 10 []
              (mkPESFrame 256 false 0 0) (sample_packet 200) eq_refl)
    as (H1 & H2).
  split; [exact H1|exact H2].
Defined.

Lemma PESHeader_sized_length (hdr : MpegTsPESHeader) (b : bytes) :
  PESHeader_sized hdr = (b, false) -> 9 <= len b.
Proof. intros H. inversion H; subst. unfold len. simpl. lia. Qed.

Lemma TsHeader_sized_length (h : MpegTsHeader) (b : bytes) (w : Z) (e : bool) :
  TsHeader_sized h = (b, w, e) -> 0 <= w <= 12 /\ w <= len b.
Proof.
  unfold TsHeader_sized. intros H.
  destruct (AdaptionFieldControl h >=? 2); inversion H; subst;
    unfold len; rewrite ?length_app; simpl; lia.
Qed.


Lemma WritePESPacket_large_packet_fails_witness :
  ended (WritePESPacket PESHeader_sized TsHeader_sized 10 []
           (mkPESFrame 256 false 0 0) (sample_packet 200))
  = Returned (Some (ErrPacketSize 202))
  /\ 188 < 202.
Proof.
  split; [reflexivity|].
  pose proof (WritePESPacket_large_packet_fails PESHeader_sized TsHeader_sized
                PESHeader_sized_length TsHeader_sized_length 9 []
                (mkPESFrame 256 false 0 0) (sample_packet 200) eq_refl) as H.
  cbv zeta in H. apply H. vm_compute. discriminate.
Defined.
